(** * A shallow embedding of [ckb_smt.h]: the sparse-merkle-tree proof verifier

    The C code works on fixed 32-byte arrays, on a caller-owned array of
    key/value pairs and on two local 32-slot arrays used as an evaluation
    stack.  Bytes and machine integers are [Z] values with the C conversions
    written out; arrays are lists read with stdpp's total lookup and written
    with stdpp's insert.  BLAKE2b is outside the repository and is a section
    variable. *)

From Stdlib Require Import ZArith Lia List Bool.
From stdpp Require Import base tactics list sorting.

Local Open Scope Z_scope.

(** ** Machine integers *)

Definition UINT32_MOD : Z := 2 ^ 32.

(** Arithmetic on [uint32_t] is modulo 2^32. *)
Definition to_uint32 (z : Z) : Z := z mod UINT32_MOD.

(** Conversion of a [uint32_t] to [int32_t] (two's complement). *)
Definition to_int32 (z : Z) : Z :=
  let u := z mod UINT32_MOD in
  if u <? 2 ^ 31 then u else u - UINT32_MOD.

(** Conversion to [uint8_t]. *)
Definition to_uint8 (z : Z) : Z := z mod 256.

Definition is_byte (b : Z) : Prop := 0 <= b < 256.

(** ** Arrays *)

(** An array of [uint8_t]. *)
Abbreviation bytes := (list Z) (only parsing).

(** [a[i]] for an in-range index [i]. *)
Definition arr_get {A} `{Inhabited A} (a : list A) (i : Z) : A :=
  a !!! Z.to_nat i.

(** [a[i] = x] for an in-range index [i]. *)
Definition arr_set {A} (a : list A) (i : Z) (x : A) : list A :=
  <[Z.to_nat i := x]> a.

(** [memcmp(a, b, n)]: the difference of the first pair of bytes that
    differ among the first [n], 0 when there is none. *)
Fixpoint memcmp_from (a b : bytes) (i n : nat) : Z :=
  match n with
  | O => 0
  | S n' =>
      let d := a !!! i - b !!! i in
      if d =? 0 then memcmp_from a b (S i) n' else d
  end.

Definition memcmp (a b : bytes) (n : Z) : Z := memcmp_from a b 0 (Z.to_nat n).

(** [memset(_, 0, n)]. *)
Definition zero_bytes (n : Z) : bytes := replicate (Z.to_nat n) 0.

(** ** Constants and types of ckb_smt.h *)

Definition _SMT_STACK_SIZE : Z := 32.
Definition SMT_KEY_BYTES : Z := 32.
Definition SMT_VALUE_BYTES : Z := 32.

Inductive SMTErrorCode : Type :=
| ERROR_INSUFFICIENT_CAPACITY
| ERROR_NOT_FOUND
| ERROR_INVALID_STACK
| ERROR_INVALID_SIBLING
| ERROR_INVALID_PROOF.

Definition error_code (e : SMTErrorCode) : Z :=
  match e with
  | ERROR_INSUFFICIENT_CAPACITY => 80
  | ERROR_NOT_FOUND => 81
  | ERROR_INVALID_STACK => 82
  | ERROR_INVALID_SIBLING => 83
  | ERROR_INVALID_PROOF => 84
  end.

Record smt_pair_t : Type := mk_pair {
  key : bytes;
  value : bytes;
  order : Z
}.

Record smt_state_t : Type := mk_state {
  pairs : list smt_pair_t;
  len : Z;
  capacity : Z
}.

(** The pair that a read outside an array of pairs gives; no read of the
    properties below is outside. *)
#[global] Instance smt_pair_inhabited : Inhabited smt_pair_t :=
  populate (mk_pair [] [] 0).

(** What a call leaves behind: [Ok a] is a return of 0 together with what
    the call wrote, [Err e] a return of the error code [e], and [Undef] an
    execution that reads outside the proof buffer, for which C defines no
    result ([calculate_root_defined]: there is none on a proof shorter than
    2^32 - 33 bytes). *)
Inductive result (A : Type) : Type :=
| Ok (a : A)
| Err (e : SMTErrorCode)
| Undef.
Arguments Ok {A} a.
Arguments Err {A} e.
Arguments Undef {A}.

(** The [int] a call returns, when it returns. *)
Definition ret_code {A} (r : result A) : option Z :=
  match r with
  | Ok _ => Some 0
  | Err e => Some (error_code e)
  | Undef => None
  end.

(** ** The staging buffer *)

Definition smt_state_init (buffer : list smt_pair_t) (capacity : Z) : smt_state_t :=
  {| pairs := buffer; len := 0; capacity := capacity |}.

Definition set_pair_key (p : smt_pair_t) (k : bytes) : smt_pair_t :=
  {| key := k; value := value p; order := order p |}.
Definition set_pair_value (p : smt_pair_t) (v : bytes) : smt_pair_t :=
  {| key := key p; value := v; order := order p |}.
Definition set_pair_order (p : smt_pair_t) (o : Z) : smt_pair_t :=
  {| key := key p; value := value p; order := o |}.

(** The loop [for (; i >= 0; i--) if (memcmp(key, pairs[i].key, 32) == 0) break;]
    run from [i = n - 1]; the result is the final [i], so -1 when no key
    matches. *)
Fixpoint scan_down (ps : list smt_pair_t) (k : bytes) (n : nat) : Z :=
  match n with
  | O => -1
  | S i =>
      if memcmp k (key (ps !!! i)) SMT_KEY_BYTES =? 0 then Z.of_nat i
      else scan_down ps k i
  end.

(** The same loop from the [int32_t] start value [i0]. *)
Definition scan_from (ps : list smt_pair_t) (k : bytes) (i0 : Z) : Z :=
  if i0 <? 0 then i0 else scan_down ps k (Z.to_nat (i0 + 1)).

Definition smt_state_insert (state : smt_state_t) (k v : bytes)
  : smt_state_t * Z :=
  if len state <? capacity state then
    let ps1 := arr_set (pairs state) (len state)
                 (set_pair_key (arr_get (pairs state) (len state)) k) in
    let ps2 := arr_set ps1 (len state)
                 (set_pair_value (arr_get ps1 (len state)) v) in
    ({| pairs := ps2; len := to_uint32 (len state + 1);
        capacity := capacity state |}, 0)
  else
    let i := scan_from (pairs state) k (to_int32 (len state - 1)) in
    if i <? 0 then (state, error_code ERROR_INSUFFICIENT_CAPACITY)
    else
      ({| pairs := arr_set (pairs state) i
                     (set_pair_value (arr_get (pairs state) i) v);
          len := len state; capacity := capacity state |}, 0).

Definition smt_state_fetch (state : smt_state_t) (k : bytes) : result bytes :=
  let i := scan_from (pairs state) k (to_int32 (len state - 1)) in
  if i <? 0 then Err ERROR_NOT_FOUND
  else Ok (value (arr_get (pairs state) i)).

(** [_smt_pair_cmp]: the loop over the key bytes from index [n - 1] down
    to 0, then the difference of the orders, a [uint32_t] converted to
    [int]. *)
Fixpoint pair_cmp_from (pa pb : smt_pair_t) (n : nat) : Z :=
  match n with
  | O => to_int32 (order pa - order pb)
  | S i =>
      let cmp_result := key pa !!! i - key pb !!! i in
      if cmp_result =? 0 then pair_cmp_from pa pb i else cmp_result
  end.

Definition _smt_pair_cmp (pa pb : smt_pair_t) : Z :=
  pair_cmp_from pa pb (Z.to_nat SMT_KEY_BYTES).

(** [qsort] is the C library's; any sorting algorithm may stand behind it.
    It is embedded as an insertion sort driven by the comparator: [x] goes
    in front of the first element it does not compare greater than.  On
    the pairs that [smt_state_normalize] sorts every sorting algorithm
    gives the same array ([sorted_tagged_unique]). *)
Fixpoint qsort_insert {A} (cmp : A -> A -> Z) (x : A) (l : list A) : list A :=
  match l with
  | [] => [x]
  | y :: l' => if cmp x y <=? 0 then x :: l else y :: qsort_insert cmp x l'
  end.

Definition qsort {A} (cmp : A -> A -> Z) (l : list A) : list A :=
  foldr (qsort_insert cmp) [] l.

(** The first loop of [smt_state_normalize]:
    [pairs[i].order = len - i] for [i] from 0 to [len - 1]. *)
Definition assign_orders (ps : list smt_pair_t) (n : Z) : list smt_pair_t :=
  foldl (fun ps i => arr_set ps i (set_pair_order (arr_get ps i) (to_uint32 (n - i))))
        ps (seqZ 0 n).

(** The inner loop
    [while (next < n && memcmp(pairs[item_index].key, pairs[next].key, 32) == 0) next++;]
    returning the final [next]. *)
Fixpoint skip_run (fuel : nat) (ps : list smt_pair_t) (item_index next n : Z) : Z :=
  match fuel with
  | O => next
  | S fuel' =>
      if (next <? n) &&
         (memcmp (key (arr_get ps item_index)) (key (arr_get ps next)) SMT_KEY_BYTES =? 0)
      then skip_run fuel' ps item_index (next + 1) n
      else next
  end.

(** The outer loop [while (next < n) { ... }] of the duplicate removal,
    returning the array and the final [sorted]. *)
Fixpoint dedup_loop (fuel : nat) (ps : list smt_pair_t) (sorted next n : Z)
  : list smt_pair_t * Z :=
  match fuel with
  | O => (ps, sorted)
  | S fuel' =>
      if next <? n then
        let item_index := next in
        let next1 := next + 1 in
        let next2 := skip_run (Z.to_nat (n - next1)) ps item_index next1 n in
        let ps' :=
          if negb (item_index =? sorted) then
            let ps1 := arr_set ps sorted
                         (set_pair_key (arr_get ps sorted) (key (arr_get ps item_index))) in
            arr_set ps1 sorted
              (set_pair_value (arr_get ps1 sorted) (value (arr_get ps1 item_index)))
          else ps in
        dedup_loop fuel' ps' (sorted + 1) next2 n
      else (ps, sorted)
  end.

Definition smt_state_normalize (state : smt_state_t) : smt_state_t :=
  let ps1 := assign_orders (pairs state) (len state) in
  let n := Z.to_nat (len state) in
  let ps2 := qsort _smt_pair_cmp (take n ps1) ++ drop n ps1 in
  let n32 := to_int32 (len state) in
  let '(ps3, sorted) := dedup_loop (Z.to_nat n32) ps2 0 0 n32 in
  {| pairs := ps3; len := to_uint32 sorted; capacity := capacity state |}.

(** The pairs a state holds: the first [len] slots of its array. *)
Definition live (state : smt_state_t) : list smt_pair_t :=
  take (Z.to_nat (len state)) (pairs state).

(** ** Bits of a key *)

Definition _smt_get_bit (data : bytes) (offset : Z) : bool :=
  let byte_pos := Z.quot offset 8 in
  let bit_pos := Z.rem offset 8 in
  negb (Z.land (Z.shiftr (arr_get data byte_pos) bit_pos) 1 =? 0).

Definition _smt_set_bit (data : bytes) (offset : Z) : bytes :=
  let byte_pos := Z.quot offset 8 in
  let bit_pos := Z.rem offset 8 in
  arr_set data byte_pos
    (to_uint8 (Z.lor (arr_get data byte_pos) (Z.shiftl 1 bit_pos))).

Definition _smt_clear_bit (data : bytes) (offset : Z) : bytes :=
  let byte_pos := Z.quot offset 8 in
  let bit_pos := Z.rem offset 8 in
  arr_set data byte_pos
    (Z.land (arr_get data byte_pos) (to_uint8 (Z.lnot (Z.shiftl 1 bit_pos)))).

Definition _smt_copy_bits (source : bytes) (first_kept_bit : Z) : bytes :=
  let first_byte := Z.quot first_kept_bit 8 in
  let source1 := foldl (fun s i => arr_set s i 0) source (seqZ 0 first_byte) in
  foldl _smt_clear_bit source1
        (seqZ (first_byte * 8) (first_kept_bit - first_byte * 8)).

Definition _smt_parent_path (k : bytes) (height : Z) : bytes :=
  if height =? 255 then zero_bytes 32
  else _smt_copy_bits k (height + 1).

(** The loop of [_smt_zero_value] from index [i]: 0 at the first non-zero
    byte, 1 after 32 zero bytes. *)
Fixpoint zero_value_from (v : bytes) (i n : nat) : Z :=
  match n with
  | O => 1
  | S n' => if negb (v !!! i =? 0) then 0 else zero_value_from v (S i) n'
  end.

Definition _smt_zero_value (v : bytes) : Z := zero_value_from v 0 32.

(** A C condition: non-zero is true. *)
Definition truthy (z : Z) : bool := negb (z =? 0).

(** ** The proof interpreter *)

(** The local variables of [smt_calculate_root]. *)
Record machine : Type := mk_machine {
  stack_keys : list bytes;
  stack_values : list bytes;
  proof_index : Z;
  leave_index : Z;
  stack_top : Z
}.

(** The two stack arrays are uninitialised in C; a slot is written by the
    [0x4C] case before anything reads it.  They start here as 32 slots of
    32 zero bytes, and [calculate_root_any_init] shows that any other
    content gives the same result. *)
Definition machine_init : machine :=
  {| stack_keys := replicate 32 (zero_bytes 32);
     stack_values := replicate 32 (zero_bytes 32);
     proof_index := 0; leave_index := 0; stack_top := 0 |}.

Section Interpreter.

(** [blake2b_256 m] is what [blake2b_final(&ctx, out, 32)] writes after
    [blake2b_init(&ctx, 32)] and [blake2b_update] calls whose inputs
    concatenate to [m]. *)
Variable blake2b_256 : bytes -> bytes.

Definition _smt_merge (lhs rhs : bytes) : bytes :=
  if truthy (_smt_zero_value lhs) then rhs
  else if truthy (_smt_zero_value rhs) then lhs
  else blake2b_256 (lhs ++ rhs).

Variable state : smt_state_t.
Variable proof : bytes.

Definition proof_length : Z := Z.of_nat (length proof).

(** [case 0x4C], after the opcode byte has been read. *)
Definition exec_leaf (m : machine) : result machine :=
  if stack_top m >=? _SMT_STACK_SIZE then Err ERROR_INVALID_STACK
  else if leave_index m >=? len state then Err ERROR_INVALID_PROOF
  else
    let p := arr_get (pairs state) (leave_index m) in
    let v := if truthy (_smt_zero_value (value p)) then zero_bytes 32
             else blake2b_256 (key p ++ value p) in
    Ok {| stack_keys := arr_set (stack_keys m) (stack_top m) (key p);
          stack_values := arr_set (stack_values m) (stack_top m) v;
          proof_index := proof_index m;
          leave_index := to_uint32 (leave_index m + 1);
          stack_top := to_uint32 (stack_top m + 1) |}.

(** [case 0x50], after the opcode byte has been read. *)
Definition exec_proof (m : machine) : result machine :=
  if stack_top m =? 0 then Err ERROR_INVALID_STACK
  else if to_uint32 (proof_index m + 33) >? proof_length then Err ERROR_INVALID_PROOF
  else
    match proof !! Z.to_nat (proof_index m) with
    | None => Undef
    | Some height =>
        let proof_index1 := to_uint32 (proof_index m + 1) in
        let current_proof := take 32 (drop (Z.to_nat proof_index1) proof) in
        if negb (length current_proof =? 32)%nat then Undef
        else
          let proof_index2 := to_uint32 (proof_index1 + 32) in
          let k := arr_get (stack_keys m) (stack_top m - 1) in
          let v := arr_get (stack_values m) (stack_top m - 1) in
          let v' := if _smt_get_bit k height then _smt_merge current_proof v
                    else _smt_merge v current_proof in
          Ok {| stack_keys := arr_set (stack_keys m) (stack_top m - 1)
                                (_smt_parent_path k height);
                stack_values := arr_set (stack_values m) (stack_top m - 1) v';
                proof_index := proof_index2;
                leave_index := leave_index m;
                stack_top := stack_top m |}
    end.

(** [case 0x48], after the opcode byte has been read. *)
Definition exec_merge (m : machine) : result machine :=
  if stack_top m <? 2 then Err ERROR_INVALID_STACK
  else if proof_index m >=? proof_length then Err ERROR_INVALID_PROOF
  else
    match proof !! Z.to_nat (proof_index m) with
    | None => Undef
    | Some height =>
        let proof_index1 := to_uint32 (proof_index m + 1) in
        let ia := stack_top m - 2 in
        let ib := stack_top m - 1 in
        let value_a := arr_get (stack_values m) ia in
        let value_b := arr_get (stack_values m) ib in
        let stack_top1 := stack_top m - 2 in
        let a_set := _smt_get_bit (arr_get (stack_keys m) ia) height in
        let b_set := _smt_get_bit (arr_get (stack_keys m) ib) height in
        let keys1 := arr_set (stack_keys m) ia
                       (_smt_copy_bits (arr_get (stack_keys m) ia) height) in
        let keys2 := arr_set keys1 ib (_smt_copy_bits (arr_get keys1 ib) height) in
        let key_a := arr_get keys2 ia in
        let key_b := arr_get keys2 ib in
        let sibling_key_a :=
          if negb a_set then _smt_set_bit key_a height else key_a in
        if negb (memcmp sibling_key_a key_b 32 =? 0) || Bool.eqb a_set b_set
        then Err ERROR_INVALID_SIBLING
        else
          let v := if a_set then _smt_merge value_b value_a
                   else _smt_merge value_a value_b in
          Ok {| stack_keys := keys2;
                stack_values := arr_set (stack_values m) ia v;
                proof_index := proof_index1;
                leave_index := leave_index m;
                stack_top := to_uint32 (stack_top1 + 1) |}
    end.

Definition set_proof_index (m : machine) (i : Z) : machine :=
  {| stack_keys := stack_keys m; stack_values := stack_values m;
     proof_index := i; leave_index := leave_index m;
     stack_top := stack_top m |}.

(** One turn of the [while] loop body: [switch (proof[proof_index++])]. *)
Definition exec_opcode (m : machine) : result machine :=
  match proof !! Z.to_nat (proof_index m) with
  | None => Undef
  | Some opcode =>
      let m1 := set_proof_index m (to_uint32 (proof_index m + 1)) in
      if opcode =? 0x4C then exec_leaf m1
      else if opcode =? 0x50 then exec_proof m1
      else if opcode =? 0x48 then exec_merge m1
      else Err ERROR_INVALID_PROOF
  end.

(** [while (proof_index < proof_length) { ... }].  Every turn moves
    [proof_index] forward, so [length proof] turns are enough
    ([run_loop_fuel]); [Undef] is also what is left when [fuel] runs
    out. *)
Fixpoint run_loop (fuel : nat) (m : machine) : result machine :=
  if proof_index m <? proof_length then
    match fuel with
    | O => Undef
    | S fuel' =>
        match exec_opcode m with
        | Ok m' => run_loop fuel' m'
        | Err e => Err e
        | Undef => Undef
        end
    end
  else Ok m.

(** The checks after the loop and the copy of [stack_values[0]] to
    [buffer]. *)
Definition finish (m : machine) : result bytes :=
  if negb (leave_index m =? len state) then Err ERROR_INVALID_PROOF
  else if negb (stack_top m =? 1) then Err ERROR_INVALID_STACK
  else Ok (arr_get (stack_values m) 0).

Definition smt_calculate_root : result bytes :=
  match run_loop (length proof) machine_init with
  | Ok m => finish m
  | Err e => Err e
  | Undef => Undef
  end.

Definition smt_verify (hash : bytes) : result unit :=
  match smt_calculate_root with
  | Ok buffer =>
      if negb (memcmp buffer hash 32 =? 0) then Err ERROR_INVALID_PROOF
      else Ok tt
  | Err e => Err e
  | Undef => Undef
  end.

End Interpreter.

(** [n] turns of the loop body, without the loop's test. *)
Fixpoint run_steps (blake2b_256 : bytes -> bytes) (state : smt_state_t)
  (proof : bytes) (n : nat) (m : machine) : result machine :=
  match n with
  | O => Ok m
  | S n' =>
      match exec_opcode blake2b_256 state proof m with
      | Ok m' => run_steps blake2b_256 state proof n' m'
      | Err e => Err e
      | Undef => Undef
      end
  end.

(** ** Well-formed data *)

Definition is_byteb (b : Z) : bool := (0 <=? b) && (b <? 256).

(** An array [uint8_t[32]]. *)
Definition bytes32 (a : bytes) : bool :=
  (length a =? 32)%nat && forallb is_byteb a.

Definition pair_ok (p : smt_pair_t) : bool :=
  bytes32 (key p) && bytes32 (value p).

(** A state whose array has [capacity] slots, [len] of them in use. *)
Definition state_ok (s : smt_state_t) : bool :=
  (0 <=? len s) && (len s <=? capacity s)
  && (capacity s =? Z.of_nat (length (pairs s)))
  && (capacity s <? UINT32_MOD)
  && forallb pair_ok (pairs s).

(** The local variables of [smt_calculate_root] between two turns of its
    loop: two arrays of 32 slots of 32 bytes, at most 32 frames. *)
Definition machine_ok (m : machine) : bool :=
  (length (stack_keys m) =? 32)%nat && (length (stack_values m) =? 32)%nat
  && forallb bytes32 (stack_keys m)
  && (0 <=? stack_top m) && (stack_top m <=? _SMT_STACK_SIZE)
  && (0 <=? proof_index m) && (0 <=? leave_index m).

(** Two arrays agree on their first 32 bytes. *)
Definition bytes_eq32 (a b : bytes) : Prop :=
  forall i : nat, (i < 32)%nat -> a !!! i = b !!! i.

(** ** Notions of the specification *)

(** Bit [i] of a key: bit [i mod 8] of byte [i / 8]. *)
Definition key_bit (k : bytes) (i : Z) : bool :=
  Z.testbit (arr_get k (i / 8)) (i mod 8).

(** The key ordering: the highest byte on which two keys differ decides,
    byte 31 first. *)
Definition key_lt (a b : bytes) : Prop :=
  exists i : nat, (i < 32)%nat /\ a !!! i < b !!! i /\
    forall j : nat, (i < j < 32)%nat -> a !!! j = b !!! j.

(** The value written last under key [k] in a sequence of records. *)
Fixpoint latest {A} (kf vf : A -> bytes) (l : list A) (k : bytes) : option bytes :=
  match l with
  | [] => None
  | x :: l' =>
      match latest kf vf l' k with
      | Some v => Some v
      | None => if decide (kf x = k) then Some (vf x) else None
      end
  end.

(** The value of the last pair of an array with key [k]: the pair an
    insert of [k] appends or overwrites. *)
Definition latest_write : list smt_pair_t -> bytes -> option bytes :=
  latest key value.

(** The value of the latest [insert(k, _)] in a sequence of calls. *)
Definition latest_insert : list (bytes * bytes) -> bytes -> option bytes :=
  latest fst snd.

(** A sequence of [smt_state_insert] calls. *)
Definition insert_all (s : smt_state_t) (calls : list (bytes * bytes)) : smt_state_t :=
  foldl (fun s c => (smt_state_insert s c.1 c.2).1) s calls.

(** The pairs [smt_state_normalize] sorts: the pairs in use, after the
    loop that numbers them. *)
Definition tagged (s : smt_state_t) : list smt_pair_t :=
  take (Z.to_nat (len s)) (assign_orders (pairs s) (len s)).

(** The first pair of every run of equal keys, [k] being the key of the
    pair in front of [l]. *)
Fixpoint run_heads_after (k : bytes) (l : list smt_pair_t) : list smt_pair_t :=
  match l with
  | [] => []
  | y :: l' =>
      if decide (key y = k) then run_heads_after k l'
      else y :: run_heads_after (key y) l'
  end.

Definition run_heads (l : list smt_pair_t) : list smt_pair_t :=
  match l with
  | [] => []
  | x :: l' => x :: run_heads_after (key x) l'
  end.

(** Among the numbered pairs with the key of a pair that normalisation
    keeps, the kept key and value are those of the pair numbered lowest. *)
Definition lowest_order_retained (s : smt_state_t) : Prop :=
  forall r, r ∈ live (smt_state_normalize s) ->
    exists q, q ∈ tagged s /\ key q = key r /\ value q = value r /\
      forall p, p ∈ tagged s -> key p = key q -> order q <= order p.

(** The same with the pair numbered highest. *)
Definition highest_order_retained (s : smt_state_t) : Prop :=
  forall r, r ∈ live (smt_state_normalize s) ->
    exists q, q ∈ tagged s /\ key q = key r /\ value q = value r /\
      forall p, p ∈ tagged s -> key p = key q -> order p <= order q.

(** A proof buffer: bytes, fewer than 2^32 of them. *)
Definition proof_ok (proof : bytes) : bool :=
  forallb is_byteb proof && (Z.of_nat (length proof) <? UINT32_MOD).

(** The frame that case [0x48] leaves on the stack for the frames
    [(key_a, value_a)] below and [(key_b, value_b)] above when its check
    passes with bit [height] of [key_a] clear. *)
Definition merged_frame (blake2b_256 : bytes -> bytes)
  (key_a value_a value_b : bytes) (height : Z) : bytes * bytes :=
  (_smt_parent_path key_a height, _smt_merge blake2b_256 value_a value_b).

(** A digest function to run the interpreter with: byte [i] is the sum of
    the message bytes and [i + 1], modulo 256. *)
Definition sum_digest (m : bytes) : bytes :=
  map (fun i => (foldr Z.add (i + 1) m) mod 256) (seqZ 0 32).

(** The proof bytes of opcode [0x50] with its operands. *)
Definition op_P (height : Z) (sibling : bytes) : bytes :=
  0x50 :: height :: sibling.

(** Scenario S2: one pair, all-zero key, value [0x00...01], and the proof
    [L], then [P] at the heights 0 to 255 with all-zero siblings. *)
Definition single_leaf_key : bytes := zero_bytes 32.
Definition single_leaf_value : bytes := replicate 31 0 ++ [1].
Definition single_leaf_state (o : Z) : smt_state_t :=
  {| pairs := [mk_pair single_leaf_key single_leaf_value o];
     len := 1; capacity := 1 |}.
Definition single_leaf_proof : bytes :=
  0x4C :: concat (map (fun h => op_P h (zero_bytes 32)) (seqZ 0 256)).

(** Scenario S4: the two pairs of scenario S3, [k2] being [k1] with bit 0
    set, pushed in the opposite order by [L], [L], [H 0]. *)
Definition swapped_leaves_state (k1 v1 v2 : bytes) (o1 o2 : Z) : smt_state_t :=
  {| pairs := [mk_pair (_smt_set_bit k1 0) v2 o2; mk_pair k1 v1 o1];
     len := 2; capacity := 2 |}.
Definition two_leaves_proof (rest : bytes) : bytes :=
  0x4C :: 0x4C :: 0x48 :: 0 :: rest.

(** A stack of one frame, with the all-zero key and [digest]. *)
Definition zero_key_frame (digest : bytes) (m : machine) : Prop :=
  machine_ok m = true /\ stack_top m = 1 /\
  arr_get (stack_keys m) 0 = zero_bytes 32 /\
  arr_get (stack_values m) 0 = digest.

(** Scenario S3: two pairs whose keys differ at bit 0 only. *)
Definition two_leaves_state (k1 v1 v2 : bytes) (o1 o2 : Z) : smt_state_t :=
  {| pairs := [mk_pair k1 v1 o1; mk_pair (_smt_set_bit k1 0) v2 o2];
     len := 2; capacity := 2 |}.

(** The local variables after [n] turns of the loop, when no turn fails. *)
Definition machine_after (blake2b_256 : bytes -> bytes) (state : smt_state_t)
  (proof : bytes) (n : nat) : machine :=
  match run_steps blake2b_256 state proof n machine_init with
  | Ok m => m
  | _ => machine_init
  end.

(** The key and the value of a pair, without its order. *)
Definition pair_kv (p : smt_pair_t) : bytes * bytes := (key p, value p).

(** The first [n] bytes of a key as a little-endian number: comparing two
    keys from byte [n - 1] down compares these numbers. *)
Fixpoint key_num (k : bytes) (n : nat) : Z :=
  match n with
  | O => 0
  | S i => key_num k i + k !!! i * 256 ^ Z.of_nat i
  end.

(** The position of a numbered pair in the order of [_smt_pair_cmp]: the
    key first, then the order. *)
Definition pair_rank (p : smt_pair_t) : Z :=
  key_num (key p) 32 * UINT32_MOD + order p.

(** Ascending order of ranks. *)
Definition rank_le {A} (rank : A -> Z) (a b : A) : Prop := rank a <= rank b.

(** A pair as the numbering loop leaves it in a state of fewer than 2^31
    pairs. *)
Definition numbered_ok (p : smt_pair_t) : Prop :=
  bytes32 (key p) = true /\ 0 <= order p < 2 ^ 31.

(** Ascending key numbers. *)
Definition key_num_below (a b : smt_pair_t) : Prop :=
  key_num (key a) 32 < key_num (key b) 32.

(** A state after [insert(k, v1)] and [insert(k, v2)] for the all-zero
    key [k], [v1] = 32 bytes [0x01] and [v2] = 32 bytes [0x02]. *)
Definition duplicate_key_state : smt_state_t :=
  insert_all (smt_state_init (replicate 2 (mk_pair (zero_bytes 32) (zero_bytes 32) 0)) 2)
    [(zero_bytes 32, replicate 32 1); (zero_bytes 32, replicate 32 2)].

(** [smt_calculate_root] with stack arrays that start as [keys0] and
    [values0]. *)
Definition machine_from (keys0 values0 : list bytes) : machine :=
  {| stack_keys := keys0; stack_values := values0;
     proof_index := 0; leave_index := 0; stack_top := 0 |}.

Definition calculate_root_from (blake2b_256 : bytes -> bytes)
  (state : smt_state_t) (proof : bytes) (keys0 values0 : list bytes)
  : result bytes :=
  match run_loop blake2b_256 state proof (length proof)
          (machine_from keys0 values0) with
  | Ok m => finish state m
  | Err e => Err e
  | Undef => Undef
  end.

(** Two sets of local variables that differ at most in the slots above
    [stack_top]. *)
Definition same_frames (m1 m2 : machine) : Prop :=
  proof_index m1 = proof_index m2 /\ leave_index m1 = leave_index m2 /\
  stack_top m1 = stack_top m2 /\ 0 <= stack_top m1 <= 32 /\
  length (stack_keys m1) = 32%nat /\ length (stack_keys m2) = 32%nat /\
  length (stack_values m1) = 32%nat /\ length (stack_values m2) = 32%nat /\
  forall i, 0 <= i < stack_top m1 ->
    arr_get (stack_keys m1) i = arr_get (stack_keys m2) i /\
    arr_get (stack_values m1) i = arr_get (stack_values m2) i.

Definition same_result {A} (R : A -> A -> Prop) (r1 r2 : result A) : Prop :=
  match r1, r2 with
  | Ok a, Ok b => R a b
  | Err e1, Err e2 => e1 = e2
  | Undef, Undef => True
  | _, _ => False
  end.

(** * Further definitions *)

(** ** The functions of ckb_smt.c *)

(** [smt_state_new]: the two blocks come from [malloc], which does not
    initialise them.  [block] is what the second block holds, [capacity]
    pairs of any content; both allocations are taken to succeed.  The
    state is what [smt_state_init] makes of the block. *)
Definition smt_state_new (block : list smt_pair_t) (capacity : Z) : smt_state_t :=
  smt_state_init block capacity.

(** [smt_state_len]: the field [len]. *)
Definition smt_state_len (state : smt_state_t) : Z := len state.

(** ** Notions of the further properties *)

(** [smt_state_normalize] with any sorting function in the place of
    [qsort]. *)
Definition smt_state_normalize_with
  (sort : list smt_pair_t -> list smt_pair_t) (state : smt_state_t) : smt_state_t :=
  let ps1 := assign_orders (pairs state) (len state) in
  let n := Z.to_nat (len state) in
  let ps2 := sort (take n ps1) ++ drop n ps1 in
  let n32 := to_int32 (len state) in
  let '(ps3, sorted) := dedup_loop (Z.to_nat n32) ps2 0 0 n32 in
  {| pairs := ps3; len := to_uint32 sorted; capacity := capacity state |}.

(** The comparison of two pairs seen as a relation: [a] may stand in front
    of [b] in a sorted array. *)
Definition cmp_le (a b : smt_pair_t) : Prop := _smt_pair_cmp a b <= 0.

(** The counters of [smt_calculate_root] between two turns of its loop:
    at most 32 frames, no more frames than leaves read, no more leaves read
    than the state has. *)
Definition cursors_ok (state : smt_state_t) (m : machine) : Prop :=
  0 <= stack_top m <= _SMT_STACK_SIZE /\
  stack_top m <= leave_index m <= len state.

(** Two states with the same [len] and, in their first [len] pairs, the
    same keys and values. *)
Definition same_leaves (s1 s2 : smt_state_t) : Prop :=
  len s1 = len s2 /\
  forall i : nat, (i < Z.to_nat (len s1))%nat ->
    pair_kv (pairs s1 !!! i) = pair_kv (pairs s2 !!! i).

(** The opcodes that the loop of [smt_calculate_root] executes from [m]
    on, in order: the bytes that its [switch] reads in the turns that do
    not fail. *)
Fixpoint opcodes_run (blake2b_256 : bytes -> bytes) (state : smt_state_t)
  (proof : bytes) (fuel : nat) (m : machine) : list Z :=
  if proof_index m <? proof_length proof then
    match fuel with
    | O => []
    | S fuel' =>
        match proof !! Z.to_nat (proof_index m),
              exec_opcode blake2b_256 state proof m with
        | Some opcode, Ok m' =>
            opcode :: opcodes_run blake2b_256 state proof fuel' m'
        | _, _ => []
        end
    end
  else [].

(** How often opcode [c] is among [ops]. *)
Definition count_opcode (c : Z) (ops : list Z) : Z :=
  Z.of_nat (length (filter (fun op => op = c) ops)).

(** Two keys on the stack are siblings at [height]: bit [height] is clear
    in the lower key and set in the upper key, and the keys agree above
    it. *)
Definition siblings_at (key_a key_b : bytes) (height : Z) : Prop :=
  _smt_get_bit key_a height = false /\ _smt_get_bit key_b height = true /\
  forall j, height < j < 256 -> _smt_get_bit key_a j = _smt_get_bit key_b j.

(** The digest that case [0x4C] pushes for a pair. *)
Definition leaf_digest (blake2b_256 : bytes -> bytes) (p : smt_pair_t) : bytes :=
  if truthy (_smt_zero_value (value p)) then zero_bytes 32
  else blake2b_256 (key p ++ value p).

(** A state that holds the two pairs [p1] and [p2], in this order. *)
Definition two_pairs_state (p1 p2 : smt_pair_t) : smt_state_t :=
  {| pairs := [p1; p2]; len := 2; capacity := 2 |}.

(** A state that holds the pair [p] only. *)
Definition one_pair_state (p : smt_pair_t) : smt_state_t :=
  {| pairs := [p]; len := 1; capacity := 1 |}.


(** Two keys, [low_key] below [high_key] in the byte-31-first order
    although its byte 0 is the larger one. *)
Definition low_key : bytes := 5 :: replicate 31 0.
Definition high_key : bytes := replicate 31 0 ++ [1].

(** Five inserts into a state of capacity 3: [high_key], [low_key] and
    [low_key] again fill the state; [high_key] once more overwrites; a
    third key is refused. *)
Definition mixed_calls : list (bytes * bytes) :=
  [(high_key, replicate 32 1); (low_key, replicate 32 2);
   (low_key, replicate 32 3); (high_key, replicate 32 4);
   (replicate 32 9, replicate 32 5)].

Definition mixed_state : smt_state_t :=
  insert_all
    (smt_state_init (replicate 3 (mk_pair (zero_bytes 32) (zero_bytes 32) 0)) 3)
    mixed_calls.

(* ================================================================= *)
(** * Properties *)

(** ** Arrays of bytes *)

Lemma memcmp_from_zero (a b : bytes) (n i : nat) :
  memcmp_from a b i n = 0 <->
  forall j : nat, (i <= j < i + n)%nat -> a !!! j = b !!! j.
Proof.
  revert i; induction n as [|n IH]; intros i; simpl.
  - split; [intros _ j Hj; lia | reflexivity].
  - destruct (Z.eqb_spec (a !!! i - b !!! i) 0) as [Hd|Hd].
    + rewrite IH. split; intros Hall j Hj.
      * destruct (decide (j = i)) as [->|Hne]; [lia | apply Hall; lia].
      * apply Hall; lia.
    + split; [intros Hz; contradiction |].
      intros Hall. exfalso. apply Hd. rewrite (Hall i); lia.
Qed.

Lemma memcmp_32_zero (a b : bytes) : memcmp a b 32 = 0 <-> bytes_eq32 a b.
Proof.
  unfold memcmp, bytes_eq32. rewrite memcmp_from_zero.
  change (Z.to_nat 32) with 32%nat.
  split; intros Hall j Hj; apply Hall; lia.
Qed.

Lemma bytes_eq32_eq (a b : bytes) :
  length a = 32%nat -> length b = 32%nat -> bytes_eq32 a b <-> a = b.
Proof.
  intros Ha Hb. split; [|intros ->; intros i _; reflexivity].
  intros Hall. apply (list_eq_same_length a b 32); [done..|].
  intros i x y Hi Hx Hy.
  rewrite <- (list_lookup_total_correct a i x Hx).
  rewrite <- (list_lookup_total_correct b i y Hy).
  apply Hall, Hi.
Qed.

Lemma memcmp_32_eq (a b : bytes) :
  length a = 32%nat -> length b = 32%nat -> memcmp a b 32 = 0 <-> a = b.
Proof. intros Ha Hb. rewrite memcmp_32_zero. apply bytes_eq32_eq; done. Qed.

Lemma memcmp_refl (a : bytes) : memcmp a a 32 = 0.
Proof. apply memcmp_32_zero. intros i _. reflexivity. Qed.

Lemma bytes32_length (a : bytes) : bytes32 a = true -> length a = 32%nat.
Proof.
  unfold bytes32. intros H. apply andb_true_iff in H as [H _].
  apply Nat.eqb_eq, H.
Qed.

Lemma bytes32_byte (a : bytes) (i : nat) :
  bytes32 a = true -> (i < 32)%nat -> 0 <= a !!! i < 256.
Proof.
  intros H Hi. pose proof (bytes32_length a H) as Hl.
  unfold bytes32 in H. apply andb_true_iff in H as [_ H].
  rewrite forallb_forall in H.
  assert (In (a !!! i) a) as Hin.
  { apply list_elem_of_In, list_elem_of_lookup_total_2. lia. }
  apply H in Hin. unfold is_byteb in Hin. lia.
Qed.

Lemma bytes32_intro (a : bytes) :
  length a = 32%nat -> (forall b, b ∈ a -> 0 <= b < 256) -> bytes32 a = true.
Proof.
  intros Hl Hb. unfold bytes32. apply andb_true_iff. split.
  - apply Nat.eqb_eq, Hl.
  - apply forallb_forall. intros b Hin. apply list_elem_of_In, Hb in Hin.
    unfold is_byteb. lia.
Qed.

Lemma length_zero_bytes (n : Z) : length (zero_bytes n) = Z.to_nat n.
Proof. apply length_replicate. Qed.

Lemma lookup_total_zero_bytes (n : Z) (i : nat) :
  (i < Z.to_nat n)%nat -> zero_bytes n !!! i = 0.
Proof. intros Hi. apply lookup_total_replicate_2, Hi. Qed.

(** ** [_smt_zero_value] and [_smt_merge] *)

Lemma zero_value_from_cases (v : bytes) (n i : nat) :
  (zero_value_from v i n = 1 /\
   forall j : nat, (i <= j < i + n)%nat -> v !!! j = 0) \/
  (zero_value_from v i n = 0 /\
   exists j : nat, (i <= j < i + n)%nat /\ v !!! j <> 0).
Proof.
  revert i; induction n as [|n IH]; intros i; simpl.
  - left. split; [reflexivity | intros j Hj; lia].
  - destruct (Z.eqb_spec (v !!! i) 0) as [Hz|Hz]; simpl.
    + destruct (IH (S i)) as [[-> Hall]|[-> (j & Hj & Hne)]].
      * left. split; [reflexivity|]. intros j Hj.
        destruct (decide (j = i)) as [->|Hne]; [done | apply Hall; lia].
      * right. split; [reflexivity|]. exists j. split; [lia | done].
    + right. split; [reflexivity|]. exists i. split; [lia | done].
Qed.

Lemma zero_value_true (v : bytes) :
  length v = 32%nat -> truthy (_smt_zero_value v) = true <-> v = zero_bytes 32.
Proof.
  intros Hl. unfold truthy, _smt_zero_value.
  destruct (zero_value_from_cases v 32 0) as [[-> Hall]|[-> (j & Hj & Hne)]]; simpl.
  - split; [intros _ | done].
    apply bytes_eq32_eq; [done | apply length_zero_bytes |].
    intros i Hi. rewrite lookup_total_zero_bytes by (simpl; lia). apply Hall. lia.
  - split; [done|]. intros ->. exfalso. apply Hne, lookup_total_zero_bytes.
    simpl; lia.
Qed.

Lemma zero_value_zero_bytes : truthy (_smt_zero_value (zero_bytes 32)) = true.
Proof. reflexivity. Qed.

Lemma merge_zero_l (blake2b_256 : bytes -> bytes) (x : bytes) :
  _smt_merge blake2b_256 (zero_bytes 32) x = x.
Proof. reflexivity. Qed.

Lemma merge_zero_r (blake2b_256 : bytes -> bytes) (x : bytes) :
  length x = 32%nat -> _smt_merge blake2b_256 x (zero_bytes 32) = x.
Proof.
  intros Hl. unfold _smt_merge.
  destruct (truthy (_smt_zero_value x)) eqn:Hx.
  - symmetry. apply zero_value_true; done.
  - reflexivity.
Qed.

Lemma merge_nonzero (blake2b_256 : bytes -> bytes) (x y : bytes) :
  length x = 32%nat -> length y = 32%nat ->
  x <> zero_bytes 32 -> y <> zero_bytes 32 ->
  _smt_merge blake2b_256 x y = blake2b_256 (x ++ y).
Proof.
  intros Hx Hy Hnx Hny. unfold _smt_merge.
  destruct (truthy (_smt_zero_value x)) eqn:Ex.
  { exfalso. apply Hnx, zero_value_true; done. }
  destruct (truthy (_smt_zero_value y)) eqn:Ey.
  { exfalso. apply Hny, zero_value_true; done. }
  reflexivity.
Qed.

(** C4 (merge identity): for 32-byte digests [x] and [y], merging the
    all-zero digest with [x] on either side gives [x], and merging two
    digests that are both non-zero gives the BLAKE2b-256 digest of
    [x ++ y]. *)
Theorem merge_identity (blake2b_256 : bytes -> bytes) (x y : bytes) :
  length x = 32%nat -> length y = 32%nat ->
  _smt_merge blake2b_256 (zero_bytes 32) x = x /\
  _smt_merge blake2b_256 x (zero_bytes 32) = x /\
  (x <> zero_bytes 32 -> y <> zero_bytes 32 ->
   _smt_merge blake2b_256 x y = blake2b_256 (x ++ y)).
Proof.
  intros Hx Hy. split; [apply merge_zero_l|].
  split; [apply merge_zero_r, Hx|].
  intros Hnx Hny. apply merge_nonzero; assumption.
Qed.

Lemma merge_identity_witness :
  let x := replicate 31 0 ++ [7] in
  let y := 9 :: replicate 31 0 in
  (length x = 32%nat /\ length y = 32%nat) /\
  _smt_merge sum_digest (zero_bytes 32) x = x /\
  _smt_merge sum_digest x (zero_bytes 32) = x /\
  (x <> zero_bytes 32 -> y <> zero_bytes 32 ->
   _smt_merge sum_digest x y = sum_digest (x ++ y)).
Proof.
  intros x y. split; [split; reflexivity|].
  apply (merge_identity sum_digest x y); reflexivity.
Defined.

(** C9 (verify): [smt_verify] returns 0 exactly when [smt_calculate_root]
    returns 0 with a root that agrees with the expected root on its 32
    bytes; an error of [smt_calculate_root] is returned unchanged; a root
    that differs from the expected one, be it in one byte, gives
    [ERROR_INVALID_PROOF]. *)
Theorem verify_spec (blake2b_256 : bytes -> bytes) (state : smt_state_t)
  (proof hash : bytes) :
  let computed := smt_calculate_root blake2b_256 state proof in
  let verified := smt_verify blake2b_256 state proof hash in
  (ret_code verified = Some 0 <->
   exists root, computed = Ok root /\ bytes_eq32 root hash) /\
  (forall e, computed = Err e -> verified = Err e) /\
  (forall root, computed = Ok root -> ~ bytes_eq32 root hash ->
     verified = Err ERROR_INVALID_PROOF) /\
  (forall root (i : nat), computed = Ok root -> (i < 32)%nat ->
     root !!! i <> hash !!! i -> verified = Err ERROR_INVALID_PROOF).
Proof.
  intros computed verified. subst verified. unfold smt_verify.
  fold computed. destruct computed as [root|e|].
  - destruct (Z.eqb_spec (memcmp root hash 32) 0) as [Heq|Hne]; simpl.
    + apply memcmp_32_zero in Heq. repeat split.
      * intros _. exists root. split; [reflexivity | exact Heq].
      * discriminate.
      * intros r [= <-] Hn. contradiction.
      * intros r i [= <-] Hi Hn. exfalso. apply Hn, Heq, Hi.
    + repeat split; try reflexivity; try discriminate.
      intros (r & [= <-] & Heq). exfalso. apply Hne, memcmp_32_zero, Heq.
  - repeat split; try discriminate.
    + destruct e; discriminate.
    + intros (r & Hr & _). discriminate.
    + intros e' [= <-]. reflexivity.
  - repeat split; try discriminate.
    intros (r & Hr & _). discriminate.
Qed.

Lemma verify_spec_witness :
  let st := single_leaf_state 0 in
  let root := sum_digest (single_leaf_key ++ single_leaf_value) in
  smt_calculate_root sum_digest st [0x4C] = Ok root /\
  smt_verify sum_digest st [0x4C] root = Ok tt /\
  smt_verify sum_digest st [0x4C] (arr_set root 5 0) = Err ERROR_INVALID_PROOF /\
  smt_verify sum_digest st [0x4C; 0x4C] root = Err ERROR_INVALID_PROOF.
Proof.
  intros st root.
  assert (smt_calculate_root sum_digest st [0x4C] = Ok root) as Hroot
    by reflexivity.
  split; [exact Hroot|]. split; [reflexivity|]. split.
  - destruct (verify_spec sum_digest st [0x4C] (arr_set root 5 0))
      as (_ & _ & _ & Hbyte).
    apply (Hbyte root 5%nat Hroot); [lia|]. vm_compute. discriminate.
  - destruct (verify_spec sum_digest st [0x4C; 0x4C] root) as (_ & Herr & _).
    apply Herr. reflexivity.
Defined.

(** C3 (end of the proof): when the loop of [smt_calculate_root] has run
    over the whole proof without an error, the call returns
    [ERROR_INVALID_PROOF] if the leaf cursor differs from [state.len],
    else [ERROR_INVALID_STACK] if the stack depth differs from 1, else 0
    with [stack_values[0]] as the root.  With no pair and an empty proof it
    returns [ERROR_INVALID_STACK]. *)
Theorem calculate_root_end (blake2b_256 : bytes -> bytes) (state : smt_state_t)
  (proof : bytes) :
  (forall m,
     run_loop blake2b_256 state proof (length proof) machine_init = Ok m ->
     proof_length proof <= proof_index m /\
     (leave_index m <> len state ->
      smt_calculate_root blake2b_256 state proof = Err ERROR_INVALID_PROOF) /\
     (leave_index m = len state -> stack_top m <> 1 ->
      smt_calculate_root blake2b_256 state proof = Err ERROR_INVALID_STACK) /\
     (leave_index m = len state -> stack_top m = 1 ->
      smt_calculate_root blake2b_256 state proof
      = Ok (arr_get (stack_values m) 0))) /\
  (forall st, len st = 0 ->
     smt_calculate_root blake2b_256 st [] = Err ERROR_INVALID_STACK).
Proof.
  split.
  - intros m Hrun. split.
    + clear -Hrun. revert Hrun. generalize machine_init.
      induction (length proof) as [|fuel IH]; intros m0; simpl.
      * destruct (Z.ltb_spec (proof_index m0) (proof_length proof)); [done|].
        intros [= <-]. lia.
      * destruct (Z.ltb_spec (proof_index m0) (proof_length proof)).
        -- destruct (exec_opcode _ _ _ m0) as [m1| |]; [apply IH | done..].
        -- intros [= <-]. lia.
    + unfold smt_calculate_root, finish. rewrite Hrun.
      destruct (Z.eqb_spec (leave_index m) (len state)) as [Hl|Hl];
        destruct (Z.eqb_spec (stack_top m) 1) as [Ht|Ht]; simpl;
        repeat split; intros; try reflexivity; contradiction.
  - intros st Hlen. unfold smt_calculate_root, finish. simpl.
    rewrite Hlen. reflexivity.
Qed.

Lemma calculate_root_end_witness :
  let st := single_leaf_state 0 in
  let m := machine_after sum_digest st [0x4C] 1 in
  run_loop sum_digest st [0x4C] 1 machine_init = Ok m /\
  smt_calculate_root sum_digest st [0x4C] = Ok (arr_get (stack_values m) 0) /\
  smt_calculate_root sum_digest st [] = Err ERROR_INVALID_PROOF /\
  smt_calculate_root sum_digest (smt_state_init (pairs st) 1) [] = Err ERROR_INVALID_STACK.
Proof.
  intros st m.
  assert (run_loop sum_digest st [0x4C] 1 machine_init = Ok m) as Hrun
    by reflexivity.
  split; [exact Hrun|].
  destruct (calculate_root_end sum_digest st [0x4C]) as [Hend Hempty].
  destruct (Hend m Hrun) as (_ & _ & _ & Hok). split.
  - apply Hok; reflexivity.
  - split; [|apply Hempty; reflexivity].
    destruct (calculate_root_end sum_digest st []) as [Hend' _].
    destruct (Hend' machine_init eq_refl) as (_ & Hleaf & _).
    apply Hleaf. discriminate.
Defined.

(** ** The loop of the interpreter *)

Section Loop.

Variable blake2b_256 : bytes -> bytes.
Variable state : smt_state_t.
Variable proof : bytes.
Hypothesis proof_fits : proof_length proof < UINT32_MOD.

Lemma lookup_proof_lt (i : Z) (b : Z) :
  0 <= i -> proof !! Z.to_nat i = Some b -> i < proof_length proof.
Proof.
  intros Hi Hlk. apply lookup_lt_Some in Hlk. unfold proof_length. lia.
Qed.

Lemma to_uint32_small (z : Z) : 0 <= z < UINT32_MOD -> to_uint32 z = z.
Proof. intros Hz. unfold to_uint32. apply Z.mod_small, Hz. Qed.

(** A turn of the loop that does not fail moves [proof_index] forward and
    keeps it within the proof. *)
Lemma exec_opcode_progress (m m' : machine) :
  0 <= proof_index m ->
  exec_opcode blake2b_256 state proof m = Ok m' ->
  proof_index m < proof_index m' <= proof_length proof.
Proof.
  intros Hpi. unfold exec_opcode.
  destruct (proof !! Z.to_nat (proof_index m)) as [opcode|] eqn:Hop; [|done].
  pose proof (lookup_proof_lt _ _ Hpi Hop) as Hlt.
  assert (to_uint32 (proof_index m + 1) = proof_index m + 1) as Hpi1
    by (apply to_uint32_small; lia).
  rewrite Hpi1.
  destruct (opcode =? 76); [|destruct (opcode =? 80); [|destruct (opcode =? 72)]].
  - unfold exec_leaf; simpl.
    destruct (stack_top m >=? _SMT_STACK_SIZE); [done|].
    destruct (leave_index m >=? len state); [done|].
    intros [= <-]; simpl. lia.
  - unfold exec_proof; simpl.
    destruct (stack_top m =? 0); [done|].
    destruct (to_uint32 (proof_index m + 1 + 33) >? proof_length proof); [done|].
    destruct (proof !! Z.to_nat (proof_index m + 1)) as [height|] eqn:Hh; [|done].
    pose proof (lookup_proof_lt (proof_index m + 1) height ltac:(lia) Hh) as Hlt1.
    assert (to_uint32 (proof_index m + 1 + 1) = proof_index m + 2) as ->
      by (rewrite to_uint32_small; lia).
    destruct (Nat.eqb_spec
                (length (take 32 (drop (Z.to_nat (proof_index m + 2)) proof))) 32)
      as [Hcur|Hcur]; simpl; [|done].
    rewrite length_take, length_drop in Hcur.
    intros [= <-]; simpl. unfold proof_length in *.
    rewrite to_uint32_small; lia.
  - unfold exec_merge; simpl.
    destruct (stack_top m <? 2); [done|].
    destruct (Z.geb_spec (proof_index m + 1) (proof_length proof)); [done|].
    destruct (proof !! Z.to_nat (proof_index m + 1)) as [height|]; [|done].
    match goal with |- context [if ?c then _ else _] => destruct c end; [done|].
    intros [= <-]; simpl. rewrite to_uint32_small; lia.
  - done.
Qed.

(** [length proof] turns are enough: more fuel changes nothing. *)
Lemma run_loop_fuel (fuel extra : nat) (m : machine) :
  0 <= proof_index m ->
  proof_length proof - proof_index m <= Z.of_nat fuel ->
  run_loop blake2b_256 state proof (fuel + extra) m
  = run_loop blake2b_256 state proof fuel m.
Proof.
  revert m; induction fuel as [|fuel IH]; intros m Hpi Hfuel.
  - destruct extra; simpl;
      destruct (Z.ltb_spec (proof_index m) (proof_length proof)); try lia; done.
  - simpl. destruct (proof_index m <? proof_length proof); [|done].
    destruct (exec_opcode blake2b_256 state proof m) as [m'| |] eqn:Hex; [|done..].
    pose proof (exec_opcode_progress m m' Hpi Hex). apply IH; lia.
Qed.

(** The loop follows the turns of [run_steps]. *)
Lemma run_loop_steps (n fuel : nat) (m m' : machine) :
  0 <= proof_index m ->
  run_steps blake2b_256 state proof n m = Ok m' ->
  run_loop blake2b_256 state proof (n + fuel) m
  = run_loop blake2b_256 state proof fuel m' /\
  proof_index m + Z.of_nat n <= proof_index m' /\
  (n <> O -> proof_index m' <= proof_length proof).
Proof.
  revert m; induction n as [|n IH]; intros m Hpi; simpl.
  - intros [= <-]. split; [done|]. split; [lia | done].
  - destruct (exec_opcode blake2b_256 state proof m) as [m1| |] eqn:Hex; [|done..].
    intros Hrun. pose proof (exec_opcode_progress m m1 Hpi Hex) as Hp.
    destruct (Z.ltb_spec (proof_index m) (proof_length proof)); [|lia].
    destruct (IH m1 ltac:(lia) Hrun) as (-> & Hle & Hub).
    split; [done|]. split; [lia|]. intros _.
    destruct n; [|apply Hub; done].
    simpl in Hrun. injection Hrun as <-. lia.
Qed.

(** An error in a turn that the interpreter reaches is what
    [smt_calculate_root] returns. *)
Lemma calculate_root_error (n : nat) (m : machine) (e : SMTErrorCode) :
  run_steps blake2b_256 state proof n machine_init = Ok m ->
  exec_opcode blake2b_256 state proof m = Err e ->
  smt_calculate_root blake2b_256 state proof = Err e.
Proof.
  intros Hrun Hex.
  assert (proof_index m < proof_length proof /\ Z.of_nat n <= proof_index m)
    as [Hlt Hle].
  { destruct (run_loop_steps n 0 machine_init m ltac:(simpl; lia) Hrun)
      as (_ & Hle & _). simpl in Hle.
    split; [|lia]. unfold exec_opcode in Hex.
    destruct (proof !! Z.to_nat (proof_index m)) eqn:Hop; [|done].
    eapply lookup_proof_lt; [|exact Hop]. lia. }
  unfold smt_calculate_root.
  replace (length proof) with (n + S (length proof - n - 1))%nat
    by (unfold proof_length in *; lia).
  destruct (run_loop_steps n (S (length proof - n - 1)) machine_init m
              ltac:(simpl; lia) Hrun) as (-> & _).
  simpl. destruct (Z.ltb_spec (proof_index m) (proof_length proof)); [|lia].
  rewrite Hex. reflexivity.
Qed.

End Loop.

(** ** Reading and writing arrays *)

Lemma length_arr_set {A} (l : list A) (i : Z) (x : A) :
  length (arr_set l i x) = length l.
Proof. apply length_insert. Qed.

Lemma arr_get_set_eq {A} `{Inhabited A} (l : list A) (i : Z) (x : A) :
  0 <= i < Z.of_nat (length l) -> arr_get (arr_set l i x) i = x.
Proof.
  intros Hi. unfold arr_get, arr_set.
  apply list_lookup_total_insert_eq. lia.
Qed.

Lemma arr_get_set_ne {A} `{Inhabited A} (l : list A) (i j : Z) (x : A) :
  0 <= i -> 0 <= j -> i <> j -> arr_get (arr_set l i x) j = arr_get l j.
Proof.
  intros Hi Hj Hne. unfold arr_get, arr_set.
  apply list_lookup_total_insert_ne. lia.
Qed.

Lemma arr_set_get_id {A} `{Inhabited A} (l : list A) (i : Z) :
  arr_set l i (arr_get l i) = l.
Proof.
  unfold arr_get, arr_set. apply list_insert_id'.
  intros Hi. apply list_lookup_lookup_total_lt, Hi.
Qed.

(** ** Bits of bytes and of keys *)

Lemma get_bit_key_bit (d : bytes) (i : Z) :
  0 <= i -> _smt_get_bit d i = key_bit d i.
Proof.
  intros Hi. unfold _smt_get_bit, key_bit.
  rewrite Z.quot_div_nonneg, Z.rem_mod_nonneg by lia.
  set (x := arr_get d (i / 8)). set (p := i mod 8).
  assert (0 <= p < 8) as Hp by (subst p; apply Z.mod_pos_bound; lia).
  change 1 with (Z.ones 1). rewrite Z.land_ones by lia.
  change (2 ^ 1) with 2.
  rewrite <- (Z.add_0_l p) at 2. rewrite <- Z.shiftr_spec by lia.
  rewrite Z.bit0_odd, Zodd_mod.
  destruct (Z.eqb_spec (Z.shiftr x p mod 2) 0) as [->|Hne]; [reflexivity|].
  pose proof (Z.mod_pos_bound (Z.shiftr x p) 2 ltac:(lia)).
  replace (Z.shiftr x p mod 2) with 1 by lia. reflexivity.
Qed.

Lemma testbit_set (x p q : Z) :
  0 <= p < 8 -> 0 <= q < 8 ->
  Z.testbit (to_uint8 (Z.lor x (Z.shiftl 1 p))) q = Z.testbit x q || (p =? q).
Proof.
  intros Hp Hq. unfold to_uint8. change 256 with (2 ^ 8).
  rewrite Z.mod_pow2_bits_low by lia.
  rewrite Z.lor_spec, Z.shiftl_1_l, Z.pow2_bits_eqb by lia. reflexivity.
Qed.

Lemma testbit_clear (x p q : Z) :
  0 <= p < 8 -> 0 <= q < 8 ->
  Z.testbit (Z.land x (to_uint8 (Z.lnot (Z.shiftl 1 p)))) q
  = Z.testbit x q && negb (p =? q).
Proof.
  intros Hp Hq. unfold to_uint8. change 256 with (2 ^ 8).
  rewrite Z.land_spec, Z.mod_pow2_bits_low by lia.
  rewrite Z.lnot_spec, Z.shiftl_1_l, Z.pow2_bits_eqb by lia. reflexivity.
Qed.

Lemma clear_byte_range (x p : Z) :
  0 <= Z.land x (to_uint8 (Z.lnot (Z.shiftl 1 p))) < 256.
Proof.
  unfold to_uint8. change 256 with (2 ^ 8).
  rewrite <- (Z.land_ones (Z.lnot _)) by lia.
  rewrite Z.land_assoc, Z.land_ones by lia.
  apply Z.mod_pos_bound. lia.
Qed.

Lemma byte_bits_eq (x y : Z) :
  0 <= x < 256 -> 0 <= y < 256 ->
  (forall q, 0 <= q < 8 -> Z.testbit x q = Z.testbit y q) -> x = y.
Proof.
  intros Hx Hy Hbits. apply Z.bits_inj'. intros q Hq.
  destruct (Z.lt_ge_cases q 8) as [Hlt|Hge]; [apply Hbits; lia|].
  rewrite <- (Z.mod_small x (2 ^ 8)), <- (Z.mod_small y (2 ^ 8)) by lia.
  rewrite !Z.mod_pow2_bits_high by lia. reflexivity.
Qed.

Lemma bit_index (i : Z) :
  0 <= i < 256 -> 0 <= i / 8 < 32 /\ 0 <= i mod 8 < 8 /\ i = 8 * (i / 8) + i mod 8.
Proof.
  intros Hi. pose proof (Z.div_mod i 8 ltac:(lia)).
  pose proof (Z.mod_pos_bound i 8 ltac:(lia)). lia.
Qed.

Lemma length_set_bit (d : bytes) (j : Z) : length (_smt_set_bit d j) = length d.
Proof. apply length_arr_set. Qed.

Lemma length_clear_bit (d : bytes) (j : Z) : length (_smt_clear_bit d j) = length d.
Proof. apply length_arr_set. Qed.

Lemma key_bit_set_bit (d : bytes) (i j : Z) :
  length d = 32%nat -> 0 <= i < 256 -> 0 <= j < 256 ->
  key_bit (_smt_set_bit d j) i = key_bit d i || (j =? i).
Proof.
  intros Hl Hi Hj. unfold _smt_set_bit, key_bit.
  rewrite Z.quot_div_nonneg, Z.rem_mod_nonneg by lia.
  destruct (bit_index i Hi) as (Hib & Hiq & Hie).
  destruct (bit_index j Hj) as (Hjb & Hjq & Hje).
  destruct (decide (j / 8 = i / 8)) as [Hb|Hb].
  - rewrite Hb, arr_get_set_eq by lia. rewrite testbit_set by lia.
    f_equal. destruct (Z.eqb_spec (j mod 8) (i mod 8)), (Z.eqb_spec j i); lia.
  - rewrite arr_get_set_ne by lia.
    destruct (Z.eqb_spec j i) as [->|]; [done|]. rewrite orb_false_r. reflexivity.
Qed.

Lemma key_bit_clear_bit (d : bytes) (i j : Z) :
  length d = 32%nat -> 0 <= i < 256 -> 0 <= j < 256 ->
  key_bit (_smt_clear_bit d j) i = key_bit d i && negb (j =? i).
Proof.
  intros Hl Hi Hj. unfold _smt_clear_bit, key_bit.
  rewrite Z.quot_div_nonneg, Z.rem_mod_nonneg by lia.
  destruct (bit_index i Hi) as (Hib & Hiq & Hie).
  destruct (bit_index j Hj) as (Hjb & Hjq & Hje).
  destruct (decide (j / 8 = i / 8)) as [Hb|Hb].
  - rewrite Hb, arr_get_set_eq by lia. rewrite testbit_clear by lia.
    f_equal. destruct (Z.eqb_spec (j mod 8) (i mod 8)), (Z.eqb_spec j i); lia.
  - rewrite arr_get_set_ne by lia.
    destruct (Z.eqb_spec j i) as [->|]; [done|]. rewrite andb_true_r. reflexivity.
Qed.

Lemma bytes32_iff (a : bytes) :
  bytes32 a = true <-> length a = 32%nat /\ Forall is_byte a.
Proof.
  split.
  - intros H. split; [apply bytes32_length, H|].
    apply Forall_forall. intros b Hb.
    apply list_elem_of_lookup_total_1 in Hb as (i & Hi & <-).
    rewrite (bytes32_length a H) in Hi. apply bytes32_byte; done.
  - intros [Hl Hb]. apply bytes32_intro; [done|].
    intros b Hin. rewrite Forall_forall in Hb. apply Hb, Hin.
Qed.

Lemma bytes32_arr_set (a : bytes) (i x : Z) :
  bytes32 a = true -> 0 <= x < 256 -> bytes32 (arr_set a i x) = true.
Proof.
  rewrite !bytes32_iff. intros [Hl Hb] Hx. split.
  - rewrite length_arr_set. exact Hl.
  - apply Forall_insert; done.
Qed.

Lemma bytes32_zero_bytes : bytes32 (zero_bytes 32) = true.
Proof. reflexivity. Qed.

Lemma foldl_invariant {A B} (P : A -> Prop) (f : A -> B -> A) (l : list B) (a : A) :
  (forall a b, P a -> P (f a b)) -> P a -> P (foldl f a l).
Proof.
  intros Hf. revert a. induction l as [|b l IH]; intros a Ha; simpl; [done|].
  apply IH, Hf, Ha.
Qed.

Lemma bytes32_clear_bit (d : bytes) (j : Z) :
  bytes32 d = true -> bytes32 (_smt_clear_bit d j) = true.
Proof. intros Hd. apply bytes32_arr_set; [done | apply clear_byte_range]. Qed.

Lemma bytes32_copy_bits (d : bytes) (n : Z) :
  bytes32 d = true -> bytes32 (_smt_copy_bits d n) = true.
Proof.
  intros Hd. unfold _smt_copy_bits.
  apply (foldl_invariant (fun s => bytes32 s = true)).
  - intros a b Ha. apply bytes32_clear_bit, Ha.
  - apply (foldl_invariant (fun s => bytes32 s = true)); [|done].
    intros a b Ha. apply bytes32_arr_set; [done | lia].
Qed.

Lemma bytes32_parent_path (d : bytes) (h : Z) :
  bytes32 d = true -> bytes32 (_smt_parent_path d h) = true.
Proof.
  intros Hd. unfold _smt_parent_path.
  destruct (h =? 255); [reflexivity | apply bytes32_copy_bits, Hd].
Qed.

(** Zeroing the bytes below index [fb]. *)
Lemma key_bit_zero_prefix (d : bytes) (fb : nat) (i : Z) :
  length d = 32%nat -> (fb <= 32)%nat -> 0 <= i < 256 ->
  key_bit (foldl (fun s j => arr_set s j 0) d (seqZ 0 (Z.of_nat fb))) i
  = key_bit d i && (Z.of_nat fb <=? i / 8).
Proof.
  intros Hl Hfb Hi. destruct (bit_index i Hi) as (Hib & Hiq & Hie).
  induction fb as [|fb IH].
  - rewrite seqZ_nil by lia. simpl foldl.
    destruct (Z.leb_spec (Z.of_nat 0) (i / 8)); [|lia]. rewrite andb_true_r. done.
  - rewrite seqZ_S, foldl_app. simpl foldl. rewrite Z.add_0_l.
    set (s := foldl _ d _) in *.
    assert (length s = 32%nat) as Hs.
    { subst s. apply (foldl_invariant (fun s => length s = 32%nat)); [|done].
      intros a b Ha. rewrite length_arr_set. exact Ha. }
    unfold key_bit in *.
    destruct (decide (Z.of_nat fb = i / 8)) as [Hb|Hb].
    + rewrite Hb, arr_get_set_eq by lia. rewrite Z.bits_0.
      destruct (Z.leb_spec (Z.of_nat (S fb)) (i / 8)); [lia|].
      rewrite andb_false_r. reflexivity.
    + rewrite arr_get_set_ne by lia. rewrite IH by lia. f_equal.
      destruct (Z.leb_spec (Z.of_nat fb) (i / 8)),
               (Z.leb_spec (Z.of_nat (S fb)) (i / 8)); lia.
Qed.

(** Clearing the bits [a], ..., [a + c - 1]. *)
Lemma key_bit_clear_range (d : bytes) (a : Z) (c : nat) (i : Z) :
  length d = 32%nat -> 0 <= a -> a + Z.of_nat c <= 256 -> 0 <= i < 256 ->
  key_bit (foldl _smt_clear_bit d (seqZ a (Z.of_nat c))) i
  = key_bit d i && negb ((a <=? i) && (i <? a + Z.of_nat c)).
Proof.
  intros Hl Ha Hc Hi. induction c as [|c IH].
  - rewrite seqZ_nil by lia. simpl foldl.
    destruct (Z.leb_spec a i), (Z.ltb_spec i (a + Z.of_nat 0)); try lia;
      simpl; rewrite andb_true_r; reflexivity.
  - rewrite seqZ_S, foldl_app. simpl foldl.
    set (s := foldl _ d _) in *.
    assert (length s = 32%nat) as Hs.
    { subst s. apply (foldl_invariant (fun s => length s = 32%nat)); [|done].
      intros x b Hx. rewrite length_clear_bit. exact Hx. }
    rewrite key_bit_clear_bit by lia. rewrite IH by lia.
    rewrite <- andb_assoc. f_equal.
    destruct (Z.leb_spec a i), (Z.ltb_spec i (a + Z.of_nat c)),
      (Z.ltb_spec i (a + Z.of_nat (S c))), (Z.eqb_spec (a + Z.of_nat c) i);
      simpl; try reflexivity; lia.
Qed.

Lemma length_copy_bits (d : bytes) (n : Z) :
  length (_smt_copy_bits d n) = length d.
Proof.
  unfold _smt_copy_bits.
  apply (foldl_invariant (fun s => length s = length d)).
  - intros a b Ha. rewrite length_clear_bit. exact Ha.
  - apply (foldl_invariant (fun s => length s = length d)); [|done].
    intros a b Ha. rewrite length_arr_set. exact Ha.
Qed.

(** [_smt_copy_bits] keeps the bits from [n] on and clears those below. *)
Lemma key_bit_copy_bits (d : bytes) (n i : Z) :
  length d = 32%nat -> 0 <= n <= 256 -> 0 <= i < 256 ->
  key_bit (_smt_copy_bits d n) i = key_bit d i && (n <=? i).
Proof.
  intros Hl Hn Hi. unfold _smt_copy_bits.
  rewrite Z.quot_div_nonneg by lia.
  pose proof (Z.div_mod n 8 ltac:(lia)) as Hdm.
  pose proof (Z.mod_pos_bound n 8 ltac:(lia)) as Hmb.
  destruct (bit_index i Hi) as (Hib & Hiq & Hie).
  rewrite <- (Z2Nat.id (n / 8)) at 1 by lia.
  rewrite <- (Z2Nat.id (n - n / 8 * 8)) by lia.
  rewrite key_bit_clear_range; [| |lia..].
  - rewrite key_bit_zero_prefix by lia.
    rewrite <- andb_assoc. f_equal.
    rewrite !Z2Nat.id by lia.
    destruct (Z.leb_spec (n / 8) (i / 8)), (Z.leb_spec (n / 8 * 8) i),
      (Z.ltb_spec i (n / 8 * 8 + (n - n / 8 * 8))), (Z.leb_spec n i);
      simpl; try reflexivity; lia.
  - apply (foldl_invariant (fun s => length s = 32%nat)); [|done].
    intros a b Ha. rewrite length_arr_set. exact Ha.
Qed.

Lemma key_bit_zero_bytes (i : Z) : 0 <= i < 256 -> key_bit (zero_bytes 32) i = false.
Proof.
  intros Hi. destruct (bit_index i Hi) as (Hib & Hiq & Hie).
  unfold key_bit, arr_get. rewrite lookup_total_zero_bytes by lia.
  apply Z.bits_0.
Qed.

(** [_smt_parent_path] clears the bits 0 to [h] and keeps those above. *)
Lemma key_bit_parent_path (d : bytes) (h i : Z) :
  length d = 32%nat -> 0 <= h < 256 -> 0 <= i < 256 ->
  key_bit (_smt_parent_path d h) i = key_bit d i && (h <? i).
Proof.
  intros Hl Hh Hi. unfold _smt_parent_path.
  destruct (Z.eqb_spec h 255) as [->|Hne].
  - rewrite key_bit_zero_bytes by lia.
    destruct (Z.ltb_spec 255 i); [lia|]. rewrite andb_false_r. reflexivity.
  - rewrite key_bit_copy_bits by lia. f_equal.
    destruct (Z.leb_spec (h + 1) i), (Z.ltb_spec h i); lia || reflexivity.
Qed.

(** Two keys with the same 256 bits are the same array. *)
Lemma key_bits_eq (a b : bytes) :
  bytes32 a = true -> bytes32 b = true ->
  (forall i, 0 <= i < 256 -> key_bit a i = key_bit b i) -> a = b.
Proof.
  intros Ha Hb Hbits.
  apply bytes_eq32_eq; [apply bytes32_length, Ha | apply bytes32_length, Hb |].
  intros j Hj. apply byte_bits_eq; [apply bytes32_byte; done..|].
  intros q Hq. specialize (Hbits (8 * Z.of_nat j + q) ltac:(lia)).
  unfold key_bit, arr_get in Hbits.
  replace ((8 * Z.of_nat j + q) / 8) with (Z.of_nat j) in Hbits
    by (apply (Z.div_unique _ 8 _ q); lia).
  replace ((8 * Z.of_nat j + q) mod 8) with q in Hbits
    by (apply (Z.mod_unique _ 8 (Z.of_nat j)); lia).
  rewrite Nat2Z.id in Hbits. exact Hbits.
Qed.

(** ** The interpreter keeps its variables well formed *)

Lemma machine_ok_iff (m : machine) :
  machine_ok m = true <->
  length (stack_keys m) = 32%nat /\ length (stack_values m) = 32%nat /\
  Forall (fun k => bytes32 k = true) (stack_keys m) /\
  0 <= stack_top m <= 32 /\ 0 <= proof_index m /\ 0 <= leave_index m.
Proof.
  unfold machine_ok, _SMT_STACK_SIZE. rewrite !andb_true_iff, !Nat.eqb_eq.
  rewrite forallb_forall, Forall_forall, !Z.leb_le.
  split.
  - intros ((((((? & ?) & Hk) & ?) & ?) & ?) & ?). repeat split; try done.
    intros k Hin. apply Hk, list_elem_of_In, Hin.
  - intros (? & ? & Hk & [? ?] & ? & ?). repeat split; try done.
    intros k Hin. apply Hk, list_elem_of_In, Hin.
Qed.

Lemma state_ok_iff (s : smt_state_t) :
  state_ok s = true <->
  0 <= len s <= capacity s /\ capacity s = Z.of_nat (length (pairs s)) /\
  capacity s < UINT32_MOD /\ Forall (fun p => pair_ok p = true) (pairs s).
Proof.
  unfold state_ok. rewrite !andb_true_iff, forallb_forall, Forall_forall.
  rewrite !Z.leb_le, Z.eqb_eq, Z.ltb_lt. split.
  - intros ((((? & ?) & ?) & ?) & Hp). repeat split; try done.
    intros p Hin. apply Hp, list_elem_of_In, Hin.
  - intros ([? ?] & ? & ? & Hp). repeat split; try done.
    intros p Hin. apply Hp, list_elem_of_In, Hin.
Qed.

Lemma state_ok_pair (s : smt_state_t) (i : Z) :
  state_ok s = true -> 0 <= i < len s ->
  bytes32 (key (arr_get (pairs s) i)) = true /\
  bytes32 (value (arr_get (pairs s) i)) = true.
Proof.
  intros Hs Hi. apply state_ok_iff in Hs as (Hlen & Hcap & _ & Hp).
  apply andb_true_iff. unfold arr_get.
  apply (Forall_lookup_total_1 (fun p => pair_ok p = true)); [done | lia].
Qed.

Lemma to_uint32_nonneg (z : Z) : 0 <= to_uint32 z.
Proof. unfold to_uint32. apply Z.mod_pos_bound. reflexivity. Qed.

Lemma machine_ok_key (m : machine) (i : Z) :
  machine_ok m = true -> i < 32 ->
  bytes32 (arr_get (stack_keys m) i) = true.
Proof.
  intros Hm Hi. apply machine_ok_iff in Hm as (Hk & _ & Hb & _).
  unfold arr_get.
  apply (Forall_lookup_total_1 (fun k => bytes32 k = true)); [done | lia].
Qed.

Section Invariant.

Variable blake2b_256 : bytes -> bytes.
Variable state : smt_state_t.
Variable proof : bytes.
Hypothesis state_wf : state_ok state = true.

Lemma exec_opcode_ok (m m' : machine) :
  machine_ok m = true ->
  exec_opcode blake2b_256 state proof m = Ok m' ->
  machine_ok m' = true.
Proof.
  intros Hm. pose proof Hm as Hm0.
  apply machine_ok_iff in Hm as (Hk & Hv & Hb & Ht & Hpi & Hli).
  unfold exec_opcode.
  destruct (proof !! Z.to_nat (proof_index m)) as [opcode|]; [|done].
  destruct (opcode =? 76); [|destruct (opcode =? 80); [|destruct (opcode =? 72)]].
  - unfold exec_leaf; simpl.
    destruct (Z.geb_spec (stack_top m) _SMT_STACK_SIZE); [done|].
    destruct (Z.geb_spec (leave_index m) (len state)); [done|].
    intros [= <-]. apply machine_ok_iff; simpl.
    rewrite !length_arr_set. unfold _SMT_STACK_SIZE in *.
    rewrite to_uint32_small by (unfold UINT32_MOD; lia).
    repeat split; try lia; try apply to_uint32_nonneg.
    apply Forall_insert; [done|]. apply state_ok_pair; [done | lia].
  - unfold exec_proof; simpl.
    destruct (Z.eqb_spec (stack_top m) 0); [done|].
    destruct (_ >? _); [done|].
    destruct (proof !! _) as [height|]; [|done].
    destruct (negb _); [done|].
    intros [= <-]. apply machine_ok_iff; simpl.
    rewrite !length_arr_set.
    repeat split; try lia; try apply to_uint32_nonneg.
    apply Forall_insert; [done|].
    apply bytes32_parent_path, machine_ok_key; [done | lia].
  - unfold exec_merge; simpl.
    destruct (Z.ltb_spec (stack_top m) 2); [done|].
    destruct (_ >=? _); [done|].
    destruct (proof !! _) as [height|]; [|done].
    match goal with |- context [if ?c then _ else _] => destruct c end; [done|].
    intros [= <-]. apply machine_ok_iff; simpl.
    rewrite !length_arr_set.
    rewrite to_uint32_small by (unfold UINT32_MOD; lia).
    repeat split; try lia; try apply to_uint32_nonneg.
    assert (Forall (fun k => bytes32 k = true)
              (arr_set (stack_keys m) (stack_top m - 2)
                 (_smt_copy_bits (arr_get (stack_keys m) (stack_top m - 2)) height)))
      as Hb1.
    { apply Forall_insert; [done|].
      apply bytes32_copy_bits, machine_ok_key; [done | lia]. }
    apply Forall_insert; [done|]. apply bytes32_copy_bits.
    unfold arr_get.
    apply (Forall_lookup_total_1 (fun k => bytes32 k = true)); [done|].
    rewrite length_arr_set. lia.
  - done.
Qed.

Lemma machine_init_ok : machine_ok machine_init = true.
Proof. reflexivity. Qed.

Lemma run_steps_ok (n : nat) (m m' : machine) :
  machine_ok m = true ->
  run_steps blake2b_256 state proof n m = Ok m' ->
  machine_ok m' = true.
Proof.
  revert m; induction n as [|n IH]; intros m Hm; simpl.
  - intros [= <-]. exact Hm.
  - destruct (exec_opcode blake2b_256 state proof m) as [m1| |] eqn:Hex; [|done..].
    apply IH. eapply exec_opcode_ok; [exact Hm | exact Hex].
Qed.

End Invariant.

(** ** Case [0x48] *)

Lemma proof_ok_iff (proof : bytes) :
  proof_ok proof = true <->
  Forall is_byte proof /\ proof_length proof < UINT32_MOD.
Proof.
  unfold proof_ok, proof_length.
  rewrite andb_true_iff, forallb_forall, Forall_forall, Z.ltb_lt.
  split; intros [Hb Hl]; (split; [|exact Hl]); intros b Hin.
  - apply list_elem_of_In, Hb in Hin. unfold is_byteb, is_byte in *. lia.
  - apply list_elem_of_In, Hb in Hin. unfold is_byteb, is_byte in *. lia.
Qed.

Lemma proof_ok_byte (proof : bytes) (i : nat) (b : Z) :
  proof_ok proof = true -> proof !! i = Some b -> 0 <= b < 256.
Proof.
  intros Hp Hlk. apply proof_ok_iff in Hp as [Hb _].
  rewrite Forall_lookup in Hb. exact (Hb i b Hlk).
Qed.

Section Merge.

Variable blake2b_256 : bytes -> bytes.
Variable state : smt_state_t.
Variable proof : bytes.
Variable m : machine.
Variable height : Z.
Hypothesis proof_wf : proof_ok proof = true.
Hypothesis m_wf : machine_ok m = true.
Hypothesis at_H : proof !! Z.to_nat (proof_index m) = Some 0x48.
Hypothesis depth : 2 <= stack_top m.
Hypothesis operand : proof !! Z.to_nat (proof_index m + 1) = Some height.

Let key_a := arr_get (stack_keys m) (stack_top m - 2).
Let key_b := arr_get (stack_keys m) (stack_top m - 1).
Let value_a := arr_get (stack_values m) (stack_top m - 2).
Let value_b := arr_get (stack_values m) (stack_top m - 1).
Let a_bit := _smt_get_bit key_a height.
Let b_bit := _smt_get_bit key_b height.
Let expected_sibling :=
  if a_bit then _smt_copy_bits key_a height
  else _smt_set_bit (_smt_copy_bits key_a height) height.

(** What the case computes, with the reads through the stack arrays
    resolved. *)
Lemma exec_merge_eq :
  exec_opcode blake2b_256 state proof m =
  if negb (memcmp expected_sibling (_smt_copy_bits key_b height) 32 =? 0)
     || Bool.eqb a_bit b_bit
  then Err ERROR_INVALID_SIBLING
  else Ok {| stack_keys :=
               arr_set (arr_set (stack_keys m) (stack_top m - 2)
                          (_smt_copy_bits key_a height))
                 (stack_top m - 1) (_smt_copy_bits key_b height);
             stack_values :=
               arr_set (stack_values m) (stack_top m - 2)
                 (if a_bit then _smt_merge blake2b_256 value_b value_a
                  else _smt_merge blake2b_256 value_a value_b);
             proof_index := proof_index m + 2;
             leave_index := leave_index m;
             stack_top := stack_top m - 1 |}.
Proof.
  apply machine_ok_iff in m_wf as (Hk & Hv & Hb & Ht & Hpi & Hli).
  apply proof_ok_iff in proof_wf as [_ Hfits].
  pose proof (lookup_proof_lt proof _ _ Hpi at_H) as Hlt.
  pose proof (lookup_proof_lt proof (proof_index m + 1) height ltac:(lia) operand) as Hlt1.
  unfold exec_opcode. rewrite at_H.
  change (72 =? 76) with false. change (72 =? 80) with false.
  change (72 =? 72) with true. cbv iota.
  unfold exec_merge, set_proof_index; simpl.
  rewrite !to_uint32_small by lia.
  destruct (Z.ltb_spec (stack_top m) 2); [lia|].
  destruct (Z.geb_spec (proof_index m + 1) (proof_length proof)); [lia|].
  rewrite operand.
  rewrite (arr_get_set_ne _ (stack_top m - 2) (stack_top m - 1)) by lia.
  rewrite arr_get_set_eq by (rewrite length_arr_set; lia).
  rewrite arr_get_set_ne by lia.
  rewrite arr_get_set_eq by lia.
  fold key_a key_b value_a value_b. fold a_bit b_bit.
  replace (if negb a_bit then _smt_set_bit (_smt_copy_bits key_a height) height
           else _smt_copy_bits key_a height) with expected_sibling
    by (unfold expected_sibling; destruct a_bit; reflexivity).
  replace (stack_top m - 2 + 1) with (stack_top m - 1) by lia.
  replace (proof_index m + 1 + 1) with (proof_index m + 2) by lia.
  rewrite to_uint32_small by (unfold UINT32_MOD; lia).
  reflexivity.
Qed.

Lemma height_byte : 0 <= height < 256.
Proof. exact (proof_ok_byte proof _ height proof_wf operand). Qed.

Lemma key_a_wf : bytes32 key_a = true.
Proof.
  apply machine_ok_key; [exact m_wf|].
  apply machine_ok_iff in m_wf as (_ & _ & _ & Ht & _). lia.
Qed.

Lemma key_b_wf : bytes32 key_b = true.
Proof.
  apply machine_ok_key; [exact m_wf|].
  apply machine_ok_iff in m_wf as (_ & _ & _ & Ht & _). lia.
Qed.

Lemma expected_sibling_length : length expected_sibling = 32%nat.
Proof.
  unfold expected_sibling. destruct a_bit.
  - rewrite length_copy_bits. apply bytes32_length, key_a_wf.
  - rewrite length_set_bit, length_copy_bits. apply bytes32_length, key_a_wf.
Qed.

(** The check of the case fails exactly when the expected sibling is not
    the canonical upper key or the two bits are equal. *)
Lemma exec_merge_fails :
  exec_opcode blake2b_256 state proof m = Err ERROR_INVALID_SIBLING <->
  expected_sibling <> _smt_copy_bits key_b height \/ a_bit = b_bit.
Proof.
  rewrite exec_merge_eq.
  assert (memcmp expected_sibling (_smt_copy_bits key_b height) 32 = 0 <->
          expected_sibling = _smt_copy_bits key_b height) as Hcmp.
  { apply memcmp_32_eq; [apply expected_sibling_length|].
    rewrite length_copy_bits. apply bytes32_length, key_b_wf. }
  destruct (Z.eqb_spec (memcmp expected_sibling (_smt_copy_bits key_b height) 32) 0)
    as [Heq|Hne]; simpl.
  - apply Hcmp in Heq. destruct (Bool.eqb a_bit b_bit) eqn:Hab.
    + apply Bool.eqb_prop in Hab. split; [intros _; right; exact Hab | reflexivity].
    + split; [discriminate|]. intros [Hn|Hn]; [contradiction|].
      rewrite Hn, Bool.eqb_reflx in Hab. discriminate.
  - split; [|reflexivity]. intros _. left. intros Heq. apply Hne, Hcmp, Heq.
Qed.

(** A passing check means that bit [height] is clear in the lower key and
    set in the upper key. *)
Lemma exec_merge_bits (m' : machine) :
  exec_opcode blake2b_256 state proof m = Ok m' ->
  a_bit = false /\ b_bit = true.
Proof.
  intros Hex.
  assert (~ (expected_sibling <> _smt_copy_bits key_b height \/ a_bit = b_bit))
    as Hpass.
  { intros Hfail. apply exec_merge_fails in Hfail. congruence. }
  assert (expected_sibling = _smt_copy_bits key_b height) as Hsib.
  { destruct (decide (expected_sibling = _smt_copy_bits key_b height)); [done|].
    exfalso. apply Hpass. left. done. }
  assert (a_bit <> b_bit) as Hab by (intros Heq; apply Hpass; right; exact Heq).
  pose proof height_byte as Hh.
  pose proof (bytes32_length _ key_a_wf) as Hla.
  pose proof (bytes32_length _ key_b_wf) as Hlb.
  assert (key_bit expected_sibling height = b_bit) as Hbit.
  { rewrite Hsib, key_bit_copy_bits by lia.
    unfold b_bit. rewrite get_bit_key_bit by lia.
    destruct (Z.leb_spec height height); [|lia]. apply andb_true_r. }
  destruct a_bit eqn:Ha.
  - exfalso. apply Hab. rewrite <- Hbit. unfold expected_sibling.
    rewrite key_bit_copy_bits by lia.
    fold (key_bit key_a height). rewrite <- get_bit_key_bit by lia.
    fold a_bit. rewrite Ha.
    destruct (Z.leb_spec height height); [reflexivity | lia].
  - split; [reflexivity|]. destruct b_bit; [reflexivity | congruence].
Qed.

(** After a passing check the stack is one frame lower and its top frame
    is [merged_frame]: the parent path of the lower key, whose bits 0 to
    [height] are all clear, with the two digests merged lower first. *)
Lemma exec_merge_frame (m' : machine) :
  exec_opcode blake2b_256 state proof m = Ok m' ->
  stack_top m' = stack_top m - 1 /\
  (arr_get (stack_keys m') (stack_top m' - 1),
   arr_get (stack_values m') (stack_top m' - 1))
  = merged_frame blake2b_256 key_a value_a value_b height /\
  forall i, 0 <= i <= height ->
    _smt_get_bit (arr_get (stack_keys m') (stack_top m' - 1)) i = false.
Proof.
  intros Hex. destruct (exec_merge_bits m' Hex) as [Ha Hb].
  pose proof height_byte as Hh.
  pose proof (bytes32_length _ key_a_wf) as Hla.
  pose proof m_wf as Hm.
  apply machine_ok_iff in Hm as (Hk & Hv & _ & Ht & _).
  rewrite exec_merge_eq in Hex.
  destruct (negb _ || _); [discriminate|]. injection Hex as <-. simpl.
  replace (stack_top m - 1 - 1) with (stack_top m - 2) by lia.
  rewrite arr_get_set_ne by lia.
  rewrite !arr_get_set_eq by lia.
  assert (forall i, 0 <= i < 256 ->
            key_bit (_smt_copy_bits key_a height) i
            = key_bit key_a i && (height <? i)) as Hbits.
  { intros i Hi. rewrite key_bit_copy_bits by lia.
    destruct (Z.eq_dec i height) as [->|Hne].
    - fold (key_bit key_a height). rewrite <- (get_bit_key_bit key_a) by lia.
      fold a_bit. rewrite Ha. reflexivity.
    - f_equal. destruct (Z.leb_spec height i), (Z.ltb_spec height i);
        lia || reflexivity. }
  split; [reflexivity|]. split.
  - unfold merged_frame. rewrite Ha. f_equal.
    apply key_bits_eq.
    + apply bytes32_copy_bits, key_a_wf.
    + apply bytes32_parent_path, key_a_wf.
    + intros i Hi. rewrite Hbits, key_bit_parent_path by lia. reflexivity.
  - intros i Hi. rewrite get_bit_key_bit, Hbits by lia.
    destruct (Z.ltb_spec height i); [lia|]. apply andb_false_r.
Qed.

End Merge.

(** ** Cases [0x4C] and [0x50] *)

Section Steps.

Variable blake2b_256 : bytes -> bytes.
Variable state : smt_state_t.
Variable proof : bytes.
Variable m : machine.
Hypothesis state_wf : state_ok state = true.
Hypothesis proof_wf : proof_ok proof = true.
Hypothesis m_wf : machine_ok m = true.

(** The digest of the frame that case [0x4C] pushes for a pair. *)
Lemma exec_leaf_eq :
  proof !! Z.to_nat (proof_index m) = Some 0x4C ->
  stack_top m < 32 -> leave_index m < len state ->
  let p := arr_get (pairs state) (leave_index m) in
  exec_opcode blake2b_256 state proof m =
  Ok {| stack_keys := arr_set (stack_keys m) (stack_top m) (key p);
        stack_values :=
          arr_set (stack_values m) (stack_top m)
            (if truthy (_smt_zero_value (value p)) then zero_bytes 32
             else blake2b_256 (key p ++ value p));
        proof_index := proof_index m + 1;
        leave_index := leave_index m + 1;
        stack_top := stack_top m + 1 |}.
Proof.
  intros Hop Htop Hleaf p.
  apply machine_ok_iff in m_wf as (Hk & Hv & Hb & Ht & Hpi & Hli).
  apply proof_ok_iff in proof_wf as [_ Hfits].
  apply state_ok_iff in state_wf as (Hlen & _ & Hcap & _).
  pose proof (lookup_proof_lt proof _ _ Hpi Hop) as Hlt.
  unfold exec_opcode. rewrite Hop. change (76 =? 76) with true. cbv iota.
  unfold exec_leaf, set_proof_index; simpl.
  destruct (Z.geb_spec (stack_top m) _SMT_STACK_SIZE);
    [unfold _SMT_STACK_SIZE in *; lia|].
  destruct (Z.geb_spec (leave_index m) (len state)); [lia|].
  rewrite !to_uint32_small by (unfold UINT32_MOD in *; lia).
  reflexivity.
Qed.

Lemma exec_proof_eq (height : Z) (sibling rest : bytes) :
  proof !! Z.to_nat (proof_index m) = Some 0x50 ->
  1 <= stack_top m ->
  drop (Z.to_nat (proof_index m + 1)) proof = height :: sibling ++ rest ->
  length sibling = 32%nat ->
  let k := arr_get (stack_keys m) (stack_top m - 1) in
  let v := arr_get (stack_values m) (stack_top m - 1) in
  exec_opcode blake2b_256 state proof m =
  Ok {| stack_keys :=
          arr_set (stack_keys m) (stack_top m - 1) (_smt_parent_path k height);
        stack_values :=
          arr_set (stack_values m) (stack_top m - 1)
            (if _smt_get_bit k height then _smt_merge blake2b_256 sibling v
             else _smt_merge blake2b_256 v sibling);
        proof_index := proof_index m + 34;
        leave_index := leave_index m;
        stack_top := stack_top m |}.
Proof.
  intros Hop Htop Hdrop Hsib k v.
  apply machine_ok_iff in m_wf as (Hk & Hv & Hb & Ht & Hpi & Hli).
  apply proof_ok_iff in proof_wf as [_ Hfits].
  pose proof (lookup_proof_lt proof _ _ Hpi Hop) as Hlt.
  assert (proof_index m + 34 <= proof_length proof) as Hend.
  { pose proof (f_equal length Hdrop) as Hlen.
    rewrite length_drop in Hlen. simpl in Hlen. rewrite length_app in Hlen.
    unfold proof_length in *. lia. }
  unfold exec_opcode. rewrite Hop.
  change (80 =? 76) with false. change (80 =? 80) with true. cbv iota.
  unfold exec_proof, set_proof_index; simpl.
  destruct (Z.eqb_spec (stack_top m) 0); [lia|].
  rewrite (to_uint32_small (proof_index m + 1)) by (unfold UINT32_MOD in *; lia).
  rewrite !to_uint32_small by (unfold UINT32_MOD in *; lia).
  destruct (Z.gtb_spec (proof_index m + 1 + 33) (proof_length proof)); [lia|].
  assert (proof !! Z.to_nat (proof_index m + 1) = Some height) as ->.
  { rewrite <- (Nat.add_0_r (Z.to_nat _)), <- lookup_drop, Hdrop. reflexivity. }
  assert (take 32 (drop (Z.to_nat (proof_index m + 1 + 1)) proof) = sibling) as ->.
  { replace (Z.to_nat (proof_index m + 1 + 1))
      with (Z.to_nat (proof_index m + 1) + 1)%nat by lia.
    rewrite <- drop_drop, Hdrop. simpl. rewrite drop_0.
    rewrite take_app_length'; done. }
  rewrite Hsib. simpl.
  replace (proof_index m + 1 + 1 + 32) with (proof_index m + 34) by lia.
  reflexivity.
Qed.

End Steps.

(** ** Scenario S2: a single leaf *)

Lemma drop_cons_inv {A} (l t : list A) (n : nat) (x : A) :
  drop n l = x :: t -> l !! n = Some x /\ drop (S n) l = t.
Proof.
  intros Hd. split.
  - rewrite <- (Nat.add_0_r n), <- lookup_drop, Hd. reflexivity.
  - replace (S n) with (n + 1)%nat by lia.
    rewrite <- drop_drop, Hd. reflexivity.
Qed.

Lemma parent_path_zero (h : Z) :
  0 <= h < 256 -> _smt_parent_path (zero_bytes 32) h = zero_bytes 32.
Proof.
  intros Hh. apply key_bits_eq.
  - apply bytes32_parent_path. reflexivity.
  - reflexivity.
  - intros i Hi. rewrite key_bit_parent_path by (done || lia).
    rewrite key_bit_zero_bytes by lia. reflexivity.
Qed.

Section SingleLeaf.

Variable blake2b_256 : bytes -> bytes.
Hypothesis blake2b_256_length : forall msg, length (blake2b_256 msg) = 32%nat.
Variable state : smt_state_t.
Variable proof : bytes.
Hypothesis state_wf : state_ok state = true.
Hypothesis proof_wf : proof_ok proof = true.
Variable digest : bytes.
Hypothesis digest_length : length digest = 32%nat.

(** Case [0x50] with an all-zero sibling leaves such a frame as it is. *)
Lemma exec_proof_zero (m : machine) (h : Z) (rest : bytes) :
  zero_key_frame digest m ->
  drop (Z.to_nat (proof_index m)) proof = op_P h (zero_bytes 32) ++ rest ->
  exec_opcode blake2b_256 state proof m
  = Ok (set_proof_index m (proof_index m + 34)).
Proof.
  intros (Hm & Htop & Hkey & Hval) Hdrop.
  pose proof Hm as Hm'.
  apply machine_ok_iff in Hm' as (_ & _ & _ & _ & Hpi & _).
  unfold op_P in Hdrop. simpl in Hdrop.
  apply drop_cons_inv in Hdrop as [Hop Hdrop].
  assert (0 <= h < 256) as Hh.
  { apply drop_cons_inv in Hdrop as [Hh _].
    exact (proof_ok_byte proof _ h proof_wf Hh). }
  replace (S (Z.to_nat (proof_index m))) with (Z.to_nat (proof_index m + 1))
    in Hdrop by lia.
  rewrite (exec_proof_eq blake2b_256 state proof m proof_wf Hm
             h (zero_bytes 32) rest Hop ltac:(lia) Hdrop eq_refl).
  rewrite Htop. change (1 - 1) with 0. rewrite Hkey, Hval.
  rewrite parent_path_zero by exact Hh.
  rewrite get_bit_key_bit, key_bit_zero_bytes by lia.
  rewrite merge_zero_r by exact digest_length.
  rewrite <- Hkey, <- Hval, !arr_set_get_id.
  unfold set_proof_index. rewrite Htop. reflexivity.
Qed.

Lemma run_steps_zero (hs : list Z) (rest : bytes) (m : machine) :
  zero_key_frame digest m ->
  drop (Z.to_nat (proof_index m)) proof
  = concat (map (fun h => op_P h (zero_bytes 32)) hs) ++ rest ->
  run_steps blake2b_256 state proof (length hs) m
  = Ok (set_proof_index m (proof_index m + 34 * Z.of_nat (length hs))).
Proof.
  revert m; induction hs as [|h hs IH]; intros m Hm Hdrop.
  - simpl. unfold set_proof_index. destruct m; simpl. f_equal. f_equal. lia.
  - rewrite map_cons, concat_cons, <- app_assoc in Hdrop.
    simpl length. simpl run_steps.
    rewrite (exec_proof_zero m h _ Hm Hdrop).
    destruct Hm as (Hm & Htop & Hkey & Hval).
    pose proof Hm as Hm'.
    apply machine_ok_iff in Hm' as (? & ? & ? & ? & Hpi & ?).
    rewrite IH.
    + unfold set_proof_index; simpl. f_equal. f_equal. lia.
    + split; [|done]. apply machine_ok_iff. simpl. repeat split; try done; lia.
    + simpl.
      replace (Z.to_nat (proof_index m + 34))
        with (Z.to_nat (proof_index m) + 34)%nat by lia.
      rewrite <- drop_drop, Hdrop. reflexivity.
Qed.

End SingleLeaf.

Lemma single_leaf_proof_ok : proof_ok single_leaf_proof = true.
Proof. vm_compute. reflexivity. Qed.

Lemma single_leaf_proof_length :
  length single_leaf_proof = (257 + 32 * 264)%nat.
Proof. vm_compute. reflexivity. Qed.

(** C1 (scenario S2): with the single pair of the all-zero key and the
    value [0x00...01], the proof [L] followed by the 256 opcodes [P] of
    heights 0 to 255 with all-zero siblings makes [smt_calculate_root]
    return 0 with the root [BLAKE2b-256(k ++ v)]. *)
Theorem single_leaf_root (blake2b_256 : bytes -> bytes) (o : Z) :
  (forall msg, length (blake2b_256 msg) = 32%nat) ->
  smt_calculate_root blake2b_256 (single_leaf_state o) single_leaf_proof
  = Ok (blake2b_256 (single_leaf_key ++ single_leaf_value)).
Proof.
  intros Hlen.
  set (st := single_leaf_state o).
  set (digest := blake2b_256 (single_leaf_key ++ single_leaf_value)).
  set (m1 := {| stack_keys := arr_set (stack_keys machine_init) 0 single_leaf_key;
                stack_values := arr_set (stack_values machine_init) 0 digest;
                proof_index := 1; leave_index := 1; stack_top := 1 |}).
  assert (state_ok st = true) as Hst by reflexivity.
  assert (exec_opcode blake2b_256 st single_leaf_proof machine_init = Ok m1)
    as Hstep1.
  { rewrite (exec_leaf_eq blake2b_256 st single_leaf_proof machine_init Hst
               single_leaf_proof_ok eq_refl eq_refl); [reflexivity | simpl; lia..]. }
  assert (zero_key_frame digest m1) as Hframe.
  { repeat split. }
  assert (run_steps blake2b_256 st single_leaf_proof 257 machine_init
          = Ok (set_proof_index m1 8705)) as Hrun.
  { change 257%nat with (S (length (seqZ 0 256))).
    cbn [run_steps]. rewrite Hstep1.
    rewrite (run_steps_zero blake2b_256 st single_leaf_proof
               single_leaf_proof_ok digest (Hlen _) (seqZ 0 256) [] m1 Hframe).
    - reflexivity.
    - rewrite app_nil_r. reflexivity. }
  unfold smt_calculate_root.
  rewrite single_leaf_proof_length.
  destruct (run_loop_steps blake2b_256 st single_leaf_proof eq_refl
              257 (32 * 264) machine_init _ ltac:(simpl; lia) Hrun) as (-> & _).
  reflexivity.
Qed.

Lemma sum_digest_length (msg : bytes) : length (sum_digest msg) = 32%nat.
Proof. unfold sum_digest. rewrite length_map, length_seqZ. reflexivity. Qed.

Lemma single_leaf_root_witness :
  (forall msg, length (sum_digest msg) = 32%nat) /\
  smt_calculate_root sum_digest (single_leaf_state 0) single_leaf_proof
  = Ok (sum_digest (single_leaf_key ++ single_leaf_value)).
Proof.
  split; [exact sum_digest_length|].
  exact (single_leaf_root sum_digest 0 sum_digest_length).
Defined.

(** ** Case [0x48] inside [smt_calculate_root] *)

Lemma bytes32_set_bit (d : bytes) (j : Z) :
  bytes32 d = true -> bytes32 (_smt_set_bit d j) = true.
Proof.
  intros Hd. apply bytes32_arr_set; [done|].
  unfold to_uint8. apply Z.mod_pos_bound. lia.
Qed.

Section MergeReached.

Variable blake2b_256 : bytes -> bytes.
Variable state : smt_state_t.
Variable proof : bytes.
Variable n : nat.
Variable m : machine.
Variable height : Z.
Hypothesis state_wf : state_ok state = true.
Hypothesis proof_wf : proof_ok proof = true.
Hypothesis reached : run_steps blake2b_256 state proof n machine_init = Ok m.
Hypothesis at_H : proof !! Z.to_nat (proof_index m) = Some 0x48.
Hypothesis depth : 2 <= stack_top m.
Hypothesis operand : proof !! Z.to_nat (proof_index m + 1) = Some height.

Lemma reached_ok : machine_ok m = true.
Proof.
  exact (run_steps_ok blake2b_256 state proof state_wf n machine_init m
           machine_init_ok reached).
Qed.

Lemma proof_ok_fits : proof_length proof < UINT32_MOD.
Proof. apply proof_ok_iff in proof_wf as [_ Hfits]. exact Hfits. Qed.

Lemma merge_check_reached :
  let key_a := arr_get (stack_keys m) (stack_top m - 2) in
  let key_b := arr_get (stack_keys m) (stack_top m - 1) in
  let a_bit := _smt_get_bit key_a height in
  let b_bit := _smt_get_bit key_b height in
  let expected_sibling :=
    if a_bit then _smt_copy_bits key_a height
    else _smt_set_bit (_smt_copy_bits key_a height) height in
  let fails := expected_sibling <> _smt_copy_bits key_b height \/ a_bit = b_bit in
  (exec_opcode blake2b_256 state proof m = Err ERROR_INVALID_SIBLING <-> fails) /\
  (fails ->
   smt_calculate_root blake2b_256 state proof = Err ERROR_INVALID_SIBLING) /\
  (~ fails -> exists m', exec_opcode blake2b_256 state proof m = Ok m').
Proof.
  intros key_a key_b a_bit b_bit expected_sibling fails.
  pose proof (exec_merge_fails blake2b_256 state proof m height proof_wf
                reached_ok at_H depth operand) as Hiff.
  cbv zeta in Hiff. fold key_a key_b a_bit b_bit expected_sibling fails in Hiff.
  split; [exact Hiff|]. split.
  - intros Hf. apply Hiff in Hf.
    exact (calculate_root_error blake2b_256 state proof proof_ok_fits n m _
             reached Hf).
  - intros Hnf.
    pose proof (exec_merge_eq blake2b_256 state proof m height proof_wf
                  reached_ok at_H depth operand) as Heq.
    cbv zeta in Heq. rewrite Heq in Hiff |- *.
    destruct (negb _ || _); [|eexists; reflexivity].
    exfalso. apply Hnf, Hiff. reflexivity.
Qed.

Lemma merge_success_reached (m' : machine) :
  exec_opcode blake2b_256 state proof m = Ok m' ->
  let key_a := arr_get (stack_keys m) (stack_top m - 2) in
  let key_b := arr_get (stack_keys m) (stack_top m - 1) in
  let value_a := arr_get (stack_values m) (stack_top m - 2) in
  let value_b := arr_get (stack_values m) (stack_top m - 1) in
  _smt_get_bit key_a height = false /\
  _smt_get_bit key_b height = true /\
  stack_top m' = stack_top m - 1 /\
  arr_get (stack_values m') (stack_top m' - 1)
  = _smt_merge blake2b_256 value_a value_b /\
  arr_get (stack_keys m') (stack_top m' - 1) = _smt_parent_path key_a height /\
  forall i, 0 <= i <= height ->
    _smt_get_bit (arr_get (stack_keys m') (stack_top m' - 1)) i = false.
Proof.
  intros Hex key_a key_b value_a value_b.
  destruct (exec_merge_bits blake2b_256 state proof m height proof_wf
              reached_ok at_H depth operand m' Hex) as [Ha Hb].
  destruct (exec_merge_frame blake2b_256 state proof m height proof_wf
              reached_ok at_H depth operand m' Hex) as (Htop & Hframe & Hbits).
  unfold merged_frame in Hframe. injection Hframe as Hk Hv.
  repeat split; assumption.
Qed.

End MergeReached.

(** Scenario S4: the leaves of scenario S3 pushed in the opposite order. *)
Lemma swapped_leaves_fail (blake2b_256 : bytes -> bytes)
  (k1 v1 v2 : bytes) (o1 o2 : Z) (rest : bytes) :
  bytes32 k1 = true -> bytes32 v1 = true -> bytes32 v2 = true ->
  _smt_get_bit k1 0 = false ->
  proof_ok (two_leaves_proof rest) = true ->
  smt_calculate_root blake2b_256 (swapped_leaves_state k1 v1 v2 o1 o2)
    (two_leaves_proof rest) = Err ERROR_INVALID_SIBLING.
Proof.
  intros Hk1 Hv1 Hv2 Hbit Hproof.
  set (st := swapped_leaves_state k1 v1 v2 o1 o2).
  set (proof := two_leaves_proof rest) in *.
  assert (state_ok st = true) as Hst.
  { apply state_ok_iff. simpl. repeat split; try done.
    repeat constructor; unfold pair_ok; simpl.
    - rewrite bytes32_set_bit, Hv2; done.
    - rewrite Hk1, Hv1; done. }
  pose proof (exec_leaf_eq blake2b_256 st proof machine_init Hst Hproof
                eq_refl eq_refl ltac:(simpl; lia) ltac:(simpl; lia)) as H1.
  cbv zeta in H1.
  match type of H1 with _ = Ok ?x => set (m1 := x) in * end.
  assert (machine_ok m1 = true) as Hm1
    by exact (exec_opcode_ok blake2b_256 st proof Hst machine_init m1
                machine_init_ok H1).
  pose proof (exec_leaf_eq blake2b_256 st proof m1 Hst Hproof
                Hm1 eq_refl ltac:(simpl; lia) ltac:(simpl; lia)) as H2.
  cbv zeta in H2.
  match type of H2 with _ = Ok ?x => set (m2 := x) in * end.
  assert (run_steps blake2b_256 st proof 2 machine_init = Ok m2) as Hrun.
  { cbn [run_steps]. rewrite H1, H2. reflexivity. }
  apply (merge_check_reached blake2b_256 st proof 2 m2 0 Hst Hproof Hrun
           eq_refl ltac:(simpl; lia) eq_refl).
  left.
  change (arr_get (stack_keys m2) (stack_top m2 - 2)) with (_smt_set_bit k1 0).
  change (arr_get (stack_keys m2) (stack_top m2 - 1)) with k1.
  pose proof (bytes32_length k1 Hk1) as Hl.
  assert (_smt_get_bit (_smt_set_bit k1 0) 0 = true) as ->.
  { rewrite get_bit_key_bit, key_bit_set_bit by lia. apply orb_true_r. }
  intros Heq. apply (f_equal (fun k => key_bit k 0)) in Heq.
  rewrite !key_bit_copy_bits in Heq by (rewrite ?length_set_bit; lia).
  rewrite key_bit_set_bit, <- get_bit_key_bit, Hbit in Heq by lia.
  discriminate.
Qed.

(** C2 (sibling check of [H]): when [smt_calculate_root] reaches an [H]
    opcode with at least two frames and the height byte present, that
    opcode returns [ERROR_INVALID_SIBLING] exactly when the expected
    sibling (the lower key through [_smt_copy_bits], with bit [height] set
    iff it was clear) differs from the upper key through [_smt_copy_bits],
    or the two bits are equal; the call then returns that error, and
    otherwise the opcode succeeds.  Pushing the two leaves of scenario S3
    in the opposite order makes the call return [ERROR_INVALID_SIBLING]. *)
Theorem merge_sibling_check (blake2b_256 : bytes -> bytes)
  (state : smt_state_t) (proof : bytes) (n : nat) (m : machine) (height : Z) :
  state_ok state = true -> proof_ok proof = true ->
  run_steps blake2b_256 state proof n machine_init = Ok m ->
  proof !! Z.to_nat (proof_index m) = Some 0x48 ->
  2 <= stack_top m ->
  proof !! Z.to_nat (proof_index m + 1) = Some height ->
  (let key_a := arr_get (stack_keys m) (stack_top m - 2) in
   let key_b := arr_get (stack_keys m) (stack_top m - 1) in
   let a_bit := _smt_get_bit key_a height in
   let b_bit := _smt_get_bit key_b height in
   let expected_sibling :=
     if a_bit then _smt_copy_bits key_a height
     else _smt_set_bit (_smt_copy_bits key_a height) height in
   let fails :=
     expected_sibling <> _smt_copy_bits key_b height \/ a_bit = b_bit in
   (exec_opcode blake2b_256 state proof m = Err ERROR_INVALID_SIBLING <-> fails) /\
   (fails ->
    smt_calculate_root blake2b_256 state proof = Err ERROR_INVALID_SIBLING) /\
   (~ fails -> exists m', exec_opcode blake2b_256 state proof m = Ok m')) /\
  (forall k1 v1 v2 o1 o2 rest,
     bytes32 k1 = true -> bytes32 v1 = true -> bytes32 v2 = true ->
     _smt_get_bit k1 0 = false ->
     proof_ok (two_leaves_proof rest) = true ->
     smt_calculate_root blake2b_256 (swapped_leaves_state k1 v1 v2 o1 o2)
       (two_leaves_proof rest) = Err ERROR_INVALID_SIBLING).
Proof.
  intros Hst Hproof Hrun Hop Hdepth Hheight. split.
  - exact (merge_check_reached blake2b_256 state proof n m height
             Hst Hproof Hrun Hop Hdepth Hheight).
  - intros k1 v1 v2 o1 o2 rest. apply swapped_leaves_fail.
Qed.

Lemma merge_sibling_check_witness :
  let st := swapped_leaves_state (zero_bytes 32) single_leaf_value
              single_leaf_value 0 0 in
  let proof := two_leaves_proof [] in
  let m := machine_after sum_digest st proof 2 in
  (state_ok st = true /\ proof_ok proof = true /\
   run_steps sum_digest st proof 2 machine_init = Ok m /\
   proof !! Z.to_nat (proof_index m) = Some 0x48 /\
   2 <= stack_top m /\
   proof !! Z.to_nat (proof_index m + 1) = Some 0) /\
  exec_opcode sum_digest st proof m = Err ERROR_INVALID_SIBLING /\
  smt_calculate_root sum_digest st proof = Err ERROR_INVALID_SIBLING.
Proof.
  intros st proof m.
  assert (state_ok st = true /\ proof_ok proof = true /\
          run_steps sum_digest st proof 2 machine_init = Ok m /\
          proof !! Z.to_nat (proof_index m) = Some 0x48 /\
          2 <= stack_top m /\
          proof !! Z.to_nat (proof_index m + 1) = Some 0) as Hyp.
  { repeat split; try (vm_compute; congruence). }
  split; [exact Hyp|].
  destruct Hyp as (H1 & H2 & H3 & H4 & H5 & H6).
  destruct (merge_sibling_check sum_digest st proof 2 m 0 H1 H2 H3 H4 H5 H6)
    as [(Hiff & Hroot & _) _].
  assert (_smt_copy_bits (arr_get (stack_keys m) (stack_top m - 2)) 0
          <> _smt_copy_bits (arr_get (stack_keys m) (stack_top m - 1)) 0) as Hne
    by (vm_compute; congruence).
  split; [apply Hiff | apply Hroot]; left; exact Hne.
Defined.

(** C10 (a passing [H]): when an [H] opcode that [smt_calculate_root]
    reaches passes its sibling check, bit [height] is 0 in the lower key
    and 1 in the upper key, the digest of the frame it leaves is
    [merge(lower value, upper value)], and the key of that frame is the
    parent path of the lower key, with the bits 0 to [height] all zero. *)
Theorem merge_success (blake2b_256 : bytes -> bytes)
  (state : smt_state_t) (proof : bytes) (n : nat) (m m' : machine) (height : Z) :
  state_ok state = true -> proof_ok proof = true ->
  run_steps blake2b_256 state proof n machine_init = Ok m ->
  proof !! Z.to_nat (proof_index m) = Some 0x48 ->
  2 <= stack_top m ->
  proof !! Z.to_nat (proof_index m + 1) = Some height ->
  exec_opcode blake2b_256 state proof m = Ok m' ->
  let key_a := arr_get (stack_keys m) (stack_top m - 2) in
  let key_b := arr_get (stack_keys m) (stack_top m - 1) in
  let value_a := arr_get (stack_values m) (stack_top m - 2) in
  let value_b := arr_get (stack_values m) (stack_top m - 1) in
  _smt_get_bit key_a height = false /\
  _smt_get_bit key_b height = true /\
  stack_top m' = stack_top m - 1 /\
  arr_get (stack_values m') (stack_top m' - 1)
  = _smt_merge blake2b_256 value_a value_b /\
  arr_get (stack_keys m') (stack_top m' - 1) = _smt_parent_path key_a height /\
  forall i, 0 <= i <= height ->
    _smt_get_bit (arr_get (stack_keys m') (stack_top m' - 1)) i = false.
Proof.
  intros Hst Hproof Hrun Hop Hdepth Hheight Hex.
  exact (merge_success_reached blake2b_256 state proof n m height
           Hst Hproof Hrun Hop Hdepth Hheight m' Hex).
Qed.

Lemma merge_success_witness :
  let st := two_leaves_state (zero_bytes 32) single_leaf_value
              single_leaf_value 0 0 in
  let proof := two_leaves_proof [] in
  let m := machine_after sum_digest st proof 2 in
  let m' := machine_after sum_digest st proof 3 in
  (state_ok st = true /\ proof_ok proof = true /\
   run_steps sum_digest st proof 2 machine_init = Ok m /\
   proof !! Z.to_nat (proof_index m) = Some 0x48 /\
   2 <= stack_top m /\
   proof !! Z.to_nat (proof_index m + 1) = Some 0 /\
   exec_opcode sum_digest st proof m = Ok m') /\
  _smt_get_bit (arr_get (stack_keys m) (stack_top m - 2)) 0 = false /\
  _smt_get_bit (arr_get (stack_keys m) (stack_top m - 1)) 0 = true /\
  arr_get (stack_keys m') (stack_top m' - 1)
  = _smt_parent_path (arr_get (stack_keys m) (stack_top m - 2)) 0.
Proof.
  intros st proof m m'.
  assert (state_ok st = true /\ proof_ok proof = true /\
          run_steps sum_digest st proof 2 machine_init = Ok m /\
          proof !! Z.to_nat (proof_index m) = Some 0x48 /\
          2 <= stack_top m /\
          proof !! Z.to_nat (proof_index m + 1) = Some 0 /\
          exec_opcode sum_digest st proof m = Ok m') as Hyp.
  { repeat split; try (vm_compute; congruence). }
  split; [exact Hyp|].
  destruct Hyp as (H1 & H2 & H3 & H4 & H5 & H6 & H7).
  destruct (merge_success sum_digest st proof 2 m m' 0 H1 H2 H3 H4 H5 H6 H7)
    as (Ha & Hb & _ & _ & Hk & _).
  repeat split; assumption.
Defined.

(** ** Truncated operands *)

Section Truncated.

Variable blake2b_256 : bytes -> bytes.
Variable state : smt_state_t.
Variable proof : bytes.
Variable n : nat.
Variable m : machine.
Hypothesis proof_wf : proof_ok proof = true.
Hypothesis reached : run_steps blake2b_256 state proof n machine_init = Ok m.

Lemma reached_index : 0 <= proof_index m.
Proof.
  destruct (run_loop_steps blake2b_256 state proof (proof_ok_fits proof proof_wf)
              n 0 machine_init m ltac:(simpl; lia) reached) as (_ & Hle & _).
  simpl in Hle. lia.
Qed.

Lemma exec_proof_truncated :
  proof !! Z.to_nat (proof_index m) = Some 0x50 ->
  1 <= stack_top m ->
  proof_length proof - (proof_index m + 1) < 33 ->
  proof_length proof < UINT32_MOD - 33 ->
  exec_opcode blake2b_256 state proof m = Err ERROR_INVALID_PROOF.
Proof.
  intros Hop Htop Hshort Hfits. pose proof reached_index as Hpi.
  pose proof (lookup_proof_lt proof _ _ Hpi Hop) as Hlt.
  unfold exec_opcode. rewrite Hop.
  change (80 =? 76) with false. change (80 =? 80) with true. cbv iota.
  unfold exec_proof, set_proof_index; simpl.
  destruct (Z.eqb_spec (stack_top m) 0); [lia|].
  rewrite (to_uint32_small (proof_index m + 1)) by (unfold UINT32_MOD in *; lia).
  rewrite to_uint32_small by (unfold UINT32_MOD in *; lia).
  destruct (Z.gtb_spec (proof_index m + 1 + 33) (proof_length proof)); [done | lia].
Qed.

Lemma exec_merge_truncated :
  proof !! Z.to_nat (proof_index m) = Some 0x48 ->
  2 <= stack_top m ->
  proof_length proof = proof_index m + 1 ->
  exec_opcode blake2b_256 state proof m = Err ERROR_INVALID_PROOF.
Proof.
  intros Hop Htop Hend. pose proof reached_index as Hpi.
  pose proof (proof_ok_fits proof proof_wf) as Hfits.
  unfold exec_opcode. rewrite Hop.
  change (72 =? 76) with false. change (72 =? 80) with false.
  change (72 =? 72) with true. cbv iota.
  unfold exec_merge, set_proof_index; simpl.
  destruct (Z.ltb_spec (stack_top m) 2); [lia|].
  rewrite to_uint32_small by lia.
  destruct (Z.geb_spec (proof_index m + 1) (proof_length proof)); [done | lia].
Qed.

End Truncated.

(** C8, as the code has it: when [smt_calculate_root] reaches, with at
    least one frame on the stack, a [P] opcode followed by fewer than 33
    bytes in a proof shorter than 2^32 - 33 bytes, or reaches, with at
    least two frames, an [H] opcode followed by no byte, it returns
    [ERROR_INVALID_PROOF].  With a smaller stack depth, a [P] opcode on an
    empty stack or an [H] opcode on fewer than two frames, the stack check
    comes first and it returns [ERROR_INVALID_STACK], whatever follows the
    opcode. *)
Theorem truncated_operand (blake2b_256 : bytes -> bytes)
  (state : smt_state_t) (proof : bytes) (n : nat) (m : machine) :
  proof_ok proof = true ->
  run_steps blake2b_256 state proof n machine_init = Ok m ->
  (proof !! Z.to_nat (proof_index m) = Some 0x50 ->
   1 <= stack_top m ->
   proof_length proof - (proof_index m + 1) < 33 ->
   proof_length proof < UINT32_MOD - 33 ->
   smt_calculate_root blake2b_256 state proof = Err ERROR_INVALID_PROOF) /\
  (proof !! Z.to_nat (proof_index m) = Some 0x48 ->
   2 <= stack_top m ->
   proof_length proof = proof_index m + 1 ->
   smt_calculate_root blake2b_256 state proof = Err ERROR_INVALID_PROOF) /\
  (proof !! Z.to_nat (proof_index m) = Some 0x50 ->
   stack_top m = 0 ->
   smt_calculate_root blake2b_256 state proof = Err ERROR_INVALID_STACK) /\
  (proof !! Z.to_nat (proof_index m) = Some 0x48 ->
   stack_top m < 2 ->
   smt_calculate_root blake2b_256 state proof = Err ERROR_INVALID_STACK).
Proof.
  intros Hproof Hrun.
  pose proof (proof_ok_fits proof Hproof) as Hfits.
  split; [|split; [|split]].
  - intros Hop Htop Hshort Hlen.
    apply (calculate_root_error blake2b_256 state proof Hfits n m _ Hrun).
    exact (exec_proof_truncated blake2b_256 state proof n m Hproof Hrun
             Hop Htop Hshort Hlen).
  - intros Hop Htop Hend.
    apply (calculate_root_error blake2b_256 state proof Hfits n m _ Hrun).
    exact (exec_merge_truncated blake2b_256 state proof n m Hproof Hrun
             Hop Htop Hend).
  - intros Hop Htop.
    apply (calculate_root_error blake2b_256 state proof Hfits n m _ Hrun).
    unfold exec_opcode. rewrite Hop.
    change (80 =? 76) with false. change (80 =? 80) with true. cbv iota.
    unfold exec_proof, set_proof_index; simpl. rewrite Htop. reflexivity.
  - intros Hop Htop.
    apply (calculate_root_error blake2b_256 state proof Hfits n m _ Hrun).
    unfold exec_opcode. rewrite Hop.
    change (72 =? 76) with false. change (72 =? 80) with false.
    change (72 =? 72) with true. cbv iota.
    unfold exec_merge, set_proof_index; simpl.
    destruct (Z.ltb_spec (stack_top m) 2); [reflexivity | lia].
Qed.

Lemma truncated_operand_witness :
  let one := single_leaf_state 0 in
  let two := two_leaves_state (zero_bytes 32) single_leaf_value
               single_leaf_value 0 0 in
  let short_P := 0x4C :: 0x50 :: replicate 20 0 in
  let short_H := [0x4C; 0x4C; 0x48] in
  let early_P := 0x50 :: replicate 20 0 in
  let early_H := [0x4C; 0x48] in
  (proof_ok short_P = true /\
   run_steps sum_digest one short_P 1 machine_init
   = Ok (machine_after sum_digest one short_P 1) /\
   1 <= stack_top (machine_after sum_digest one short_P 1) /\
   proof_length short_P
   - (proof_index (machine_after sum_digest one short_P 1) + 1) < 33) /\
  smt_calculate_root sum_digest one short_P = Err ERROR_INVALID_PROOF /\
  (run_steps sum_digest two short_H 2 machine_init
   = Ok (machine_after sum_digest two short_H 2) /\
   2 <= stack_top (machine_after sum_digest two short_H 2) /\
   proof_length short_H
   = proof_index (machine_after sum_digest two short_H 2) + 1) /\
  smt_calculate_root sum_digest two short_H = Err ERROR_INVALID_PROOF /\
  smt_calculate_root sum_digest one early_P = Err ERROR_INVALID_STACK /\
  smt_calculate_root sum_digest one early_H = Err ERROR_INVALID_STACK.
Proof.
  intros one two short_P short_H early_P early_H.
  assert (run_steps sum_digest one short_P 1 machine_init
          = Ok (machine_after sum_digest one short_P 1)) as HrunP
    by (vm_compute; reflexivity).
  assert (run_steps sum_digest two short_H 2 machine_init
          = Ok (machine_after sum_digest two short_H 2)) as HrunH
    by (vm_compute; reflexivity).
  assert (run_steps sum_digest one early_H 1 machine_init
          = Ok (machine_after sum_digest one early_H 1)) as HrunE
    by (vm_compute; reflexivity).
  split; [|split; [|split; [|split; [|split]]]].
  - repeat split; try (vm_compute; congruence).
  - apply (proj1 (truncated_operand sum_digest one short_P 1 _ eq_refl HrunP));
      vm_compute; congruence.
  - repeat split; try (vm_compute; congruence).
  - apply (proj1 (proj2 (truncated_operand sum_digest two short_H 2 _ eq_refl HrunH)));
      vm_compute; congruence.
  - apply (proj1 (proj2 (proj2
             (truncated_operand sum_digest one early_P 0 machine_init eq_refl eq_refl))));
      reflexivity.
  - apply (proj2 (proj2 (proj2
             (truncated_operand sum_digest one early_H 1 _ eq_refl HrunE))));
      vm_compute; congruence.
Defined.

(** C8, as the claim states it, fails: a [P] opcode followed by no byte
    on an empty stack, and an [H] opcode followed by no byte on a stack of
    one frame, end the proof in the middle of an operand, and
    [smt_calculate_root] returns [ERROR_INVALID_STACK]. *)
Lemma truncated_operand_counterexample :
  smt_calculate_root sum_digest (smt_state_init [] 0) [0x50]
  = Err ERROR_INVALID_STACK /\
  smt_calculate_root sum_digest (single_leaf_state 0) [0x4C; 0x48]
  = Err ERROR_INVALID_STACK /\
  Err ERROR_INVALID_STACK <> (Err ERROR_INVALID_PROOF : result bytes).
Proof. repeat split. discriminate. Qed.

(** ** Insert and fetch *)

Lemma latest_snoc {A} (kf vf : A -> bytes) (l : list A) (x : A) (k : bytes) :
  latest kf vf (l ++ [x]) k
  = if decide (kf x = k) then Some (vf x) else latest kf vf l k.
Proof.
  induction l as [|y l IH]; simpl.
  - reflexivity.
  - rewrite IH. destruct (decide (kf x = k)); [reflexivity|].
    destruct (latest kf vf l k); reflexivity.
Qed.

Lemma latest_map {A B} (g : A -> B) (kf vf : B -> bytes) (l : list A) (k : bytes) :
  latest kf vf (map g l) k = latest (fun a => kf (g a)) (fun a => vf (g a)) l k.
Proof.
  induction l as [|y l IH]; simpl; [reflexivity|]. rewrite IH. reflexivity.
Qed.

Lemma latest_write_kv (l : list smt_pair_t) (k : bytes) :
  latest_write l k = latest fst snd (map pair_kv l) k.
Proof. unfold latest_write. rewrite latest_map. reflexivity. Qed.

(** The backward scan finds the last pair with the key among the first
    [n]. *)
Lemma scan_down_spec (ps : list smt_pair_t) (k : bytes) (n : nat) :
  length k = 32%nat -> (n <= length ps)%nat ->
  Forall (fun p => length (key p) = 32%nat) (take n ps) ->
  let i := scan_down ps k n in
  (i = -1 /\ latest_write (take n ps) k = None) \/
  (0 <= i < Z.of_nat n /\
   latest_write (take n ps) k = Some (value (arr_get ps i))).
Proof.
  intros Hk Hn Hkeys. induction n as [|n IH]; simpl.
  - left. rewrite take_0. split; reflexivity.
  - assert (ps !! n = Some (ps !!! n)) as Hlk
      by (apply list_lookup_lookup_total_lt; lia).
    rewrite (take_S_r _ _ _ Hlk) in Hkeys |- *.
    apply Forall_app in Hkeys as [Hkeys Hlast].
    apply Forall_inv in Hlast.
    unfold latest_write in *. rewrite latest_snoc.
    unfold SMT_KEY_BYTES.
    destruct (Z.eqb_spec (memcmp k (key (ps !!! n)) 32) 0) as [Heq|Hne].
    + apply memcmp_32_eq in Heq; [|done..].
      right. split; [lia|]. rewrite decide_True by (symmetry; exact Heq).
      unfold arr_get. rewrite Nat2Z.id. reflexivity.
    + rewrite decide_False.
      * destruct (IH ltac:(lia) Hkeys) as [[Hi Hl]|[Hi Hl]].
        -- left. split; assumption.
        -- right. split; [lia | assumption].
      * intros Heq. apply Hne. apply memcmp_32_eq; [done..|]. symmetry; exact Heq.
Qed.

Lemma to_int32_small (z : Z) : 0 <= z < 2 ^ 31 -> to_int32 z = z.
Proof.
  intros Hz. unfold to_int32, UINT32_MOD.
  rewrite Z.mod_small by lia.
  destruct (Z.ltb_spec z (2 ^ 31)); lia.
Qed.

Lemma to_int32_pred (z : Z) : 0 <= z <= 2 ^ 31 -> to_int32 (z - 1) = z - 1.
Proof.
  intros Hz. destruct (Z.eq_dec z 0) as [->|Hne]; [reflexivity|].
  apply to_int32_small. lia.
Qed.

(** [smt_state_fetch] on a state of at most 2^31 pairs. *)
Lemma fetch_latest_write (s : smt_state_t) (k : bytes) :
  length k = 32%nat ->
  0 <= len s <= Z.of_nat (length (pairs s)) -> len s <= 2 ^ 31 ->
  Forall (fun p => length (key p) = 32%nat) (live s) ->
  smt_state_fetch s k =
  match latest_write (live s) k with
  | Some v => Ok v
  | None => Err ERROR_NOT_FOUND
  end.
Proof.
  intros Hk Hlen Hmax Hkeys.
  unfold smt_state_fetch, scan_from, live in *.
  rewrite to_int32_pred by lia.
  destruct (Z.ltb_spec (len s - 1) 0) as [Hneg|Hpos].
  - replace (len s) with 0 by lia. simpl. destruct (Z.ltb_spec (0 - 1) 0); [done | lia].
  - replace (Z.to_nat (len s - 1 + 1)) with (Z.to_nat (len s)) by lia.
    destruct (scan_down_spec (pairs s) k (Z.to_nat (len s)) Hk ltac:(lia) Hkeys)
      as [[Hi ->]|[Hi ->]].
    + rewrite Hi. reflexivity.
    + destruct (Z.ltb_spec (scan_down (pairs s) k (Z.to_nat (len s))) 0);
        [lia | reflexivity].
Qed.

(** An insert below capacity appends the pair. *)
Lemma insert_append (s : smt_state_t) (k v : bytes) :
  0 <= len s < capacity s ->
  capacity s = Z.of_nat (length (pairs s)) -> capacity s < UINT32_MOD ->
  let s' := (smt_state_insert s k v).1 in
  (smt_state_insert s k v).2 = 0 /\
  len s' = len s + 1 /\ capacity s' = capacity s /\
  length (pairs s') = length (pairs s) /\
  map pair_kv (live s') = map pair_kv (live s) ++ [(k, v)].
Proof.
  intros Hlen Hcap Hfits. unfold smt_state_insert.
  destruct (Z.ltb_spec (len s) (capacity s)); [|lia]. simpl.
  rewrite to_uint32_small by lia.
  rewrite !length_arr_set. repeat split; try reflexivity.
  unfold live; simpl.
  replace (Z.to_nat (len s + 1)) with (S (Z.to_nat (len s))) by lia.
  unfold arr_set, arr_get.
  rewrite list_lookup_total_insert_eq by lia. rewrite list_insert_insert_eq.
  erewrite take_S_r; [|apply list_lookup_insert_eq; lia].
  rewrite take_insert_ge by lia.
  rewrite map_app. reflexivity.
Qed.

Lemma insert_all_live (calls : list (bytes * bytes)) (s : smt_state_t) :
  0 <= len s -> len s + Z.of_nat (length calls) <= capacity s ->
  capacity s = Z.of_nat (length (pairs s)) -> capacity s < UINT32_MOD ->
  let s' := insert_all s calls in
  len s' = len s + Z.of_nat (length calls) /\
  capacity s' = capacity s /\
  length (pairs s') = length (pairs s) /\
  map pair_kv (live s') = map pair_kv (live s) ++ calls.
Proof.
  revert s. induction calls as [|[k v] calls IH]; intros s Hlen Hroom Hcap Hfits.
  - simpl. rewrite app_nil_r. repeat split; lia.
  - rewrite length_cons in *.
    change (insert_all s ((k, v) :: calls))
      with (insert_all (smt_state_insert s k v).1 calls).
    destruct (insert_append s k v ltac:(lia) Hcap Hfits)
      as (_ & Hl & Hc & Hp & Hlive).
    set (s1 := (smt_state_insert s k v).1) in *.
    destruct (IH s1) as (Hl' & Hc' & Hp' & Hlive'); try lia.
    cbv zeta. rewrite Hl', Hc', Hp', Hlive', Hlive, Hl, Hc, Hp, <- app_assoc.
    repeat split; try reflexivity. lia.
Qed.

Lemma Forall_key_length (l : list smt_pair_t) :
  Forall (fun c : bytes * bytes => length c.1 = 32%nat) (map pair_kv l) ->
  Forall (fun p => length (key p) = 32%nat) l.
Proof. rewrite Forall_map. intros H. exact H. Qed.

(** C7, as the code has it: after any sequence of at most 2^31 inserts on
    an initialised state, during which [len] never reaches [capacity],
    [smt_state_fetch] of a key returns 0 with the value of the most recent
    insert of that key, and [ERROR_NOT_FOUND] when no insert used it. *)
Theorem insert_fetch (buffer : list smt_pair_t) (cap : Z)
  (calls : list (bytes * bytes)) (k : bytes) :
  cap = Z.of_nat (length buffer) -> cap < UINT32_MOD ->
  Forall (fun c : bytes * bytes => length c.1 = 32%nat) calls ->
  length k = 32%nat ->
  Z.of_nat (length calls) < cap ->
  Z.of_nat (length calls) <= 2 ^ 31 ->
  smt_state_fetch (insert_all (smt_state_init buffer cap) calls) k =
  match latest_insert calls k with
  | Some v => Ok v
  | None => Err ERROR_NOT_FOUND
  end.
Proof.
  intros Hcap Hfits Hkeys Hk Hroom Hmax.
  destruct (insert_all_live calls (smt_state_init buffer cap))
    as (Hl & Hc & Hp & Hlive); simpl; try lia.
  simpl in *.
  rewrite fetch_latest_write; try lia; try done.
  - rewrite latest_write_kv, Hlive. reflexivity.
  - apply Forall_key_length. rewrite Hlive. exact Hkeys.
Qed.

Lemma insert_fetch_witness :
  let k1 := replicate 32 1 in
  let k2 := replicate 32 2 in
  let v1 := replicate 32 5 in
  let v2 := replicate 32 6 in
  let buffer := replicate 4 (mk_pair k1 k1 0) in
  let calls := [(k1, v1); (k2, v1); (k1, v2)] in
  (4 = Z.of_nat (length buffer) /\ 4 < UINT32_MOD /\
   Forall (fun c : bytes * bytes => length c.1 = 32%nat) calls /\
   length k1 = 32%nat /\ Z.of_nat (length calls) < 4 /\
   Z.of_nat (length calls) <= 2 ^ 31) /\
  smt_state_fetch (insert_all (smt_state_init buffer 4) calls) k1 = Ok v2.
Proof.
  intros k1 k2 v1 v2 buffer calls.
  assert (4 = Z.of_nat (length buffer) /\ 4 < UINT32_MOD /\
          Forall (fun c : bytes * bytes => length c.1 = 32%nat) calls /\
          length k1 = 32%nat /\ Z.of_nat (length calls) < 4 /\
          Z.of_nat (length calls) <= 2 ^ 31) as Hyp.
  { repeat split; try reflexivity; try (vm_compute; congruence).
    repeat constructor. }
  split; [exact Hyp|].
  destruct Hyp as (H1 & H2 & H3 & H4 & H5 & H6).
  exact (insert_fetch buffer 4 calls k1 H1 H2 H3 H4 H5 H6).
Defined.

(** Beyond 2^31 pairs the [int32_t] index of the scan starts negative. *)
Lemma fetch_beyond_int32 (s : smt_state_t) (k : bytes) :
  2 ^ 31 < len s < UINT32_MOD -> smt_state_fetch s k = Err ERROR_NOT_FOUND.
Proof.
  intros Hlen. unfold smt_state_fetch, scan_from.
  assert (to_int32 (len s - 1) < 0) as Hneg.
  { unfold to_int32, UINT32_MOD in *. rewrite Z.mod_small by lia.
    destruct (Z.ltb_spec (len s - 1) (2 ^ 31)); lia. }
  destruct (Z.ltb_spec (to_int32 (len s - 1)) 0) as [_|]; [|lia].
  destruct (Z.ltb_spec (to_int32 (len s - 1)) 0) as [_|]; [|lia].
  reflexivity.
Qed.

Lemma latest_insert_replicate (n : nat) (k v : bytes) :
  (0 < n)%nat -> latest_insert (replicate n (k, v)) k = Some v.
Proof.
  intros Hn. unfold latest_insert. induction n as [|n IH]; [lia|].
  simpl. destruct n as [|n].
  - simpl. rewrite decide_True by reflexivity. reflexivity.
  - rewrite IH by lia. reflexivity.
Qed.

Lemma fetch_after_many_inserts (n : nat) (k v : bytes) (p0 : smt_pair_t) :
  2 ^ 31 < Z.of_nat n -> Z.of_nat n + 1 < UINT32_MOD ->
  smt_state_fetch
    (insert_all (smt_state_init (replicate (S n) p0) (Z.of_nat n + 1))
       (replicate n (k, v))) k
  = Err ERROR_NOT_FOUND.
Proof.
  intros Hbig Hfits.
  destruct (insert_all_live (replicate n (k, v))
              (smt_state_init (replicate (S n) p0) (Z.of_nat n + 1)))
    as (Hl & _).
  - cbn [len smt_state_init]; lia.
  - cbn [len capacity smt_state_init]. rewrite length_replicate. lia.
  - cbn [pairs capacity smt_state_init]. rewrite length_replicate. lia.
  - cbn [capacity smt_state_init]. exact Hfits.
  - apply fetch_beyond_int32. rewrite Hl. cbn [len smt_state_init].
    rewrite length_replicate. lia.
Qed.

(** C7, as the claim states it, fails beyond 2^31 pairs: after 2^31 + 1
    inserts of one key into a state of capacity 2^31 + 2,
    [smt_state_fetch] of that key returns [ERROR_NOT_FOUND]. *)
Lemma insert_fetch_counterexample :
  let k := zero_bytes 32 in
  let v := single_leaf_value in
  let n := Z.to_nat 2147483649 in
  let calls := replicate n (k, v) in
  let buffer := replicate (S n) (mk_pair k k 0) in
  let s := insert_all (smt_state_init buffer (Z.of_nat (S n))) calls in
  Z.of_nat (S n) < UINT32_MOD /\
  Z.of_nat (length calls) < Z.of_nat (S n) /\
  latest_insert calls k = Some v /\
  smt_state_fetch s k = Err ERROR_NOT_FOUND.
Proof.
  intros k v n calls buffer s.
  assert (Z.of_nat n = 2147483649) as Hn by (subst n; apply Z2Nat.id; lia).
  clearbody n. subst calls buffer s.
  split; [unfold UINT32_MOD; lia|].
  split; [rewrite length_replicate; lia|].
  split; [apply latest_insert_replicate; lia|].
  rewrite Nat2Z.inj_succ. unfold Z.succ.
  apply fetch_after_many_inserts; unfold UINT32_MOD; lia.
Qed.

(** ** Normalisation: numbering the pairs *)

Lemma assign_orders_fold (ps : list smt_pair_t) (n : Z) (c : nat) :
  (c <= length ps)%nat ->
  foldl (fun ps i => arr_set ps i (set_pair_order (arr_get ps i) (to_uint32 (n - i))))
    ps (seqZ 0 (Z.of_nat c))
  = imap (fun i p => set_pair_order p (to_uint32 (n - Z.of_nat i))) (take c ps)
    ++ drop c ps.
Proof.
  induction c as [|c IH]; intros Hc.
  - rewrite seqZ_nil by lia. reflexivity.
  - rewrite seqZ_S, foldl_app, IH by lia. simpl foldl. rewrite Z.add_0_l.
    assert (ps !! c = Some (ps !!! c)) as Hlk
      by (apply list_lookup_lookup_total_lt; lia).
    set (g := fun (i : nat) p => set_pair_order p (to_uint32 (n - Z.of_nat i))).
    assert (length (imap g (take c ps)) = c) as Hlen
      by (rewrite length_imap, length_take; lia).
    unfold arr_set, arr_get. rewrite Nat2Z.id.
    rewrite lookup_total_app_r by lia.
    rewrite Hlen, Nat.sub_diag.
    rewrite (drop_S _ _ _ Hlk). simpl.
    rewrite insert_app_r_alt by lia. rewrite Hlen, Nat.sub_diag. simpl.
    rewrite (take_S_r _ _ _ Hlk), imap_app. simpl.
    rewrite length_take_le, Nat.add_0_r by lia.
    rewrite <- app_assoc. reflexivity.
Qed.

Lemma tagged_imap (s : smt_state_t) :
  0 <= len s <= Z.of_nat (length (pairs s)) ->
  tagged s
  = imap (fun i p => set_pair_order p (to_uint32 (len s - Z.of_nat i))) (live s).
Proof.
  intros Hlen. unfold tagged, assign_orders, live.
  rewrite <- (Z2Nat.id (len s)) at 2 by lia.
  rewrite assign_orders_fold by lia.
  rewrite take_app_length'; [reflexivity|].
  rewrite length_imap, length_take. lia.
Qed.

Lemma assign_orders_drop (s : smt_state_t) :
  0 <= len s <= Z.of_nat (length (pairs s)) ->
  assign_orders (pairs s) (len s) = tagged s ++ drop (Z.to_nat (len s)) (pairs s).
Proof.
  intros Hlen. rewrite tagged_imap by exact Hlen.
  unfold assign_orders, live.
  rewrite <- (Z2Nat.id (len s)) at 1 by lia.
  rewrite assign_orders_fold by lia. reflexivity.
Qed.

Lemma tagged_lookup (s : smt_state_t) (i : nat) (q : smt_pair_t) :
  0 <= len s <= Z.of_nat (length (pairs s)) ->
  tagged s !! i = Some q <->
  exists p, live s !! i = Some p /\
    q = set_pair_order p (to_uint32 (len s - Z.of_nat i)).
Proof.
  intros Hlen. rewrite tagged_imap, list_lookup_imap by exact Hlen.
  destruct (live s !! i) as [p|]; simpl.
  - split; [intros [= <-]; eauto | intros (p' & [= <-] & ->); reflexivity].
  - split; [discriminate | intros (p' & [=] & _)].
Qed.

Lemma length_live (s : smt_state_t) :
  0 <= len s <= Z.of_nat (length (pairs s)) ->
  length (live s) = Z.to_nat (len s).
Proof. intros Hlen. unfold live. rewrite length_take. lia. Qed.

Lemma length_tagged (s : smt_state_t) :
  0 <= len s <= Z.of_nat (length (pairs s)) ->
  length (tagged s) = Z.to_nat (len s).
Proof.
  intros Hlen. rewrite tagged_imap, length_imap by exact Hlen.
  apply length_live, Hlen.
Qed.

(** ** Normalisation: sorting *)

Lemma qsort_insert_perm {A} (cmp : A -> A -> Z) (x : A) (l : list A) :
  qsort_insert cmp x l ≡ₚ x :: l.
Proof.
  induction l as [|y l IH]; simpl; [reflexivity|].
  destruct (cmp x y <=? 0); [reflexivity|].
  rewrite IH. apply Permutation_swap.
Qed.

Lemma qsort_perm {A} (cmp : A -> A -> Z) (l : list A) : qsort cmp l ≡ₚ l.
Proof.
  induction l as [|x l IH]; simpl; [reflexivity|].
  rewrite qsort_insert_perm, IH. reflexivity.
Qed.

Section Sorting.

Context {A : Type} (cmp : A -> A -> Z) (rank : A -> Z).

Lemma qsort_insert_sorted (x : A) (l : list A) :
  (forall y, y ∈ l -> cmp x y <= 0 <-> rank x <= rank y) ->
  StronglySorted (rank_le rank) l -> StronglySorted (rank_le rank) (qsort_insert cmp x l).
Proof.
  intros Hcmp Hs. induction l as [|y l IH]; simpl.
  - repeat constructor.
  - apply StronglySorted_inv in Hs as [Hs Hy].
    destruct (Z.leb_spec (cmp x y) 0) as [Hle|Hgt].
    + apply Hcmp in Hle; [|left]. constructor; [constructor; assumption|].
      constructor; [exact Hle|].
      eapply Forall_impl; [exact Hy|]. unfold rank_le. intros z Hz. lia.
    + assert (rank y <= rank x) as Hyx.
      { destruct (Z.le_gt_cases (rank x) (rank y)) as [Hxy|]; [|lia].
        apply Hcmp in Hxy; [lia | left]. }
      constructor.
      * apply IH; [|exact Hs]. intros z Hz. apply Hcmp. right. exact Hz.
      * rewrite qsort_insert_perm. constructor; assumption.
Qed.

Lemma qsort_sorted (l : list A) :
  (forall x y, x ∈ l -> y ∈ l -> cmp x y <= 0 <-> rank x <= rank y) ->
  StronglySorted (rank_le rank) (qsort cmp l).
Proof.
  induction l as [|x l IH]; intros Hcmp; simpl.
  - constructor.
  - apply qsort_insert_sorted.
    + intros y Hy. rewrite qsort_perm in Hy.
      apply Hcmp; [left | right; exact Hy].
    + apply IH. intros a b Ha Hb. apply Hcmp; right; assumption.
Qed.

End Sorting.

(** ** The comparator and the key ordering *)

Lemma key_num_bound (k : bytes) (n : nat) :
  (forall i : nat, (i < n)%nat -> 0 <= k !!! i < 256) ->
  0 <= key_num k n < 256 ^ Z.of_nat n.
Proof.
  induction n as [|n IH]; intros Hb; simpl key_num.
  - change (256 ^ Z.of_nat 0) with 1. lia.
  - specialize (IH ltac:(intros i Hi; apply Hb; lia)).
    specialize (Hb n ltac:(lia)).
    rewrite Nat2Z.inj_succ, Z.pow_succ_r by lia.
    assert (0 < 256 ^ Z.of_nat n) by (apply Z.pow_pos_nonneg; lia). nia.
Qed.

Lemma key_num_lt (a b : bytes) (n : nat) :
  (forall i : nat, (i < n)%nat -> 0 <= a !!! i < 256) ->
  (forall i : nat, (i < n)%nat -> 0 <= b !!! i < 256) ->
  key_num a n < key_num b n ->
  exists i : nat, (i < n)%nat /\ a !!! i < b !!! i /\
    forall j : nat, (i < j < n)%nat -> a !!! j = b !!! j.
Proof.
  induction n as [|n IH]; intros Ha Hb; simpl key_num; [lia|].
  pose proof (key_num_bound a n ltac:(intros i Hi; apply Ha; lia)) as Hka.
  pose proof (key_num_bound b n ltac:(intros i Hi; apply Hb; lia)) as Hkb.
  intros Hlt.
  destruct (Z.lt_trichotomy (a !!! n) (b !!! n)) as [Hc|[Hc|Hc]].
  - exists n. split; [lia|]. split; [exact Hc|]. intros j Hj. lia.
  - destruct IH as (i & Hi & Hab & Heq).
    + intros i Hi; apply Ha; lia.
    + intros i Hi; apply Hb; lia.
    + rewrite Hc in Hlt. lia.
    + exists i. split; [lia|]. split; [exact Hab|]. intros j Hj.
      destruct (decide (j = n)) as [->|Hne]; [exact Hc | apply Heq; lia].
  - exfalso. nia.
Qed.

Lemma key_num_eq (a b : bytes) (n : nat) :
  (forall i : nat, (i < n)%nat -> 0 <= a !!! i < 256) ->
  (forall i : nat, (i < n)%nat -> 0 <= b !!! i < 256) ->
  key_num a n = key_num b n ->
  forall i : nat, (i < n)%nat -> a !!! i = b !!! i.
Proof.
  induction n as [|n IH]; intros Ha Hb; simpl key_num; [lia|].
  pose proof (key_num_bound a n ltac:(intros i Hi; apply Ha; lia)) as Hka.
  pose proof (key_num_bound b n ltac:(intros i Hi; apply Hb; lia)) as Hkb.
  intros Heq.
  assert (a !!! n = b !!! n) as Hc by nia.
  intros i Hi. destruct (decide (i = n)) as [->|Hne]; [exact Hc|].
  rewrite Hc in Heq.
  apply IH; [intros j Hj; apply Ha; lia | intros j Hj; apply Hb; lia | lia | lia].
Qed.

Lemma key_num_inj (a b : bytes) :
  bytes32 a = true -> bytes32 b = true -> key_num a 32 = key_num b 32 -> a = b.
Proof.
  intros Ha Hb Heq.
  apply bytes_eq32_eq; [apply bytes32_length, Ha | apply bytes32_length, Hb|].
  intros i Hi. apply (key_num_eq a b 32); [| |exact Heq|exact Hi].
  - intros j Hj. apply bytes32_byte; done.
  - intros j Hj. apply bytes32_byte; done.
Qed.

Lemma key_num_key_lt (a b : bytes) :
  bytes32 a = true -> bytes32 b = true ->
  key_num a 32 < key_num b 32 -> key_lt a b.
Proof.
  intros Ha Hb Hlt. apply (key_num_lt a b 32); [| |exact Hlt].
  - intros i Hi. apply bytes32_byte; done.
  - intros i Hi. apply bytes32_byte; done.
Qed.

Lemma to_int32_diff (a b : Z) :
  0 <= a < 2 ^ 31 -> 0 <= b < 2 ^ 31 -> to_int32 (a - b) = a - b.
Proof.
  intros Ha Hb. unfold to_int32, UINT32_MOD.
  destruct (Z.le_gt_cases b a) as [Hle|Hgt].
  - rewrite Z.mod_small by lia. destruct (Z.ltb_spec (a - b) (2 ^ 31)); lia.
  - replace ((a - b) mod 2 ^ 32) with (a - b + 2 ^ 32).
    + destruct (Z.ltb_spec (a - b + 2 ^ 32) (2 ^ 31)); lia.
    + apply (Z.mod_unique _ _ (-1)); lia.
Qed.

(** On pairs numbered below 2^31, [_smt_pair_cmp] orders by key number,
    then by order. *)
Lemma pair_cmp_from_rank (pa pb : smt_pair_t) (n : nat) :
  (forall i : nat, (i < n)%nat -> 0 <= key pa !!! i < 256) ->
  (forall i : nat, (i < n)%nat -> 0 <= key pb !!! i < 256) ->
  0 <= order pa < 2 ^ 31 -> 0 <= order pb < 2 ^ 31 ->
  pair_cmp_from pa pb n <= 0 <->
  key_num (key pa) n * UINT32_MOD + order pa
  <= key_num (key pb) n * UINT32_MOD + order pb.
Proof.
  intros Ha Hb Hoa Hob. unfold UINT32_MOD.
  induction n as [|n IH]; simpl pair_cmp_from; simpl key_num.
  - rewrite to_int32_diff by assumption. lia.
  - pose proof (key_num_bound (key pa) n ltac:(intros i Hi; apply Ha; lia)) as Hka.
    pose proof (key_num_bound (key pb) n ltac:(intros i Hi; apply Hb; lia)) as Hkb.
    specialize (IH ltac:(intros i Hi; apply Ha; lia)
                   ltac:(intros i Hi; apply Hb; lia)).
    destruct (Z.eqb_spec (key pa !!! n - key pb !!! n) 0) as [Hd|Hd].
    + assert (key pa !!! n = key pb !!! n) as -> by lia. rewrite IH. lia.
    + set (x := key pa !!! n) in *. set (y := key pb !!! n) in *.
      set (P := 256 ^ Z.of_nat n) in *.
      set (ka := key_num (key pa) n) in *. set (kb := key_num (key pb) n) in *.
      split; intros H.
      * assert (x + 1 <= y) as Hxy by lia.
        assert ((x + 1) * P <= y * P) by (apply Z.mul_le_mono_nonneg_r; lia).
        lia.
      * assert (~ (y + 1 <= x)); [|lia]. intros Hyx.
        assert ((y + 1) * P <= x * P) by (apply Z.mul_le_mono_nonneg_r; lia).
        lia.
Qed.

Lemma pair_cmp_rank (pa pb : smt_pair_t) :
  bytes32 (key pa) = true -> bytes32 (key pb) = true ->
  0 <= order pa < 2 ^ 31 -> 0 <= order pb < 2 ^ 31 ->
  _smt_pair_cmp pa pb <= 0 <-> pair_rank pa <= pair_rank pb.
Proof.
  intros Ha Hb Hoa Hob. unfold _smt_pair_cmp, pair_rank.
  apply pair_cmp_from_rank; try assumption.
  - intros i Hi. apply bytes32_byte; [done | exact Hi].
  - intros i Hi. apply bytes32_byte; [done | exact Hi].
Qed.

(** ** Normalisation: removing duplicates *)

Lemma run_heads_after_skip (l : list smt_pair_t) (k : bytes) (a b : nat) :
  (a <= b <= length l)%nat ->
  (forall j : nat, (a <= j < b)%nat -> key (l !!! j) = k) ->
  run_heads_after k (drop a l) = run_heads_after k (drop b l).
Proof.
  intros [Hab Hb] Hrun. induction b as [|b IH].
  - replace a with 0%nat by lia. reflexivity.
  - destruct (decide (a = S b)) as [->|Hne]; [reflexivity|].
    rewrite IH by (try lia; intros j Hj; apply Hrun; lia).
    assert (l !! b = Some (l !!! b)) as Hlk
      by (apply list_lookup_lookup_total_lt; lia).
    rewrite (drop_S _ _ _ Hlk). simpl.
    rewrite decide_True by (apply Hrun; lia). reflexivity.
Qed.

Lemma run_heads_after_ne (l : list smt_pair_t) (k : bytes) :
  (forall x l', l = x :: l' -> key x <> k) ->
  run_heads_after k l = run_heads l.
Proof.
  intros Hne. destruct l as [|x l']; simpl; [reflexivity|].
  rewrite decide_False by (eapply Hne; reflexivity). reflexivity.
Qed.

Section Dedup.

Variable ps0 : list smt_pair_t.
Variable n : nat.
Hypothesis n_le : (n <= length ps0)%nat.
Hypothesis keys_wf : Forall (fun p => length (key p) = 32%nat) (take n ps0).

Lemma key_length_lt (j : nat) : (j < n)%nat -> length (key (ps0 !!! j)) = 32%nat.
Proof.
  intros Hj. rewrite Forall_lookup in keys_wf.
  apply (keys_wf j). rewrite lookup_take_lt by lia.
  apply list_lookup_lookup_total_lt. lia.
Qed.

Lemma skip_run_spec (fuel : nat) (ps : list smt_pair_t) (item next : nat) :
  (forall j : nat, (item <= j < n)%nat -> ps !!! j = ps0 !!! j) ->
  (item < next <= n)%nat -> (n - next <= fuel)%nat ->
  exists nx : nat,
    skip_run fuel ps (Z.of_nat item) (Z.of_nat next) (Z.of_nat n) = Z.of_nat nx /\
    (next <= nx <= n)%nat /\
    (forall j : nat, (next <= j < nx)%nat -> key (ps0 !!! j) = key (ps0 !!! item)) /\
    ((nx < n)%nat -> key (ps0 !!! nx) <> key (ps0 !!! item)).
Proof.
  intros Hps. revert next. induction fuel as [|fuel IH]; intros next Hnext Hfuel.
  - exists next. simpl. repeat split; try lia; try (intros; lia).
  - simpl. destruct (Z.ltb_spec (Z.of_nat next) (Z.of_nat n)) as [Hlt|Hge]; simpl.
    + unfold arr_get. rewrite !Nat2Z.id, !Hps by lia. unfold SMT_KEY_BYTES.
      destruct (Z.eqb_spec (memcmp (key (ps0 !!! item)) (key (ps0 !!! next)) 32) 0)
        as [Heq|Hne].
      * apply memcmp_32_eq in Heq; [|apply key_length_lt; lia..].
        replace (Z.of_nat next + 1) with (Z.of_nat (S next)) by lia.
        destruct (IH (S next) ltac:(lia) ltac:(lia)) as (nx & Hnx & Hr & Hrun & Hstop).
        exists nx. repeat split; try lia; try assumption.
        intros j Hj. destruct (decide (j = next)) as [->|Hj']; [done|].
        apply Hrun. lia.
      * exists next. repeat split; try lia; try (intros; lia).
        intros _ Heq. apply Hne. apply memcmp_32_eq;
          [apply key_length_lt; lia.. | done].
    + exists next. repeat split; try lia; try (intros; lia).
Qed.

Lemma dedup_loop_spec (fuel : nat) (ps : list smt_pair_t) (sd nx : nat) :
  length ps = length ps0 -> (sd <= nx <= n)%nat ->
  drop nx ps = drop nx ps0 -> (n - nx <= fuel)%nat ->
  exists (ps' : list smt_pair_t) (sd' : nat),
    dedup_loop fuel ps (Z.of_nat sd) (Z.of_nat nx) (Z.of_nat n)
    = (ps', Z.of_nat sd') /\
    length ps' = length ps0 /\ (sd' <= n)%nat /\
    map pair_kv (take sd' ps')
    = map pair_kv (take sd ps) ++ map pair_kv (run_heads (drop nx (take n ps0))).
Proof.
  revert ps sd nx. induction fuel as [|fuel IH]; intros ps sd nx Hlen Hsd Hdrop Hfuel.
  - exists ps, sd. simpl. repeat split; try lia.
    rewrite drop_ge by (rewrite length_take; lia). simpl.
    rewrite app_nil_r. reflexivity.
  - simpl. destruct (Z.ltb_spec (Z.of_nat nx) (Z.of_nat n)) as [Hlt|Hge].
    + assert (forall j : nat, (nx <= j)%nat -> ps !!! j = ps0 !!! j) as Hps.
      { intros j Hj. replace j with (nx + (j - nx))%nat by lia.
        rewrite <- !lookup_total_drop, Hdrop. reflexivity. }
      replace (Z.of_nat nx + 1) with (Z.of_nat (S nx)) by lia.
      destruct (skip_run_spec (Z.to_nat (Z.of_nat n - Z.of_nat (S nx))) ps nx (S nx))
        as (nx2 & -> & Hnx2 & Hrun & Hstop); [intros j Hj; apply Hps; lia | lia..|].
      set (x := ps0 !!! nx).
      set (ps' := if negb (Z.of_nat nx =? Z.of_nat sd)
                  then _ else ps).
      assert (length ps' = length ps0 /\ take sd ps' = take sd ps /\
              drop nx2 ps' = drop nx2 ps0 /\ pair_kv (ps' !!! sd) = pair_kv x)
        as (Hlen' & Htake & Hdrop' & Hkv).
      { subst ps'. destruct (Z.eqb_spec (Z.of_nat nx) (Z.of_nat sd)) as [Heq|Hne]; simpl.
        - assert (sd = nx) as -> by lia. repeat split; try done.
          + replace nx2 with (nx + (nx2 - nx))%nat by lia.
            rewrite <- !drop_drop, Hdrop. reflexivity.
          + rewrite Hps by lia. reflexivity.
        - unfold arr_set, arr_get. rewrite !Nat2Z.id.
          rewrite list_lookup_total_insert_eq by lia.
          rewrite (list_lookup_total_insert_ne _ sd nx) by lia.
          rewrite list_insert_insert_eq, (Hps nx) by lia.
          repeat split.
          + rewrite length_insert. exact Hlen.
          + apply take_insert_ge. lia.
          + rewrite drop_insert_lt by lia.
            replace nx2 with (nx + (nx2 - nx))%nat by lia.
            rewrite <- !drop_drop, Hdrop. reflexivity.
          + rewrite list_lookup_total_insert_eq by lia. reflexivity. }
      replace (Z.of_nat sd + 1) with (Z.of_nat (S sd)) by lia.
      destruct (IH ps' (S sd) nx2 Hlen' ltac:(lia) Hdrop' ltac:(lia))
        as (ps'' & sd' & -> & Hlen'' & Hsd' & Hmap).
      exists ps'', sd'. repeat split; try assumption.
      rewrite Hmap.
      assert (ps' !! sd = Some (ps' !!! sd)) as Hlk
        by (apply list_lookup_lookup_total_lt; lia).
      rewrite (take_S_r _ _ _ Hlk), Htake, map_app, <- app_assoc. f_equal.
      simpl. rewrite Hkv.
      assert (take n ps0 !! nx = Some x) as Hx.
      { rewrite lookup_take_lt by lia. apply list_lookup_lookup_total_lt. lia. }
      rewrite (drop_S _ _ _ Hx). simpl. f_equal. f_equal.
      assert (forall j : nat, (j < n)%nat -> take n ps0 !!! j = ps0 !!! j) as Hl.
      { intros j Hj. apply lookup_total_take_lt. lia. }
      rewrite (run_heads_after_skip _ (key x) (S nx) nx2).
      * symmetry. apply run_heads_after_ne. intros y l' Hy.
        assert (nx2 < n)%nat as Hlt2.
        { destruct (decide (nx2 < n)%nat); [done|].
          rewrite drop_ge in Hy by (rewrite length_take; lia). discriminate. }
        apply drop_cons_inv in Hy as [Hy _].
        rewrite lookup_take_lt in Hy by lia.
        apply list_lookup_total_correct in Hy. rewrite <- Hy.
        apply Hstop, Hlt2.
      * rewrite length_take. lia.
      * intros j Hj. rewrite Hl by lia. apply Hrun. lia.
    + exists ps, sd. repeat split; try lia.
      rewrite drop_ge by (rewrite length_take; lia). simpl.
      rewrite app_nil_r. reflexivity.
Qed.

End Dedup.

(** ** Normalisation: the first pair of every run *)

#[local] Arguments key_num : simpl never.

Lemma rank_le_key_num (a b : smt_pair_t) :
  numbered_ok a -> numbered_ok b -> rank_le pair_rank a b ->
  key_num (key a) 32 <= key_num (key b) 32 /\
  (key a = key b -> order a <= order b).
Proof.
  intros [_ Hoa] [_ Hob]. unfold rank_le, pair_rank, UINT32_MOD. intros Hr.
  split; [lia|]. intros Heq. rewrite Heq in Hr. lia.
Qed.

Lemma key_num_neq (a b : bytes) :
  bytes32 a = true -> bytes32 b = true -> a <> b ->
  key_num a 32 <> key_num b 32.
Proof. intros Ha Hb Hne Heq. apply Hne, key_num_inj; assumption. Qed.

Lemma run_heads_after_sorted (l : list smt_pair_t) (k : bytes) :
  bytes32 k = true ->
  StronglySorted (rank_le pair_rank) l -> Forall numbered_ok l ->
  (forall e, e ∈ l -> key_num k 32 <= key_num (key e) 32) ->
  Forall (fun h => key_num k 32 < key_num (key h) 32) (run_heads_after k l) /\
  StronglySorted key_num_below (run_heads_after k l) /\
  forall h, h ∈ run_heads_after k l ->
    h ∈ l /\ forall e, e ∈ l -> key e = key h -> order h <= order e.
Proof.
  intros Hk Hs Hwf. revert k Hk.
  induction l as [|y l IH]; intros k Hk Hlow; simpl.
  - split; [constructor|]. split; [constructor|]. intros h Hh. inversion Hh.
  - apply StronglySorted_inv in Hs as [Hs Hy].
    apply Forall_cons in Hwf as [Hwy Hwf].
    rewrite Forall_forall in Hy, Hwf.
    destruct (decide (key y = k)) as [Hyk|Hyk].
    + destruct (IH Hs ltac:(apply Forall_forall, Hwf) k Hk) as (Hgt & Hss & Hmin).
      { intros e He. apply Hlow. right. exact He. }
      split; [exact Hgt|]. split; [exact Hss|].
      intros h Hh. destruct (Hmin h Hh) as [Hin Hle].
      split; [right; exact Hin|].
      intros e He Hkey. apply elem_of_cons in He as [->|He]; [|apply Hle; done].
      exfalso. rewrite Forall_forall in Hgt. specialize (Hgt h Hh).
      rewrite <- Hkey, Hyk in Hgt. lia.
    + destruct (IH Hs ltac:(apply Forall_forall, Hwf) (key y) (proj1 Hwy))
        as (Hgt & Hss & Hmin).
      { intros e He.
        apply (rank_le_key_num y e Hwy (Hwf e He) (Hy e He)). }
      assert (key_num k 32 < key_num (key y) 32) as Hky.
      { pose proof (Hlow y ltac:(left)) as Hle.
        pose proof (key_num_neq (key y) k (proj1 Hwy) Hk Hyk). lia. }
      split; [|split].
      * constructor; [exact Hky|].
        eapply Forall_impl; [exact Hgt|]. simpl. intros h Hh. lia.
      * constructor; [exact Hss | exact Hgt].
      * intros h Hh. apply elem_of_cons in Hh as [->|Hh].
        -- split; [left|]. intros e He Hkey.
           apply elem_of_cons in He as [->|He]; [lia|].
           apply (rank_le_key_num y e Hwy (Hwf e He) (Hy e He)).
           symmetry; exact Hkey.
        -- destruct (Hmin h Hh) as [Hin Hle]. split; [right; exact Hin|].
           intros e He Hkey. apply elem_of_cons in He as [->|He]; [|apply Hle; done].
           exfalso. rewrite Forall_forall in Hgt. specialize (Hgt h Hh).
           rewrite Hkey in Hgt. lia.
Qed.

Lemma run_heads_sorted (l : list smt_pair_t) :
  StronglySorted (rank_le pair_rank) l -> Forall numbered_ok l ->
  StronglySorted key_num_below (run_heads l) /\
  forall h, h ∈ run_heads l ->
    h ∈ l /\ forall e, e ∈ l -> key e = key h -> order h <= order e.
Proof.
  intros Hs Hwf. destruct l as [|y l]; simpl.
  - split; [constructor|]. intros h Hh. inversion Hh.
  - apply StronglySorted_inv in Hs as [Hs Hy].
    apply Forall_cons in Hwf as [Hwy Hwf].
    rewrite Forall_forall in Hy, Hwf.
    destruct (run_heads_after_sorted l (key y) (proj1 Hwy) Hs
                ltac:(apply Forall_forall, Hwf)) as (Hgt & Hss & Hmin).
    { intros e He. apply (rank_le_key_num y e Hwy (Hwf e He) (Hy e He)). }
    split; [constructor; [exact Hss | exact Hgt]|].
    intros h Hh. apply elem_of_cons in Hh as [->|Hh].
    + split; [left|]. intros e He Hkey.
      apply elem_of_cons in He as [->|He]; [lia|].
      apply (rank_le_key_num y e Hwy (Hwf e He) (Hy e He)).
      symmetry; exact Hkey.
    + destruct (Hmin h Hh) as [Hin Hle]. split; [right; exact Hin|].
      intros e He Hkey. apply elem_of_cons in He as [->|He]; [|apply Hle; done].
      exfalso. rewrite Forall_forall in Hgt. specialize (Hgt h Hh).
      rewrite Hkey in Hgt. lia.
Qed.

(** ** Normalisation as a whole *)

Section Normalize.

Variable s : smt_state_t.
Hypothesis s_wf : state_ok s = true.

Lemma state_ok_len : 0 <= len s <= Z.of_nat (length (pairs s)).
Proof. apply state_ok_iff in s_wf as (Hlen & Hcap & _). lia. Qed.

Lemma state_ok_len_fits : len s < UINT32_MOD.
Proof. apply state_ok_iff in s_wf as (Hlen & Hcap & Hfits & _). lia. Qed.

Lemma live_pair_ok (p : smt_pair_t) : p ∈ live s -> pair_ok p = true.
Proof.
  intros Hin. apply state_ok_iff in s_wf as (_ & _ & _ & Hp).
  rewrite Forall_forall in Hp. apply Hp.
  unfold live in Hin. apply elem_of_take in Hin as (i & Hi & _).
  apply list_elem_of_lookup. eauto.
Qed.

Lemma tagged_elem (q : smt_pair_t) :
  q ∈ tagged s ->
  exists (i : nat) (p : smt_pair_t),
    live s !! i = Some p /\ (i < Z.to_nat (len s))%nat /\
    q = set_pair_order p (len s - Z.of_nat i).
Proof.
  intros Hin. apply list_elem_of_lookup in Hin as [i Hi].
  apply (tagged_lookup s i q state_ok_len) in Hi as (p & Hp & ->).
  pose proof (lookup_lt_Some _ _ _ Hp) as Hlt.
  rewrite (length_live s state_ok_len) in Hlt.
  exists i, p. split; [exact Hp|]. split; [exact Hlt|].
  pose proof state_ok_len_fits. rewrite to_uint32_small by lia. reflexivity.
Qed.

Lemma tagged_numbered : len s < 2 ^ 31 -> Forall numbered_ok (tagged s).
Proof.
  intros Hsmall. apply Forall_forall. intros q Hq.
  destruct (tagged_elem q Hq) as (i & p & Hp & Hi & ->).
  apply list_elem_of_lookup_2, live_pair_ok in Hp.
  unfold pair_ok in Hp. apply andb_true_iff in Hp as [Hk _].
  split; [exact Hk | simpl; lia].
Qed.


(** Below 2^31 pairs, the pairs left are the first pairs of the runs of
    equal keys of the sorted array, in that order. *)
Lemma normalize_live :
  len s < 2 ^ 31 ->
  map pair_kv (live (smt_state_normalize s))
  = map pair_kv (run_heads (qsort _smt_pair_cmp (tagged s))).
Proof.
  intros Hsmall. pose proof state_ok_len as Hlen.
  unfold smt_state_normalize.
  fold (tagged s). rewrite to_int32_small by lia.
  set (n := Z.to_nat (len s)).
  set (ps2 := qsort _smt_pair_cmp (tagged s)
              ++ drop n (assign_orders (pairs s) (len s))).
  assert (length (qsort _smt_pair_cmp (tagged s)) = n) as Hqlen.
  { rewrite (Permutation_length (qsort_perm _ _)). apply length_tagged, Hlen. }
  assert (take n ps2 = qsort _smt_pair_cmp (tagged s)) as Htake
    by (subst ps2; apply take_app_length'; symmetry; exact Hqlen).
  assert (n <= length ps2)%nat as Hn
    by (subst ps2; rewrite length_app; lia).
  assert (Forall (fun p => length (key p) = 32%nat) (take n ps2)) as Hkeys.
  { rewrite Htake, (qsort_perm _ _).
    eapply Forall_impl; [exact (tagged_numbered Hsmall)|].
    intros p [Hk _]. apply bytes32_length, Hk. }
  destruct (dedup_loop_spec ps2 n Hn Hkeys n ps2 0 0 eq_refl ltac:(lia) eq_refl
              ltac:(lia)) as (ps' & sd' & Hloop & Hlen' & Hsd' & Hmap).
  change (Z.of_nat 0) with 0 in Hloop.
  replace (Z.of_nat n) with (len s) in Hloop by (subst n; lia).
  rewrite Hloop. unfold live. simpl.
  rewrite to_uint32_small by (unfold UINT32_MOD; lia).
  rewrite Nat2Z.id, Hmap, Htake. reflexivity.
Qed.

End Normalize.

Lemma latest_write_none (l : list smt_pair_t) (k : bytes) :
  (forall q, q ∈ l -> key q <> k) -> latest_write l k = None.
Proof.
  unfold latest_write. induction l as [|x l IH]; intros Hne; simpl; [reflexivity|].
  rewrite IH by (intros q Hq; apply Hne; right; exact Hq).
  rewrite decide_False by (apply Hne; left). reflexivity.
Qed.

(** The last pair with a key holds the latest write of that key. *)
Lemma latest_write_last (l : list smt_pair_t) (i : nat) (p : smt_pair_t) :
  l !! i = Some p ->
  (forall (j : nat) q, l !! j = Some q -> key q = key p -> (j <= i)%nat) ->
  latest_write l (key p) = Some (value p).
Proof.
  revert i. induction l as [|x l IH]; intros i Hi Hlast; [discriminate|].
  unfold latest_write in *. simpl. destruct i as [|i]; simpl in Hi.
  - injection Hi as ->.
    fold (latest_write l (key p)). rewrite latest_write_none.
    + rewrite decide_True by reflexivity. reflexivity.
    + intros q Hq Hkey. apply list_elem_of_lookup in Hq as [j Hj].
      specialize (Hlast (S j) q Hj Hkey). lia.
  - rewrite (IH i Hi); [reflexivity|].
    intros j q Hj Hkey. specialize (Hlast (S j) q Hj Hkey). lia.
Qed.

Lemma StronglySorted_Forall {A} (R : relation A) (P : A -> Prop) (l : list A) :
  StronglySorted R l -> Forall P l ->
  StronglySorted (fun x y => R x y /\ P x /\ P y) l.
Proof.
  induction 1 as [|x l Hs IH Hx]; intros Hp; [constructor|].
  apply Forall_cons in Hp as [Hpx Hp]. constructor; [apply IH, Hp|].
  rewrite Forall_forall in Hx, Hp |- *. intros y Hy. auto.
Qed.

Lemma StronglySorted_NoDup {A} (R : relation A) (l : list A) :
  (forall x, ~ R x x) -> StronglySorted R l -> NoDup l.
Proof.
  intros Hirr. induction 1 as [|x l Hs IH Hx]; [constructor|].
  apply NoDup_cons. split; [|exact IH].
  intros Hin. rewrite Forall_forall in Hx. exact (Hirr x (Hx x Hin)).
Qed.

Lemma key_lt_irrefl (a : bytes) : ~ key_lt a a.
Proof. intros (i & _ & Hlt & _). lia. Qed.

Section Normalized.

Variable s : smt_state_t.
Hypothesis s_wf : state_ok s = true.
Hypothesis s_small : len s < 2 ^ 31.

Lemma sorted_tagged :
  StronglySorted (rank_le pair_rank) (qsort _smt_pair_cmp (tagged s)) /\
  Forall numbered_ok (qsort _smt_pair_cmp (tagged s)).
Proof.
  pose proof (tagged_numbered s s_wf s_small) as Hnum.
  split.
  - apply qsort_sorted. intros x y Hx Hy. rewrite Forall_forall in Hnum.
    destruct (Hnum x Hx) as [Hkx Hox]. destruct (Hnum y Hy) as [Hky Hoy].
    apply pair_cmp_rank; assumption.
  - rewrite (qsort_perm _ _). exact Hnum.
Qed.

Lemma normalize_heads (r : smt_pair_t) :
  r ∈ live (smt_state_normalize s) ->
  exists h, h ∈ run_heads (qsort _smt_pair_cmp (tagged s)) /\
    key h = key r /\ value h = value r.
Proof.
  intros Hr. apply (list_elem_of_fmap_2 pair_kv) in Hr.
  change (pair_kv <$> ?l) with (map pair_kv l) in Hr.
  rewrite (normalize_live s s_wf s_small) in Hr.
  apply list_elem_of_fmap_1 in Hr as (h & Hkv & Hh).
  exists h. split; [exact Hh|]. injection Hkv as Hk Hv. split; congruence.
Qed.

Lemma normalize_retained (r : smt_pair_t) :
  r ∈ live (smt_state_normalize s) ->
  exists q, q ∈ tagged s /\ key q = key r /\ value q = value r /\
    forall p, p ∈ tagged s -> key p = key q -> order q <= order p.
Proof.
  intros Hr. destruct (normalize_heads r Hr) as (h & Hh & Hk & Hv).
  destruct sorted_tagged as [Hs Hnum].
  destruct (run_heads_sorted _ Hs Hnum) as [_ Hmin].
  destruct (Hmin h Hh) as [Hin Hle].
  exists h. rewrite (qsort_perm _ _) in Hin.
  split; [exact Hin|]. split; [exact Hk|]. split; [exact Hv|].
  intros p Hp Hkey. apply Hle; [|exact Hkey].
  rewrite (qsort_perm _ _). exact Hp.
Qed.

Lemma normalize_strictly_sorted :
  StronglySorted key_lt (map key (live (smt_state_normalize s))).
Proof.
  destruct sorted_tagged as [Hs Hnum].
  destruct (run_heads_sorted _ Hs Hnum) as [Hss Hmin].
  assert (Forall numbered_ok (run_heads (qsort _smt_pair_cmp (tagged s)))) as Hn.
  { apply Forall_forall. intros h Hh. rewrite Forall_forall in Hnum.
    apply Hnum, (Hmin h Hh). }
  pose proof (StronglySorted_Forall _ _ _ Hss Hn) as Hss'.
  replace (map key (live (smt_state_normalize s)))
    with (map key (run_heads (qsort _smt_pair_cmp (tagged s)))).
  - eapply (StronglySorted_fmap key); [|exact Hss'].
    intros x y (Hlt & [Hx _] & [Hy _]). apply key_num_key_lt; assumption.
  - transitivity (map fst (map pair_kv (run_heads (qsort _smt_pair_cmp (tagged s))))).
    + rewrite map_map. reflexivity.
    + rewrite <- (normalize_live s s_wf s_small), map_map. reflexivity.
Qed.

Lemma normalize_latest (r : smt_pair_t) :
  r ∈ live (smt_state_normalize s) ->
  latest_write (live s) (key r) = Some (value r).
Proof.
  intros Hr. destruct (normalize_retained r Hr) as (q & Hq & Hk & Hv & Hmin).
  destruct (tagged_elem s s_wf q Hq) as (i & p & Hp & Hi & ->).
  simpl in Hk, Hv. rewrite <- Hk, <- Hv.
  apply (latest_write_last _ i); [exact Hp|].
  intros j p' Hj Hkey.
  pose proof (state_ok_len s s_wf) as Hlen.
  pose proof (lookup_lt_Some _ _ _ Hj) as Hjlt.
  rewrite (length_live s Hlen) in Hjlt.
  assert (set_pair_order p' (to_uint32 (len s - Z.of_nat j)) ∈ tagged s) as Hin.
  { apply list_elem_of_lookup. exists j.
    apply (tagged_lookup s j _ Hlen). eauto. }
  specialize (Hmin _ Hin Hkey). simpl in Hmin.
  rewrite to_uint32_small in Hmin by (unfold UINT32_MOD; lia). lia.
Qed.

End Normalized.

(** An insert leaves the capacity and the size of the array as they
    are. *)
Lemma insert_capacity (s : smt_state_t) (k v : bytes) :
  capacity (smt_state_insert s k v).1 = capacity s /\
  length (pairs (smt_state_insert s k v).1) = length (pairs s).
Proof.
  unfold smt_state_insert. destruct (len s <? capacity s); simpl.
  - rewrite !length_arr_set. split; reflexivity.
  - destruct (scan_from _ _ _ <? 0); simpl; [split; reflexivity|].
    rewrite length_arr_set. split; reflexivity.
Qed.

Lemma insert_all_capacity (calls : list (bytes * bytes)) (s : smt_state_t) :
  capacity (insert_all s calls) = capacity s /\
  length (pairs (insert_all s calls)) = length (pairs s).
Proof.
  revert s. induction calls as [|[k v] calls IH]; intros s; [split; reflexivity|].
  change (insert_all s ((k, v) :: calls))
    with (insert_all (smt_state_insert s k v).1 calls).
  destruct (IH (smt_state_insert s k v).1) as [-> ->].
  apply insert_capacity.
Qed.

(** After inserts that all append, the latest write of a key is the value
    of the latest insert of that key. *)
Lemma latest_write_insert_all (buffer : list smt_pair_t) (cap : Z)
  (calls : list (bytes * bytes)) (k : bytes) :
  state_ok (insert_all (smt_state_init buffer cap) calls) = true ->
  Z.of_nat (length calls) <= cap ->
  latest_write (live (insert_all (smt_state_init buffer cap) calls)) k
  = latest_insert calls k.
Proof.
  intros Hs Hroom.
  destruct (insert_all_capacity calls (smt_state_init buffer cap)) as [Hc Hp].
  apply state_ok_iff in Hs as (_ & Hcap & Hfits & _).
  rewrite Hc in Hcap, Hfits. rewrite Hp in Hcap. simpl in Hcap, Hfits.
  destruct (insert_all_live calls (smt_state_init buffer cap))
    as (_ & _ & _ & Hlive); simpl; try lia.
  rewrite latest_write_kv, Hlive. reflexivity.
Qed.

(** C6, as the claim states it, fails: with two inserts under one key,
    the pair that normalisation keeps has the value of the second insert,
    whose [order] is 1, and not that of the first, whose [order] is 2. *)
Lemma normalize_highest_order_counterexample :
  ~ highest_order_retained duplicate_key_state.
Proof.
  intros H.
  assert (live (smt_state_normalize duplicate_key_state)
          = [mk_pair (zero_bytes 32) (replicate 32 2) 1]) as Hlive
    by (vm_compute; reflexivity).
  assert (tagged duplicate_key_state
          = [mk_pair (zero_bytes 32) (replicate 32 1) 2;
             mk_pair (zero_bytes 32) (replicate 32 2) 1]) as Htag
    by (vm_compute; reflexivity).
  destruct (H (mk_pair (zero_bytes 32) (replicate 32 2) 1))
    as (q & Hq & Hk & Hv & Hmax).
  { rewrite Hlive. left. }
  rewrite Htag in Hq, Hmax.
  apply elem_of_cons in Hq as [->|Hq].
  - simpl in Hv. discriminate.
  - apply elem_of_cons in Hq as [->|Hq]; [|inversion Hq].
    specialize (Hmax (mk_pair (zero_bytes 32) (replicate 32 1) 2)
                  ltac:(left) eq_refl).
    simpl in Hmax. lia.
Qed.

(** ** Inserts and the latest write *)

(** The index the backward scan stops at holds the key, and no later pair
    among the first [n] does. *)
Lemma scan_down_last (ps : list smt_pair_t) (k : bytes) (n : nat) :
  length k = 32%nat -> (n <= length ps)%nat ->
  Forall (fun p => length (key p) = 32%nat) (take n ps) ->
  0 <= scan_down ps k n ->
  exists i : nat,
    scan_down ps k n = Z.of_nat i /\ (i < n)%nat /\ key (ps !!! i) = k /\
    forall j : nat, (i < j < n)%nat -> key (ps !!! j) <> k.
Proof.
  intros Hk Hn Hkeys. induction n as [|n IH]; simpl; [lia|].
  assert (ps !! n = Some (ps !!! n)) as Hlk
    by (apply list_lookup_lookup_total_lt; lia).
  rewrite (take_S_r _ _ _ Hlk) in Hkeys.
  apply Forall_app in Hkeys as [Hkeys Hlast]. apply Forall_inv in Hlast.
  unfold SMT_KEY_BYTES.
  destruct (Z.eqb_spec (memcmp k (key (ps !!! n)) 32) 0) as [Heq|Hne].
  - apply memcmp_32_eq in Heq; [|done..]. intros _.
    exists n. split; [reflexivity|]. split; [lia|]. split; [done|].
    intros j Hj. lia.
  - intros Hpos. destruct (IH ltac:(lia) Hkeys Hpos) as (i & Hi & Hlt & Hkey & Hlater).
    exists i. split; [exact Hi|]. split; [lia|]. split; [exact Hkey|].
    intros j Hj. destruct (decide (j = n)) as [->|Hjn]; [|apply Hlater; lia].
    intros Heq. apply Hne. apply memcmp_32_eq; done.
Qed.

(** [latest] looks at the pairs with the key only. *)
Lemma latest_write_agree (l l' : list smt_pair_t) (k : bytes) :
  Forall2 (fun p p' => key p = key p' /\ (key p = k -> value p = value p')) l l' ->
  latest_write l k = latest_write l' k.
Proof.
  unfold latest_write. induction 1 as [|p p' l l' [Hk Hv] _ IH]; simpl; [reflexivity|].
  rewrite IH, <- Hk. destruct (latest key value l' k); [reflexivity|].
  destruct (decide (key p = k)) as [Heq|]; [|reflexivity].
  rewrite (Hv Heq). reflexivity.
Qed.

Lemma Forall2_insert_self (l : list smt_pair_t) (i : nat) (p' : smt_pair_t)
  (R : smt_pair_t -> smt_pair_t -> Prop) :
  (forall p, R p p) -> (forall p, l !! i = Some p -> R p p') ->
  Forall2 R l (<[i:=p']> l).
Proof.
  intros Hrefl. revert i. induction l as [|x l IH]; intros i Hi; [constructor|].
  destruct i as [|i]; simpl.
  - constructor; [apply Hi; reflexivity|].
    apply Forall_Forall2_diag, Forall_forall. intros p _. apply Hrefl.
  - constructor; [apply Hrefl|]. apply IH. intros p Hp. apply Hi. exact Hp.
Qed.

(** Writing a value into the last pair with a key. *)
Lemma latest_write_update (l : list smt_pair_t) (i : nat) (p : smt_pair_t)
  (v k' : bytes) :
  l !! i = Some p ->
  (forall (j : nat) q, l !! j = Some q -> key q = key p -> (j <= i)%nat) ->
  latest_write (<[i:=set_pair_value p v]> l) k'
  = if decide (key p = k') then Some v else latest_write l k'.
Proof.
  intros Hi Hlast. pose proof (lookup_lt_Some _ _ _ Hi) as Hlt.
  destruct (decide (key p = k')) as [<-|Hne].
  - apply (latest_write_last _ i (set_pair_value p v)).
    + apply list_lookup_insert_eq, Hlt.
    + intros j q Hj Hkey. simpl in Hkey.
      destruct (decide (j = i)) as [->|Hji]; [lia|].
      rewrite list_lookup_insert_ne in Hj by lia. exact (Hlast j q Hj Hkey).
  - symmetry. apply latest_write_agree. apply Forall2_insert_self.
    + intros q. split; [reflexivity | intros _; reflexivity].
    + intros q Hq. rewrite Hi in Hq. injection Hq as <-. simpl.
      split; [reflexivity | intros Heq; contradiction].
Qed.

(** An insert that returns 0 makes its value the latest write of its key
    and leaves the latest writes of the other keys as they are, whether it
    appends the pair or overwrites a pair of a full state. *)
Lemma latest_write_insert (s : smt_state_t) (k v k' : bytes) :
  0 <= len s <= capacity s ->
  capacity s = Z.of_nat (length (pairs s)) -> capacity s < UINT32_MOD ->
  Forall (fun p => length (key p) = 32%nat) (live s) -> length k = 32%nat ->
  (smt_state_insert s k v).2 = 0 ->
  latest_write (live (smt_state_insert s k v).1) k'
  = if decide (k = k') then Some v else latest_write (live s) k'.
Proof.
  intros Hlen Hcap Hfits Hkeys Hk.
  destruct (Z.lt_ge_cases (len s) (capacity s)) as [Hroom|Hfull].
  - intros _.
    destruct (insert_append s k v ltac:(lia) Hcap Hfits) as (_ & _ & _ & _ & Hlive).
    rewrite !latest_write_kv, Hlive. unfold latest_insert. rewrite latest_snoc.
    reflexivity.
  - unfold smt_state_insert, scan_from.
    destruct (Z.ltb_spec (len s) (capacity s)); [lia|].
    destruct (Z.ltb_spec (to_int32 (len s - 1)) 0) as [Hneg|Hpos].
    { destruct (Z.ltb_spec (to_int32 (len s - 1)) 0); [|lia]. discriminate. }
    assert (1 <= len s <= 2 ^ 31) as Hsmall.
    { unfold to_int32, UINT32_MOD in *. destruct (Z.eq_dec (len s) 0) as [Hz|Hz].
      - rewrite Hz in Hpos. vm_compute in Hpos. contradiction.
      - rewrite Z.mod_small in Hpos by lia.
        destruct (Z.ltb_spec (len s - 1) (2 ^ 31)); lia. }
    rewrite to_int32_small by lia.
    replace (Z.to_nat (len s - 1 + 1)) with (Z.to_nat (len s)) by lia.
    destruct (Z.ltb_spec (scan_down (pairs s) k (Z.to_nat (len s))) 0)
      as [Hnone|Hsome]; [discriminate|]. intros _.
    destruct (scan_down_last (pairs s) k (Z.to_nat (len s)) Hk ltac:(lia) Hkeys Hsome)
      as (i & -> & Hi & Hkey & Hlater).
    unfold live, arr_set, arr_get; simpl. rewrite Nat2Z.id.
    rewrite take_insert_lt by lia.
    assert (take (Z.to_nat (len s)) (pairs s) !! i = Some (pairs s !!! i)) as Hlk.
    { rewrite lookup_take_lt by lia. apply list_lookup_lookup_total_lt. lia. }
    rewrite (latest_write_update _ i (pairs s !!! i) v k' Hlk).
    + rewrite Hkey. reflexivity.
    + intros j q Hj Hq.
      pose proof (lookup_lt_Some _ _ _ Hj) as Hjlt. rewrite length_take in Hjlt.
      destruct (decide (j <= i)%nat) as [|Hgt]; [done|]. exfalso.
      rewrite lookup_take_lt in Hj by lia.
      apply list_lookup_total_correct in Hj.
      apply (Hlater j ltac:(lia)). rewrite Hj, Hq. exact Hkey.
Qed.

(** ** Any sort gives the array of [qsort] *)

Lemma Sorted_impl_elem {A} (R R' : relation A) (l : list A) :
  (forall x y, x ∈ l -> y ∈ l -> R x y -> R' x y) ->
  Sorted R l -> Sorted R' l.
Proof.
  intros Himpl Hs. induction Hs as [|x l Hs IH Hhd]; [constructor|].
  constructor.
  - apply IH. intros a b Ha Hb. apply Himpl; right; assumption.
  - destruct Hhd as [|y l Hxy]; constructor.
    apply Himpl; [left | right; left | exact Hxy].
Qed.

Lemma rank_le_trans {A} (rank : A -> Z) : Transitive (rank_le rank).
Proof. unfold rank_le. intros x y z Hxy Hyz. lia. Qed.

Section AnySort.

Variable s : smt_state_t.
Hypothesis s_wf : state_ok s = true.
Hypothesis s_small : len s < 2 ^ 31.

(** Two numbered pairs of equal rank are the same pair. *)
Lemma tagged_rank_inj (x y : smt_pair_t) :
  x ∈ tagged s -> y ∈ tagged s -> pair_rank x = pair_rank y -> x = y.
Proof.
  intros Hx Hy Hrank.
  pose proof (tagged_numbered s s_wf s_small) as Hnum.
  rewrite Forall_forall in Hnum.
  destruct (Hnum x Hx) as [Hkx Hox]. destruct (Hnum y Hy) as [Hky Hoy].
  assert (order x = order y) as Horder.
  { revert Hrank. unfold pair_rank, UINT32_MOD.
    generalize (key_num (key x) 32), (key_num (key y) 32). intros a b Hrank.
    lia. }
  destruct (tagged_elem s s_wf x Hx) as (i & p & Hp & Hi & ->).
  destruct (tagged_elem s s_wf y Hy) as (j & q & Hq & Hj & ->).
  simpl in Horder. assert (i = j) as -> by lia.
  rewrite Hp in Hq. injection Hq as ->. reflexivity.
Qed.

(** Whatever algorithm is behind [qsort], an array that holds the numbered
    pairs in an order in which [_smt_pair_cmp] never puts a pair after its
    successor is the array the insertion sort gives. *)
Lemma sorted_tagged_unique (l : list smt_pair_t) :
  l ≡ₚ tagged s ->
  Sorted (fun a b => _smt_pair_cmp a b <= 0) l ->
  l = qsort _smt_pair_cmp (tagged s).
Proof.
  intros Hperm Hsorted.
  pose proof (tagged_numbered s s_wf s_small) as Hnum.
  rewrite Forall_forall in Hnum.
  destruct (sorted_tagged s s_wf s_small) as [Hq _].
  apply (StronglySorted_unique_strong (rank_le pair_rank)).
  - intros x y Hx Hy Hxy Hyx. rewrite Hperm in Hx. rewrite (qsort_perm _ _) in Hy.
    apply tagged_rank_inj; try assumption. unfold rank_le in *. lia.
  - apply (@Sorted_StronglySorted _ _ (rank_le_trans pair_rank)).
    eapply Sorted_impl_elem; [|exact Hsorted].
    intros x y Hx Hy Hcmp. rewrite Hperm in Hx, Hy.
    destruct (Hnum x Hx) as [Hkx Hox]. destruct (Hnum y Hy) as [Hky Hoy].
    apply pair_cmp_rank; assumption.
  - exact Hq.
  - rewrite Hperm, (qsort_perm _ _). reflexivity.
Qed.

End AnySort.

(** ** The initial content of the stack arrays *)

Section SameFrames.

Variable blake2b_256 : bytes -> bytes.
Variable state : smt_state_t.
Variable proof : bytes.

Lemma arr_get_set {A} `{Inhabited A} (l : list A) (i j : Z) (x : A) :
  0 <= i < Z.of_nat (length l) -> 0 <= j ->
  arr_get (arr_set l i x) j = if decide (i = j) then x else arr_get l j.
Proof.
  intros Hi Hj. destruct (decide (i = j)) as [<-|Hne].
  - apply arr_get_set_eq, Hi.
  - apply arr_get_set_ne; lia.
Qed.

Ltac open_frames :=
  unfold same_result, same_frames;
  cbn [stack_keys stack_values proof_index leave_index stack_top];
  rewrite !length_arr_set.

Lemma exec_opcode_same (m1 m2 : machine) :
  same_frames m1 m2 ->
  same_result same_frames (exec_opcode blake2b_256 state proof m1)
    (exec_opcode blake2b_256 state proof m2).
Proof.
  destruct m1 as [k1 v1 pi li top], m2 as [k2 v2 pi2 li2 top2].
  intros (Hpi & Hli & Htop & Hrange & Hk1 & Hk2 & Hv1 & Hv2 & Hsame).
  simpl in *. subst pi2 li2 top2.
  unfold exec_opcode; simpl.
  destruct (proof !! Z.to_nat pi) as [opcode|]; [|exact I].
  destruct (opcode =? 76); [|destruct (opcode =? 80); [|destruct (opcode =? 72)]].
  - unfold exec_leaf; simpl. unfold _SMT_STACK_SIZE.
    destruct (Z.geb_spec top 32); [reflexivity|].
    destruct (li >=? len state); [reflexivity|].
    open_frames.
    rewrite (to_uint32_small (top + 1)) by (unfold UINT32_MOD; lia).
    repeat split; try lia; try assumption.
    + rewrite !arr_get_set by lia.
      destruct (decide (top = i)); [reflexivity | apply Hsame; lia].
    + rewrite !arr_get_set by lia.
      destruct (decide (top = i)); [reflexivity | apply Hsame; lia].
  - unfold exec_proof; simpl.
    destruct (Z.eqb_spec top 0); [reflexivity|].
    destruct (_ >? _); [reflexivity|].
    destruct (proof !! _) as [height|]; [|exact I].
    destruct (negb _); [exact I|].
    destruct (Hsame (top - 1) ltac:(lia)) as [-> ->].
    open_frames.
    repeat split; try lia; try assumption.
    + rewrite !arr_get_set by lia.
      destruct (decide (top - 1 = i)); [reflexivity | apply Hsame; lia].
    + rewrite !arr_get_set by lia.
      destruct (decide (top - 1 = i)); [reflexivity | apply Hsame; lia].
  - unfold exec_merge; simpl.
    destruct (Z.ltb_spec top 2); [reflexivity|].
    destruct (_ >=? _); [reflexivity|].
    destruct (proof !! _) as [height|]; [|exact I].
    destruct (Hsame (top - 1) ltac:(lia)) as [Hkb Hvb].
    destruct (Hsame (top - 2) ltac:(lia)) as [Hka Hva].
    rewrite !(arr_get_set_ne _ (top - 2) (top - 1)) by lia.
    rewrite !arr_get_set_eq by (rewrite ?length_arr_set; lia).
    rewrite !(arr_get_set_ne _ (top - 1) (top - 2)) by lia.
    rewrite !arr_get_set_eq by lia.
    rewrite Hka, Hkb, Hva, Hvb.
    match goal with |- context [if ?c then Err _ else _] => destruct c end;
      [reflexivity|].
    open_frames.
    rewrite (to_uint32_small (top - 2 + 1)) by (unfold UINT32_MOD; lia).
    repeat split; try lia; try assumption.
    + rewrite !(arr_get_set_ne _ (top - 1) i) by lia.
      rewrite !arr_get_set by lia.
      destruct (decide (top - 2 = i)); [reflexivity | apply Hsame; lia].
    + rewrite !arr_get_set by lia.
      destruct (decide (top - 2 = i)); [reflexivity | apply Hsame; lia].
  - reflexivity.
Qed.

Lemma run_loop_same (fuel : nat) (m1 m2 : machine) :
  same_frames m1 m2 ->
  same_result same_frames (run_loop blake2b_256 state proof fuel m1)
    (run_loop blake2b_256 state proof fuel m2).
Proof.
  revert m1 m2. induction fuel as [|fuel IH]; intros m1 m2 Hsame; simpl.
  - destruct Hsame as (Hpi & Hrest). rewrite <- Hpi.
    destruct (proof_index m1 <? proof_length proof); [exact I|].
    split; [exact Hpi | exact Hrest].
  - pose proof (exec_opcode_same m1 m2 Hsame) as Hstep.
    destruct Hsame as (Hpi & Hrest). rewrite <- Hpi.
    destruct (proof_index m1 <? proof_length proof);
      [|split; [exact Hpi | exact Hrest]].
    destruct (exec_opcode blake2b_256 state proof m1) as [a| |],
             (exec_opcode blake2b_256 state proof m2) as [b| |];
      simpl in Hstep; try contradiction; try exact Hstep.
    apply IH, Hstep.
Qed.

(** The stack arrays are uninitialised in C: whatever they hold when
    [smt_calculate_root] starts, the call returns the same. *)
Lemma calculate_root_any_init (keys0 values0 : list bytes) :
  length keys0 = 32%nat -> length values0 = 32%nat ->
  calculate_root_from blake2b_256 state proof keys0 values0
  = smt_calculate_root blake2b_256 state proof.
Proof.
  intros Hk Hv. unfold calculate_root_from, smt_calculate_root.
  assert (same_frames (machine_from keys0 values0) machine_init) as Hsame.
  { unfold same_frames; simpl. repeat split; try lia; try assumption; lia. }
  pose proof (run_loop_same (length proof) _ _ Hsame) as Hrun.
  destruct (run_loop blake2b_256 state proof (length proof) (machine_from keys0 values0))
    as [a| |],
    (run_loop blake2b_256 state proof (length proof) machine_init) as [b| |];
    simpl in Hrun; try contradiction; try reflexivity; [|congruence].
  destruct Hrun as (_ & Hli & Htop & Hrange & _ & _ & _ & _ & Hsame').
  unfold finish. rewrite <- Hli, <- Htop.
  destruct (negb (leave_index a =? len state)); [reflexivity|].
  destruct (Z.eqb_spec (stack_top a) 1) as [Hone|]; [|reflexivity]. simpl.
  destruct (Hsame' 0 ltac:(lia)) as [_ ->]. reflexivity.
Qed.

End SameFrames.

(** ** Reads outside the proof buffer *)

Section InBounds.

Variable blake2b_256 : bytes -> bytes.
Variable state : smt_state_t.
Variable proof : bytes.

(** In a proof shorter than 2^32 - 33 bytes every turn of the loop reads
    inside the buffer. *)
Lemma exec_opcode_defined (m : machine) :
  proof_length proof < UINT32_MOD - 33 ->
  0 <= proof_index m < proof_length proof ->
  exec_opcode blake2b_256 state proof m <> Undef.
Proof.
  intros Hfits Hpi. unfold exec_opcode.
  destruct (proof !! Z.to_nat (proof_index m)) as [opcode|] eqn:Hop.
  2:{ apply lookup_ge_None in Hop. unfold proof_length in *. lia. }
  assert (to_uint32 (proof_index m + 1) = proof_index m + 1) as Hpi1
    by (apply to_uint32_small; unfold UINT32_MOD in *; lia).
  rewrite Hpi1.
  destruct (opcode =? 76); [|destruct (opcode =? 80); [|destruct (opcode =? 72)]].
  - unfold exec_leaf; simpl.
    destruct (stack_top m >=? _SMT_STACK_SIZE); [discriminate|].
    destruct (leave_index m >=? len state); discriminate.
  - unfold exec_proof; simpl.
    destruct (stack_top m =? 0); [discriminate|].
    rewrite to_uint32_small by (unfold UINT32_MOD in *; lia).
    destruct (Z.gtb_spec (proof_index m + 1 + 33) (proof_length proof));
      [discriminate|].
    destruct (proof !! Z.to_nat (proof_index m + 1)) as [height|] eqn:Hh.
    2:{ apply lookup_ge_None in Hh. unfold proof_length in *. lia. }
    rewrite to_uint32_small by (unfold UINT32_MOD in *; lia).
    destruct (Nat.eqb_spec
                (length (take 32 (drop (Z.to_nat (proof_index m + 1 + 1)) proof))) 32)
      as [Hcur|Hcur]; simpl; [discriminate|].
    exfalso. apply Hcur. rewrite length_take, length_drop.
    unfold proof_length in *. lia.
  - unfold exec_merge; simpl.
    destruct (stack_top m <? 2); [discriminate|].
    destruct (Z.geb_spec (proof_index m + 1) (proof_length proof)); [discriminate|].
    destruct (proof !! Z.to_nat (proof_index m + 1)) as [height|] eqn:Hh.
    2:{ apply lookup_ge_None in Hh. unfold proof_length in *. lia. }
    match goal with |- context [if ?c then _ else _] => destruct c end;
      discriminate.
  - discriminate.
Qed.

Lemma run_loop_defined (fuel : nat) (m : machine) :
  proof_length proof < UINT32_MOD - 33 ->
  0 <= proof_index m ->
  proof_length proof - proof_index m <= Z.of_nat fuel ->
  run_loop blake2b_256 state proof fuel m <> Undef.
Proof.
  intros Hfits. revert m. induction fuel as [|fuel IH]; intros m Hpi Hfuel; simpl.
  - destruct (Z.ltb_spec (proof_index m) (proof_length proof)); [lia | discriminate].
  - destruct (Z.ltb_spec (proof_index m) (proof_length proof)); [|discriminate].
    pose proof (exec_opcode_defined m Hfits ltac:(lia)) as Hdef.
    destruct (exec_opcode blake2b_256 state proof m) as [m'| |] eqn:Hex;
      [|discriminate|contradiction].
    pose proof (exec_opcode_progress blake2b_256 state proof
                  ltac:(unfold UINT32_MOD in *; lia) m m' Hpi Hex).
    apply IH; lia.
Qed.

(** [smt_calculate_root] returns, with 0 or an error code, on every proof
    shorter than 2^32 - 33 bytes. *)
Lemma calculate_root_defined :
  proof_length proof < UINT32_MOD - 33 ->
  smt_calculate_root blake2b_256 state proof <> Undef.
Proof.
  intros Hfits. unfold smt_calculate_root.
  pose proof (run_loop_defined (length proof) machine_init Hfits
                ltac:(simpl; lia) ltac:(unfold proof_length; simpl; lia)) as Hdef.
  destruct (run_loop blake2b_256 state proof (length proof) machine_init)
    as [m| |]; [|discriminate|contradiction].
  unfold finish. destruct (negb _); [discriminate|].
  destruct (negb _); discriminate.
Qed.

(** Where [proof_index + 33] wraps around 2^32, the length check of case
    [0x50] passes although fewer than 33 bytes are left, and the case reads
    outside the buffer. *)
Lemma exec_proof_wraps (m : machine) :
  proof_length proof < UINT32_MOD ->
  proof !! Z.to_nat (proof_index m) = Some 0x50 ->
  1 <= stack_top m ->
  UINT32_MOD - 34 <= proof_index m ->
  exec_opcode blake2b_256 state proof m = Undef.
Proof.
  intros Hfits Hop Htop Hwrap.
  assert (0 <= proof_index m) as Hpi by (unfold UINT32_MOD in *; lia).
  pose proof (lookup_proof_lt proof (proof_index m) 80 Hpi Hop) as Hlt.
  unfold exec_opcode. rewrite Hop.
  change (80 =? 76) with false. change (80 =? 80) with true. cbv iota.
  unfold exec_proof, set_proof_index; simpl.
  destruct (Z.eqb_spec (stack_top m) 0); [lia|].
  rewrite (to_uint32_small (proof_index m + 1)) by (unfold UINT32_MOD in *; lia).
  assert (to_uint32 (proof_index m + 1 + 33) = proof_index m + 34 - UINT32_MOD) as ->.
  { unfold to_uint32. symmetry.
    apply (Z.mod_unique _ _ 1); unfold UINT32_MOD in *; lia. }
  destruct (Z.gtb_spec (proof_index m + 34 - UINT32_MOD) (proof_length proof));
    [unfold UINT32_MOD in *; lia|].
  destruct (proof !! Z.to_nat (proof_index m + 1)) as [height|] eqn:Hh;
    [|reflexivity].
  pose proof (lookup_proof_lt proof (proof_index m + 1) height ltac:(lia) Hh) as Hlt1.
  destruct (Nat.eqb_spec
              (length (take 32 (drop (Z.to_nat (to_uint32 (proof_index m + 1 + 1))) proof)))
              32) as [Hcur|Hcur]; simpl; [|reflexivity].
  exfalso. rewrite length_take, length_drop in Hcur.
  rewrite to_uint32_small in Hcur by (unfold UINT32_MOD in *; lia).
  unfold proof_length, UINT32_MOD in *. lia.
Qed.

End InBounds.
(* ================================================================= *)
(** * Further properties of the staging buffer *)

(** ** One insert *)

Lemma Forall_arr_set_get {A} `{Inhabited A} (P : A -> Prop) (f : A -> A)
  (l : list A) (i : Z) :
  Forall P l -> (forall x, P x -> P (f x)) ->
  Forall P (arr_set l i (f (arr_get l i))).
Proof.
  intros Hl Hf. unfold arr_set, arr_get.
  destruct (l !! Z.to_nat i) as [x|] eqn:Hx.
  - apply Forall_insert; [exact Hl|]. apply Hf.
    rewrite (list_lookup_total_correct _ _ _ Hx).
    exact (proj1 (Forall_lookup P l) Hl _ _ Hx).
  - rewrite list_insert_ge by (apply lookup_ge_None; exact Hx). exact Hl.
Qed.

(** Whatever an insert does, every pair of the array keeps a property that
    the written key and value have. *)
Lemma insert_pairs_Forall (P : smt_pair_t -> Prop) (s : smt_state_t) (k v : bytes) :
  (forall p, P p -> P (set_pair_key p k)) ->
  (forall p, P p -> P (set_pair_value p v)) ->
  Forall P (pairs s) -> Forall P (pairs (smt_state_insert s k v).1).
Proof.
  intros Hk Hv Hs. unfold smt_state_insert.
  destruct (len s <? capacity s); simpl.
  - apply (Forall_arr_set_get P (fun p => set_pair_value p v)); [|exact Hv].
    apply (Forall_arr_set_get P (fun p => set_pair_key p k)); assumption.
  - destruct (scan_from _ _ _ <? 0); simpl; [exact Hs|].
    apply (Forall_arr_set_get P (fun p => set_pair_value p v)); assumption.
Qed.

Lemma insert_len (s : smt_state_t) (k v : bytes) :
  0 <= len s <= capacity s -> capacity s < UINT32_MOD ->
  len (smt_state_insert s k v).1
  = if len s <? capacity s then len s + 1 else len s.
Proof.
  intros Hlen Hfits. unfold smt_state_insert.
  destruct (Z.ltb_spec (len s) (capacity s)); simpl.
  - apply to_uint32_small. lia.
  - destruct (scan_from _ _ _ <? 0); reflexivity.
Qed.

Lemma state_ok_keys (s : smt_state_t) :
  state_ok s = true -> Forall (fun p => length (key p) = 32%nat) (pairs s).
Proof.
  intros Hs. apply state_ok_iff in Hs as (_ & _ & _ & Hp).
  eapply Forall_impl; [exact Hp|]. intros p Hok.
  apply andb_true_iff in Hok as [Hk _]. apply bytes32_length, Hk.
Qed.

(** X1 (insert, then fetch): on a state of fewer than 2^31 pairs, after an
    [smt_state_insert] of [k] and [v] that returns 0, whether it appended
    the pair or overwrote a pair of a full state, [smt_state_fetch] gives
    [v] for [k] and what it gave before for every other key. *)
Theorem insert_then_fetch (s : smt_state_t) (k v k' : bytes) :
  state_ok s = true -> len s < 2 ^ 31 ->
  length k = 32%nat -> length k' = 32%nat ->
  (smt_state_insert s k v).2 = 0 ->
  smt_state_fetch (smt_state_insert s k v).1 k'
  = if decide (k = k') then Ok v else smt_state_fetch s k'.
Proof.
  intros Hs Hsmall Hk Hk' Hret.
  pose proof (state_ok_keys s Hs) as Hkeys.
  apply state_ok_iff in Hs as (Hlen & Hcap & Hfits & _).
  destruct (insert_capacity s k v) as [Hc' Hp'].
  pose proof (insert_len s k v Hlen Hfits) as Hl'.
  assert (Forall (fun p => length (key p) = 32%nat)
            (pairs (smt_state_insert s k v).1)) as Hkeys'.
  { apply insert_pairs_Forall; [intros p _; exact Hk | intros p Hp; exact Hp |
                                exact Hkeys]. }
  assert (len s <= len (smt_state_insert s k v).1 <= capacity s) as Hbound
    by (rewrite Hl'; destruct (Z.ltb_spec (len s) (capacity s)); lia).
  rewrite (fetch_latest_write _ k' Hk').
  - rewrite (latest_write_insert s k v k' Hlen Hcap Hfits
               (Forall_take _ _ _ Hkeys) Hk Hret).
    destruct (decide (k = k')); [reflexivity|].
    symmetry. apply fetch_latest_write;
      [exact Hk' | lia | lia | apply Forall_take, Hkeys].
  - rewrite Hp'. lia.
  - rewrite Hl'. destruct (Z.ltb_spec (len s) (capacity s)); lia.
  - apply Forall_take, Hkeys'.
Qed.

Lemma insert_then_fetch_witness :
  let k := zero_bytes 32 in
  let v := replicate 32 7 in
  state_ok duplicate_key_state = true /\
  (smt_state_insert duplicate_key_state k v).2 = 0 /\
  smt_state_fetch (smt_state_insert duplicate_key_state k v).1 k = Ok v.
Proof.
  intros k v.
  assert (state_ok duplicate_key_state = true) as Hs by reflexivity.
  assert ((smt_state_insert duplicate_key_state k v).2 = 0) as Hret by reflexivity.
  split; [exact Hs|]. split; [exact Hret|].
  apply (insert_then_fetch duplicate_key_state k v k Hs);
    [vm_compute | | | exact Hret]; reflexivity.
Defined.

(** X2 (insert on a full state): [smt_state_insert] returns 0 or
    [ERROR_INSUFFICIENT_CAPACITY]; it returns the error exactly when the
    state is full and [smt_state_fetch] finds no pair with the key, and it
    then leaves the state as it was. *)
Theorem insert_insufficient_capacity (s : smt_state_t) (k v : bytes) :
  len s <= capacity s ->
  let r := smt_state_insert s k v in
  (r.2 = 0 \/ r.2 = error_code ERROR_INSUFFICIENT_CAPACITY) /\
  (r.2 = error_code ERROR_INSUFFICIENT_CAPACITY <->
   len s = capacity s /\ smt_state_fetch s k = Err ERROR_NOT_FOUND) /\
  (r.2 <> 0 -> r.1 = s).
Proof.
  intros Hlen r. subst r. unfold smt_state_insert, smt_state_fetch.
  destruct (Z.ltb_spec (len s) (capacity s)) as [Hroom|Hfull]; simpl.
  - split; [left; reflexivity|]. split; [|intros Hne; contradiction].
    split; [discriminate | intros [Heq _]; lia].
  - destruct (scan_from (pairs s) k (to_int32 (len s - 1)) <? 0); simpl.
    + split; [right; reflexivity|]. split; [|reflexivity].
      split; [intros _; split; [lia | reflexivity] | reflexivity].
    + split; [left; reflexivity|]. split; [|intros Hne; contradiction].
      split; [discriminate | intros [_ Hnf]; discriminate].
Qed.

Lemma insert_insufficient_capacity_witness :
  let k := replicate 32 9 in
  let r := smt_state_insert duplicate_key_state k (zero_bytes 32) in
  len duplicate_key_state <= capacity duplicate_key_state /\
  r.2 = 80 /\ r.1 = duplicate_key_state.
Proof.
  intros k r. subst r.
  assert (len duplicate_key_state <= capacity duplicate_key_state) as Hlen
    by (vm_compute; discriminate).
  split; [exact Hlen|].
  destruct (insert_insufficient_capacity duplicate_key_state k (zero_bytes 32) Hlen)
    as (_ & [_ Herr] & Hsame).
  pose proof (Herr (conj eq_refl eq_refl)) as Hret.
  split; [exact Hret|]. apply Hsame. rewrite Hret. discriminate.
Defined.

Lemma insert_keeps_ok (s : smt_state_t) (k v : bytes) :
  state_ok s = true -> bytes32 k = true -> bytes32 v = true ->
  let s' := (smt_state_insert s k v).1 in
  state_ok s' = true /\ capacity s' = capacity s /\
  len s' = (if len s <? capacity s then len s + 1 else len s) /\
  len s' <= capacity s.
Proof.
  intros Hs Hk Hv s'. subst s'.
  apply state_ok_iff in Hs as (Hlen & Hcap & Hfits & Hpairs).
  destruct (insert_capacity s k v) as [Hc' Hp'].
  pose proof (insert_len s k v Hlen Hfits) as Hl'.
  assert (len (smt_state_insert s k v).1 <= capacity s) as Hle
    by (rewrite Hl'; destruct (Z.ltb_spec (len s) (capacity s)); lia).
  split; [|split; [exact Hc' | split; [exact Hl' | exact Hle]]].
  apply state_ok_iff. rewrite Hc', Hp'.
  split; [|split; [exact Hcap | split; [exact Hfits|]]].
  - rewrite Hl'. destruct (Z.ltb_spec (len s) (capacity s)); lia.
  - apply insert_pairs_Forall; [| |exact Hpairs].
    + intros p Hp. unfold pair_ok in *. simpl.
      apply andb_true_iff in Hp as [_ Hpv]. rewrite Hk, Hpv. reflexivity.
    + intros p Hp. unfold pair_ok in *. simpl.
      apply andb_true_iff in Hp as [Hpk _]. rewrite Hpk, Hv. reflexivity.
Qed.

(** X3 (insert keeps the state well formed): an [smt_state_insert] of a
    32-byte key and value into a state whose [len] is at most its
    [capacity], the size of its array, leaves such a state: the capacity
    is unchanged, [len] grows by one exactly when the state was not full,
    and never passes the capacity. *)
Theorem insert_state_ok (s : smt_state_t) (k v : bytes) :
  state_ok s = true -> bytes32 k = true -> bytes32 v = true ->
  let s' := (smt_state_insert s k v).1 in
  state_ok s' = true /\ capacity s' = capacity s /\
  len s' = (if len s <? capacity s then len s + 1 else len s) /\
  len s' <= capacity s.
Proof. apply insert_keeps_ok. Qed.

Lemma insert_state_ok_witness :
  let s := smt_state_init (replicate 2 (mk_pair (zero_bytes 32) (zero_bytes 32) 0)) 2 in
  let s' := (smt_state_insert s (replicate 32 3) (replicate 32 4)).1 in
  state_ok s = true /\ state_ok s' = true /\ len s' = 1.
Proof.
  intros s s'. subst s'.
  assert (state_ok s = true) as Hs by reflexivity.
  split; [exact Hs|].
  destruct (insert_state_ok s (replicate 32 3) (replicate 32 4) Hs eq_refl eq_refl)
    as (Hok & _ & Hl & _).
  split; [exact Hok | exact Hl].
Defined.

(** ** Sequences of inserts *)

Lemma insert_all_len (calls : list (bytes * bytes)) (s : smt_state_t) :
  0 <= len s <= capacity s -> capacity s < UINT32_MOD ->
  len (insert_all s calls)
  = Z.min (len s + Z.of_nat (length calls)) (capacity s).
Proof.
  revert s. induction calls as [|[k v] calls IH]; intros s Hlen Hfits.
  - simpl. lia.
  - change (insert_all s ((k, v) :: calls))
      with (insert_all (smt_state_insert s k v).1 calls).
    destruct (insert_capacity s k v) as [Hc' _].
    pose proof (insert_len s k v Hlen Hfits) as Hl'.
    rewrite IH, Hc', Hl', length_cons.
    + destruct (Z.ltb_spec (len s) (capacity s)); lia.
    + rewrite Hc', Hl'. destruct (Z.ltb_spec (len s) (capacity s)); lia.
    + rewrite Hc'. exact Hfits.
Qed.

(** X4 (the length of a new state): after [smt_state_new] and any
    sequence of [smt_state_insert] calls, [smt_state_len] is the number of
    calls, or the capacity when there were more calls than that: every
    insert into a state that is not full counts, also one of a key that
    the state holds already, and no insert into a full state does. *)
Theorem state_len_counts_inserts (block : list smt_pair_t) (cap : Z)
  (calls : list (bytes * bytes)) :
  cap = Z.of_nat (length block) -> cap < UINT32_MOD ->
  smt_state_len (insert_all (smt_state_new block cap) calls)
  = Z.min (Z.of_nat (length calls)) cap.
Proof.
  intros Hcap Hfits. unfold smt_state_len, smt_state_new.
  rewrite insert_all_len; simpl; [reflexivity | lia | exact Hfits].
Qed.

Lemma state_len_counts_inserts_witness :
  let k := zero_bytes 32 in
  let block := replicate 2 (mk_pair [] [] 0) in
  smt_state_len (insert_all (smt_state_new block 2) [(k, k); (k, k); (k, k)]) = 2.
Proof.
  intros k block.
  apply (state_len_counts_inserts block 2 [(k, k); (k, k); (k, k)]).
  - reflexivity.
  - reflexivity.
Defined.

(** ** What a fetch finds *)

Lemma scan_down_none (ps : list smt_pair_t) (k : bytes) (n : nat) :
  length k = 32%nat -> (n <= length ps)%nat ->
  Forall (fun p => length (key p) = 32%nat) (take n ps) ->
  scan_down ps k n < 0 ->
  forall j : nat, (j < n)%nat -> key (ps !!! j) <> k.
Proof.
  intros Hk Hn Hkeys. induction n as [|n IH]; simpl; [intros _ j Hj; lia|].
  assert (ps !! n = Some (ps !!! n)) as Hlk
    by (apply list_lookup_lookup_total_lt; lia).
  rewrite (take_S_r _ _ _ Hlk) in Hkeys.
  apply Forall_app in Hkeys as [Hkeys Hlast]. apply Forall_inv in Hlast.
  unfold SMT_KEY_BYTES.
  destruct (Z.eqb_spec (memcmp k (key (ps !!! n)) 32) 0) as [Heq|Hne]; [lia|].
  intros Hneg j Hj. destruct (decide (j = n)) as [->|Hjn].
  - intros Heq. apply Hne. apply memcmp_32_eq; done.
  - apply (IH ltac:(lia) Hkeys Hneg). lia.
Qed.

(** X5 (what a fetch finds): on a state of at most 2^31 pairs,
    [smt_state_fetch] of a 32-byte key returns [ERROR_NOT_FOUND] exactly
    when none of the first [len] pairs has the key, and otherwise returns 0
    with the value of the pair of highest index that has it; it has no
    other outcome. *)
Theorem fetch_last_pair (s : smt_state_t) (k : bytes) :
  state_ok s = true -> len s <= 2 ^ 31 -> length k = 32%nat ->
  (smt_state_fetch s k = Err ERROR_NOT_FOUND <->
   forall j : nat, (j < Z.to_nat (len s))%nat -> key (pairs s !!! j) <> k) /\
  (forall v, smt_state_fetch s k = Ok v <->
   exists i : nat, (i < Z.to_nat (len s))%nat /\
     key (pairs s !!! i) = k /\ value (pairs s !!! i) = v /\
     forall j : nat, (i < j < Z.to_nat (len s))%nat -> key (pairs s !!! j) <> k) /\
  (smt_state_fetch s k = Err ERROR_NOT_FOUND \/
   exists v, smt_state_fetch s k = Ok v).
Proof.
  intros Hs Hsmall Hk.
  pose proof (state_ok_keys s Hs) as Hkeys.
  apply state_ok_iff in Hs as (Hlen & Hcap & Hfits & _).
  unfold smt_state_fetch, scan_from. rewrite to_int32_pred by lia.
  destruct (Z.ltb_spec (len s - 1) 0) as [Hzero|Hpos].
  - replace (len s) with 0 by lia.
    destruct (Z.ltb_spec (0 - 1) 0); [|lia].
    split; [split; [intros _ j Hj; simpl in Hj; lia | reflexivity]|].
    split; [|left; reflexivity].
    intros v. split; [discriminate|]. intros (i & Hi & _). simpl in Hi. lia.
  - replace (Z.to_nat (len s - 1 + 1)) with (Z.to_nat (len s)) by lia.
    set (n := Z.to_nat (len s)).
    assert (n <= length (pairs s))%nat as Hn by lia.
    pose proof (Forall_take _ n _ Hkeys) as Hkn.
    destruct (Z.ltb_spec (scan_down (pairs s) k n) 0) as [Hneg|Hfound].
    + pose proof (scan_down_none (pairs s) k n Hk Hn Hkn Hneg) as Hnone.
      split; [split; [intros _; exact Hnone | reflexivity]|].
      split; [|left; reflexivity].
      intros v. split; [discriminate|]. intros (i & Hi & Hkey & _).
      exfalso. exact (Hnone i Hi Hkey).
    + destruct (scan_down_last (pairs s) k n Hk Hn Hkn Hfound)
        as (i & Hscan & Hi & Hkey & Hlater).
      rewrite Hscan. unfold arr_get. rewrite Nat2Z.id.
      split; [split; [discriminate | intros Hnone; exfalso; exact (Hnone i Hi Hkey)]|].
      split; [|right; eexists; reflexivity].
      intros v. split.
      * intros [= <-]. exists i. repeat split; assumption.
      * intros (i' & Hi' & Hkey' & Hv' & Hlater'). f_equal.
        destruct (lt_eq_lt_dec i i') as [[Hlt|Heq]|Hgt].
        -- exfalso. apply (Hlater i'); [lia | exact Hkey'].
        -- subst i'. exact Hv'.
        -- exfalso. apply (Hlater' i); [lia | exact Hkey].
Qed.

Lemma fetch_last_pair_witness :
  state_ok duplicate_key_state = true /\
  smt_state_fetch duplicate_key_state (zero_bytes 32) = Ok (replicate 32 2) /\
  smt_state_fetch duplicate_key_state (replicate 32 9) = Err ERROR_NOT_FOUND.
Proof.
  assert (state_ok duplicate_key_state = true) as Hs by reflexivity.
  split; [exact Hs|]. split.
  - destruct (fetch_last_pair duplicate_key_state (zero_bytes 32) Hs)
      as (_ & Hfound & _); [vm_compute; discriminate | reflexivity |].
    apply Hfound. exists 1%nat.
    split; [vm_compute; lia|]. split; [reflexivity|]. split; [reflexivity|].
    intros j Hj. vm_compute in Hj. lia.
  - destruct (fetch_last_pair duplicate_key_state (replicate 32 9) Hs)
      as (Hnone & _); [vm_compute; discriminate | reflexivity |].
    apply Hnone. intros j Hj. 
    assert (j = 0 \/ j = 1)%nat as [-> | ->] by (vm_compute in Hj; lia);
      vm_compute; discriminate.
Defined.

(** X6 (beyond 2^31 pairs): in a state of more than 2^31 pairs the
    [int32_t] index of the backward scan starts negative, so
    [smt_state_fetch] returns [ERROR_NOT_FOUND] for every key, also one the
    state holds, and [smt_state_insert] into the full state returns
    [ERROR_INSUFFICIENT_CAPACITY] for every key and changes nothing. *)
Theorem scan_index_negative (s : smt_state_t) (k v : bytes) :
  2 ^ 31 < len s < UINT32_MOD ->
  smt_state_fetch s k = Err ERROR_NOT_FOUND /\
  (capacity s <= len s ->
   smt_state_insert s k v = (s, error_code ERROR_INSUFFICIENT_CAPACITY)).
Proof.
  intros Hlen. split; [apply fetch_beyond_int32, Hlen|].
  intros Hfull. unfold smt_state_insert, scan_from.
  destruct (Z.ltb_spec (len s) (capacity s)); [lia|].
  assert (to_int32 (len s - 1) < 0) as Hneg.
  { unfold to_int32, UINT32_MOD in *. rewrite Z.mod_small by lia.
    destruct (Z.ltb_spec (len s - 1) (2 ^ 31)); lia. }
  destruct (Z.ltb_spec (to_int32 (len s - 1)) 0) as [_|]; [|lia].
  destruct (Z.ltb_spec (to_int32 (len s - 1)) 0) as [_|]; [|lia].
  reflexivity.
Qed.

Lemma scan_index_negative_witness :
  let k := zero_bytes 32 in
  let n := 2147483649 in
  let s := {| pairs := replicate (Z.to_nat n) (mk_pair k k 0);
              len := n; capacity := n |} in
  2 ^ 31 < len s < UINT32_MOD /\
  smt_state_fetch s k = Err ERROR_NOT_FOUND /\
  smt_state_insert s k k = (s, 80).
Proof.
  intros k n s.
  assert (2 ^ 31 < len s < UINT32_MOD) as Hlen
    by (unfold UINT32_MOD; cbn [len s]; subst n; lia).
  split; [exact Hlen|].
  destruct (scan_index_negative s k k Hlen) as [Hfetch Hinsert].
  split; [exact Hfetch|]. apply Hinsert. cbn [len capacity s]. lia.
Defined.

(* ================================================================= *)
(** * Further properties of the normalisation *)

(** ** The shape of a normalised state *)

Lemma skip_run_ge (fuel : nat) (ps : list smt_pair_t) (item next n : Z) :
  next <= skip_run fuel ps item next n.
Proof.
  revert next. induction fuel as [|fuel IH]; intros next; simpl; [lia|].
  destruct (_ && _); [|lia]. specialize (IH (next + 1)). lia.
Qed.

Lemma length_dedup_loop (fuel : nat) (ps : list smt_pair_t) (sorted next n : Z) :
  length (dedup_loop fuel ps sorted next n).1 = length ps.
Proof.
  revert ps sorted next. induction fuel as [|fuel IH]; intros ps sorted next; simpl;
    [reflexivity|].
  destruct (next <? n); [|reflexivity]. rewrite IH.
  destruct (negb _); [|reflexivity]. rewrite !length_arr_set. reflexivity.
Qed.

(** The duplicate removal counts one pair for every turn of its loop. *)
Lemma dedup_loop_sorted (fuel : nat) (ps : list smt_pair_t) (sorted next n : Z) :
  sorted <= (dedup_loop fuel ps sorted next n).2 <= sorted + Z.max 0 (n - next).
Proof.
  revert ps sorted next. induction fuel as [|fuel IH]; intros ps sorted next; simpl;
    [lia|].
  destruct (Z.ltb_spec next n); [|simpl; lia].
  match goal with |- context [dedup_loop fuel ?a ?b ?c n] =>
    specialize (IH a b c); pose proof (skip_run_ge (Z.to_nat (n - (next + 1))) ps next (next + 1) n)
  end.
  lia.
Qed.

(** The duplicate removal writes keys and values of pairs of the array
    only. *)
Lemma dedup_loop_Forall (P : smt_pair_t -> Prop) (fuel : nat)
  (ps : list smt_pair_t) (sorted next n : Z) :
  (forall p q, P p -> P q -> P (set_pair_key p (key q))) ->
  (forall p q, P p -> P q -> P (set_pair_value p (value q))) ->
  0 <= sorted -> 0 <= next -> n <= Z.of_nat (length ps) ->
  Forall P ps -> Forall P (dedup_loop fuel ps sorted next n).1.
Proof.
  intros Hkey Hvalue. revert ps sorted next.
  induction fuel as [|fuel IH]; intros ps sorted next Hsorted Hnext Hn Hps; simpl;
    [exact Hps|].
  destruct (Z.ltb_spec next n) as [Hlt|]; [|exact Hps].
  pose proof (skip_run_ge (Z.to_nat (n - (next + 1))) ps next (next + 1) n) as Hge.
  assert (P (arr_get ps next)) as Hq.
  { unfold arr_get. apply (proj1 (Forall_lookup P ps) Hps (Z.to_nat next)).
    apply list_lookup_lookup_total_lt. lia. }
  apply IH; try lia.
  - destruct (Z.eqb_spec next sorted); simpl; [exact Hn|].
    rewrite !length_arr_set. exact Hn.
  - destruct (Z.eqb_spec next sorted) as [|Hne]; simpl; [exact Hps|].
    rewrite (arr_get_set_ne _ sorted next) by lia.
    apply (Forall_arr_set_get P (fun p => set_pair_value p (value (arr_get ps next)))).
    + apply (Forall_arr_set_get P (fun p => set_pair_key p (key (arr_get ps next))));
        [exact Hps|]. intros p Hp. apply Hkey; assumption.
    + intros p Hp. apply Hvalue; assumption.
Qed.

Lemma length_assign_orders (s : smt_state_t) :
  0 <= len s <= Z.of_nat (length (pairs s)) ->
  length (assign_orders (pairs s) (len s)) = length (pairs s).
Proof.
  intros Hlen. rewrite (assign_orders_drop s Hlen), length_app,
    (length_tagged s Hlen), length_drop. lia.
Qed.

Lemma pair_ok_set_key (p q : smt_pair_t) :
  pair_ok p = true -> pair_ok q = true -> pair_ok (set_pair_key p (key q)) = true.
Proof.
  unfold pair_ok; simpl. intros Hp Hq.
  apply andb_true_iff in Hp as [_ Hv]. apply andb_true_iff in Hq as [Hk _].
  rewrite Hk, Hv. reflexivity.
Qed.

Lemma pair_ok_set_value (p q : smt_pair_t) :
  pair_ok p = true -> pair_ok q = true -> pair_ok (set_pair_value p (value q)) = true.
Proof.
  unfold pair_ok; simpl. intros Hp Hq.
  apply andb_true_iff in Hp as [Hk _]. apply andb_true_iff in Hq as [_ Hv].
  rewrite Hk, Hv. reflexivity.
Qed.

Lemma normalize_shape (s : smt_state_t) :
  state_ok s = true ->
  capacity (smt_state_normalize s) = capacity s /\
  length (pairs (smt_state_normalize s)) = length (pairs s) /\
  0 <= len (smt_state_normalize s) <= len s /\
  Forall (fun p => pair_ok p = true) (pairs (smt_state_normalize s)).
Proof.
  intros Hs. pose proof (state_ok_len s Hs) as Hlen.
  pose proof (state_ok_len_fits s Hs) as Hfits.
  unfold smt_state_normalize. fold (tagged s).
  set (n := Z.to_nat (len s)).
  set (ps2 := qsort _smt_pair_cmp (tagged s)
              ++ drop n (assign_orders (pairs s) (len s))).
  assert (length ps2 = length (pairs s)) as Hlen2.
  { subst ps2. rewrite length_app, (Permutation_length (qsort_perm _ _)),
      (length_tagged s Hlen), length_drop, (length_assign_orders s Hlen). lia. }
  assert (Forall (fun p => pair_ok p = true) ps2) as Hok2.
  { subst ps2. apply Forall_app. split.
    - rewrite (qsort_perm _ _). apply Forall_forall. intros q Hq.
      destruct (tagged_elem s Hs q Hq) as (i & p & Hp & _ & ->).
      apply list_elem_of_lookup_2, (live_pair_ok s Hs) in Hp. exact Hp.
    - apply Forall_drop. rewrite (assign_orders_drop s Hlen). apply Forall_app. split.
      + apply Forall_forall. intros q Hq.
        destruct (tagged_elem s Hs q Hq) as (i & p & Hp & _ & ->).
        apply list_elem_of_lookup_2, (live_pair_ok s Hs) in Hp. exact Hp.
      + apply Forall_drop. apply state_ok_iff in Hs as (_ & _ & _ & Hp). exact Hp. }
  assert (to_int32 (len s) <= len s) as Hn32.
  { unfold to_int32, UINT32_MOD in *. rewrite Z.mod_small by lia.
    destruct (Z.ltb_spec (len s) (2 ^ 31)); lia. }
  pose proof (dedup_loop_sorted (Z.to_nat (to_int32 (len s))) ps2 0 0 (to_int32 (len s)))
    as Hsorted.
  pose proof (length_dedup_loop (Z.to_nat (to_int32 (len s))) ps2 0 0 (to_int32 (len s)))
    as Hlen3.
  pose proof (dedup_loop_Forall (fun p => pair_ok p = true)
                (Z.to_nat (to_int32 (len s))) ps2 0 0 (to_int32 (len s))
                pair_ok_set_key pair_ok_set_value ltac:(lia) ltac:(lia) ltac:(lia) Hok2)
    as Hok3.
  destruct (dedup_loop (Z.to_nat (to_int32 (len s))) ps2 0 0 (to_int32 (len s)))
    as [ps3 sorted].
  simpl in *. rewrite to_uint32_small by lia.
  split; [reflexivity|]. split; [lia|]. split; [lia | exact Hok3].
Qed.

(** X7 (normalisation keeps the state well formed): after
    [smt_state_normalize] the state has the capacity and the array size it
    had, and a [len] that is not larger than before; its pairs are still
    32-byte keys and values. *)
Theorem normalize_state_ok (s : smt_state_t) :
  state_ok s = true ->
  state_ok (smt_state_normalize s) = true /\
  capacity (smt_state_normalize s) = capacity s /\
  smt_state_len (smt_state_normalize s) <= smt_state_len s.
Proof.
  intros Hs. destruct (normalize_shape s Hs) as (Hc & Hp & Hl & Hok).
  unfold smt_state_len. split; [|split; [exact Hc | lia]].
  apply state_ok_iff. apply state_ok_iff in Hs as (Hlen & Hcap & Hfits & _).
  rewrite Hc, Hp. split; [lia|]. split; [exact Hcap|]. split; [exact Hfits | exact Hok].
Qed.

Lemma normalize_state_ok_witness :
  state_ok duplicate_key_state = true /\
  state_ok (smt_state_normalize duplicate_key_state) = true /\
  smt_state_len (smt_state_normalize duplicate_key_state) = 1.
Proof.
  assert (state_ok duplicate_key_state = true) as Hs by reflexivity.
  split; [exact Hs|].
  split; [exact (proj1 (normalize_state_ok duplicate_key_state Hs)) | reflexivity].
Defined.

(** ** Keys and values that the normalisation keeps *)

Lemma run_heads_after_keys (l : list smt_pair_t) (k : bytes) (x : smt_pair_t) :
  x ∈ l -> key x = k \/ exists h, h ∈ run_heads_after k l /\ key h = key x.
Proof.
  revert k. induction l as [|y l IH]; intros k Hx; [inversion Hx|]. simpl.
  apply elem_of_cons in Hx as [->|Hx].
  - destruct (decide (key y = k)) as [Heq|Hne]; [left; exact Heq|].
    right. exists y. split; [left | reflexivity].
  - destruct (decide (key y = k)) as [Heq|Hne].
    + apply IH, Hx.
    + right. destruct (IH (key y) Hx) as [Heq|(h & Hh & Hkey)].
      * exists y. split; [left | symmetry; exact Heq].
      * exists h. split; [right; exact Hh | exact Hkey].
Qed.

(** Every key of a list is the key of the first pair of a run. *)
Lemma run_heads_keys (l : list smt_pair_t) (x : smt_pair_t) :
  x ∈ l -> exists h, h ∈ run_heads l /\ key h = key x.
Proof.
  destruct l as [|y l]; intros Hx; [inversion Hx|]. simpl.
  apply elem_of_cons in Hx as [->|Hx].
  - exists y. split; [left | reflexivity].
  - destruct (run_heads_after_keys l (key y) x Hx) as [Heq|(h & Hh & Hkey)].
    + exists y. split; [left | symmetry; exact Heq].
    + exists h. split; [right; exact Hh | exact Hkey].
Qed.

Lemma latest_write_NoDup (l : list smt_pair_t) (r : smt_pair_t) :
  NoDup (map key l) -> r ∈ l -> latest_write l (key r) = Some (value r).
Proof.
  intros Hnd Hr. apply list_elem_of_lookup in Hr as [i Hi].
  apply (latest_write_last l i r Hi). intros j q Hj Hkey.
  assert (i = j) as ->; [|lia].
  apply (NoDup_lookup (map key l) i j (key r)); [exact Hnd | |].
  - change (map key l) with (key <$> l). rewrite list_lookup_fmap, Hi. reflexivity.
  - change (map key l) with (key <$> l). rewrite list_lookup_fmap, Hj. simpl.
    rewrite Hkey. reflexivity.
Qed.

Section NormalizedKeys.

Variable s : smt_state_t.
Hypothesis s_wf : state_ok s = true.
Hypothesis s_small : len s < 2 ^ 31.

(** No key is lost. *)
Lemma normalize_keeps_keys (q : smt_pair_t) :
  q ∈ live s -> exists r, r ∈ live (smt_state_normalize s) /\ key r = key q.
Proof.
  intros Hq. pose proof (state_ok_len s s_wf) as Hlen.
  apply list_elem_of_lookup in Hq as [i Hi].
  assert (set_pair_order q (to_uint32 (len s - Z.of_nat i)) ∈ tagged s) as Hin.
  { apply list_elem_of_lookup. exists i. apply (tagged_lookup s i _ Hlen). eauto. }
  rewrite <- (qsort_perm _smt_pair_cmp) in Hin.
  destruct (run_heads_keys _ _ Hin) as (h & Hh & Hkey). simpl in Hkey.
  apply (list_elem_of_fmap_2 pair_kv) in Hh.
  change (pair_kv <$> ?l) with (map pair_kv l) in Hh.
  rewrite <- (normalize_live s s_wf s_small) in Hh.
  apply list_elem_of_fmap_1 in Hh as (r & Hkv & Hr).
  exists r. split; [exact Hr|]. injection Hkv as Hk _. congruence.
Qed.

Lemma normalize_latest_write (k : bytes) :
  latest_write (live (smt_state_normalize s)) k = latest_write (live s) k.
Proof.
  destruct (decide (k ∈ map key (live (smt_state_normalize s)))) as [Hin|Hout].
  - apply list_elem_of_fmap_1 in Hin as (r & -> & Hr).
    rewrite (normalize_latest s s_wf s_small r Hr).
    apply latest_write_NoDup; [|exact Hr].
    apply (StronglySorted_NoDup key_lt _ key_lt_irrefl).
    exact (normalize_strictly_sorted s s_wf s_small).
  - rewrite !latest_write_none; [reflexivity | |].
    + intros q Hq Hkey. destruct (normalize_keeps_keys q Hq) as (r & Hr & Hrk).
      apply Hout. apply list_elem_of_fmap. exists r. split; [congruence | exact Hr].
    + intros r Hr Hkey. apply Hout. apply list_elem_of_fmap. exists r. split; [congruence | exact Hr].
Qed.

End NormalizedKeys.

Lemma normalize_fetch (s : smt_state_t) (k : bytes) :
  state_ok s = true -> len s < 2 ^ 31 -> length k = 32%nat ->
  smt_state_fetch (smt_state_normalize s) k = smt_state_fetch s k.
Proof.
  intros Hs Hsmall Hk.
  destruct (normalize_shape s Hs) as (Hc & Hp & Hl & Hok).
  pose proof (state_ok_len s Hs) as Hlen.
  rewrite (fetch_latest_write _ k Hk).
  - rewrite (normalize_latest_write s Hs Hsmall k).
    symmetry. apply fetch_latest_write; [exact Hk | exact Hlen | lia |].
    apply Forall_take, state_ok_keys, Hs.
  - rewrite Hp. lia.
  - lia.
  - apply Forall_take. eapply Forall_impl; [exact Hok|]. intros p Hpok.
    apply andb_true_iff in Hpok as [Hpk _]. apply bytes32_length, Hpk.
Qed.

(** X8 (normalisation and fetch): on a state of fewer than 2^31 pairs,
    [smt_state_fetch] of a key gives after [smt_state_normalize] what it
    gave before: the same value, or [ERROR_NOT_FOUND]. *)
Theorem normalize_preserves_fetch (s : smt_state_t) (k : bytes) :
  state_ok s = true -> len s < 2 ^ 31 -> length k = 32%nat ->
  smt_state_fetch (smt_state_normalize s) k = smt_state_fetch s k.
Proof. apply normalize_fetch. Qed.

Lemma normalize_preserves_fetch_witness :
  state_ok duplicate_key_state = true /\
  smt_state_fetch (smt_state_normalize duplicate_key_state) (zero_bytes 32)
  = smt_state_fetch duplicate_key_state (zero_bytes 32) /\
  smt_state_fetch duplicate_key_state (zero_bytes 32) = Ok (replicate 32 2).
Proof.
  assert (state_ok duplicate_key_state = true) as Hs by reflexivity.
  split; [exact Hs|]. split; [|reflexivity].
  apply (normalize_preserves_fetch duplicate_key_state (zero_bytes 32) Hs);
    [vm_compute | ]; reflexivity.
Defined.

(** X9 (the keys of a normalised state): on a state of fewer than 2^31
    pairs, [smt_state_normalize] keeps every key and adds none, and
    [smt_state_len] is afterwards the number of distinct keys that the
    state held. *)
Theorem normalize_distinct_keys (s : smt_state_t) :
  state_ok s = true -> len s < 2 ^ 31 ->
  (forall k, k ∈ map key (live (smt_state_normalize s)) <-> k ∈ map key (live s)) /\
  smt_state_len (smt_state_normalize s)
  = Z.of_nat (length (remove_dups (map key (live s)))).
Proof.
  intros Hs Hsmall.
  assert (forall k, k ∈ map key (live (smt_state_normalize s))
                    <-> k ∈ map key (live s)) as Hkeys.
  { intros k. split; intros Hin.
    - apply list_elem_of_fmap_1 in Hin as (r & -> & Hr).
      pose proof (normalize_latest s Hs Hsmall r Hr) as Hlw.
      destruct (decide (key r ∈ map key (live s))) as [|Hout]; [assumption|].
      rewrite latest_write_none in Hlw; [discriminate|].
      intros q Hq Hkey. apply Hout. apply list_elem_of_fmap. exists q. split; [congruence | exact Hq].
    - apply list_elem_of_fmap_1 in Hin as (q & -> & Hq).
      destruct (normalize_keeps_keys s Hs Hsmall q Hq) as (r & Hr & Hkey).
      apply list_elem_of_fmap. exists r. split; [congruence | exact Hr]. }
  split; [exact Hkeys|].
  destruct (normalize_shape s Hs) as (Hc & Hp & Hl & Hok).
  pose proof (state_ok_len s Hs) as Hlen.
  assert (map key (live (smt_state_normalize s)) ≡ₚ remove_dups (map key (live s)))
    as Hperm.
  { apply NoDup_Permutation.
    - apply (StronglySorted_NoDup key_lt _ key_lt_irrefl).
      exact (normalize_strictly_sorted s Hs Hsmall).
    - apply NoDup_remove_dups.
    - intros k. rewrite Hkeys, elem_of_remove_dups. reflexivity. }
  rewrite <- (Permutation_length Hperm), length_map, length_live by (rewrite Hp; lia).
  unfold smt_state_len. lia.
Qed.

Lemma normalize_distinct_keys_witness :
  state_ok duplicate_key_state = true /\
  smt_state_len duplicate_key_state = 2 /\
  smt_state_len (smt_state_normalize duplicate_key_state) = 1.
Proof.
  assert (state_ok duplicate_key_state = true) as Hs by reflexivity.
  split; [exact Hs|]. split; [reflexivity|].
  destruct (normalize_distinct_keys duplicate_key_state Hs) as [_ Hcount];
    [vm_compute; reflexivity|].
  rewrite Hcount. reflexivity.
Defined.

(** X10 (normalisation at 2^31 pairs and beyond): there
    [(int32_t)state->len] is negative, the loop that removes duplicates
    does not run, and [smt_state_normalize] leaves a state of length 0, in
    which [smt_state_fetch] finds no key. *)
Theorem normalize_drops_all (s : smt_state_t) (k : bytes) :
  2 ^ 31 <= len s < UINT32_MOD ->
  smt_state_len (smt_state_normalize s) = 0 /\
  smt_state_fetch (smt_state_normalize s) k = Err ERROR_NOT_FOUND.
Proof.
  intros Hlen.
  assert (smt_state_len (smt_state_normalize s) = 0) as Hzero.
  { unfold smt_state_len, smt_state_normalize.
    assert (to_int32 (len s) < 0) as Hneg.
    { unfold to_int32, UINT32_MOD in *. rewrite Z.mod_small by lia.
      destruct (Z.ltb_spec (len s) (2 ^ 31)); lia. }
    replace (Z.to_nat (to_int32 (len s))) with 0%nat by lia.
    reflexivity. }
  split; [exact Hzero|].
  unfold smt_state_len in Hzero. unfold smt_state_fetch, scan_from.
  rewrite Hzero. reflexivity.
Qed.

Lemma normalize_drops_all_witness :
  let k := zero_bytes 32 in
  let n := 2147483648 in
  let s := {| pairs := replicate (Z.to_nat n) (mk_pair k k 0);
              len := n; capacity := n |} in
  2 ^ 31 <= len s < UINT32_MOD /\
  smt_state_len (smt_state_normalize s) = 0.
Proof.
  intros k n s.
  assert (2 ^ 31 <= len s < UINT32_MOD) as Hlen
    by (unfold UINT32_MOD; cbn [len s]; subst n; lia).
  split; [exact Hlen|]. exact (proj1 (normalize_drops_all s k Hlen)).
Defined.

(** ** Inserts, then normalisation, then fetch *)

Lemma insert_all_state_ok (calls : list (bytes * bytes)) (s : smt_state_t) :
  state_ok s = true ->
  Forall (fun c => bytes32 c.1 = true /\ bytes32 c.2 = true) calls ->
  state_ok (insert_all s calls) = true.
Proof.
  revert s. induction calls as [|[k v] calls IH]; intros s Hs Hcalls; [exact Hs|].
  apply Forall_cons in Hcalls as [[Hk Hv] Hcalls].
  change (insert_all s ((k, v) :: calls))
    with (insert_all (smt_state_insert s k v).1 calls).
  apply IH; [|exact Hcalls].
  exact (proj1 (insert_keeps_ok s k v Hs Hk Hv)).
Qed.

(** X11 (inserts, normalisation, fetch): after fewer than 2^31 inserts of
    32-byte keys and values into an initialised state that has room for
    all of them, and [smt_state_normalize], [smt_state_fetch] of a key
    returns 0 with the value of the latest insert of that key, and
    [ERROR_NOT_FOUND] when no insert used it. *)
Theorem insert_normalize_fetch (buffer : list smt_pair_t) (cap : Z)
  (calls : list (bytes * bytes)) (k : bytes) :
  state_ok (smt_state_init buffer cap) = true ->
  Forall (fun c => bytes32 c.1 = true /\ bytes32 c.2 = true) calls ->
  Z.of_nat (length calls) <= cap -> Z.of_nat (length calls) < 2 ^ 31 ->
  length k = 32%nat ->
  smt_state_fetch
    (smt_state_normalize (insert_all (smt_state_init buffer cap) calls)) k
  = match latest_insert calls k with
    | Some v => Ok v
    | None => Err ERROR_NOT_FOUND
    end.
Proof.
  intros Hinit Hcalls Hroom Hsmall Hk.
  pose proof (insert_all_state_ok calls _ Hinit Hcalls) as Hs.
  pose proof Hinit as Hi. apply state_ok_iff in Hi as (_ & Hcap & Hfits & _).
  simpl in Hcap, Hfits.
  destruct (insert_all_live calls (smt_state_init buffer cap))
    as (Hlen & _); simpl; try lia.
  simpl in Hlen.
  rewrite normalize_fetch by (assumption || lia).
  rewrite (fetch_latest_write _ k Hk).
  - rewrite (latest_write_insert_all buffer cap calls k Hs Hroom). reflexivity.
  - exact (state_ok_len _ Hs).
  - lia.
  - apply Forall_take, state_ok_keys, Hs.
Qed.

Lemma insert_normalize_fetch_witness :
  let k := zero_bytes 32 in
  let buffer := replicate 2 (mk_pair k k 0) in
  let calls := [(k, replicate 32 1); (k, replicate 32 2)] in
  state_ok (smt_state_init buffer 2) = true /\
  smt_state_fetch (smt_state_normalize (insert_all (smt_state_init buffer 2) calls)) k
  = Ok (replicate 32 2).
Proof.
  intros k buffer calls.
  assert (state_ok (smt_state_init buffer 2) = true) as Hinit by reflexivity.
  split; [exact Hinit|].
  rewrite (insert_normalize_fetch buffer 2 calls k Hinit).
  - reflexivity.
  - repeat constructor.
  - vm_compute. discriminate.
  - vm_compute. reflexivity.
  - reflexivity.
Defined.

(** ** The comparison of pairs *)

Lemma key_lt_asym (a b : bytes) : key_lt a b -> key_lt b a -> False.
Proof.
  intros (i & Hi & Hlt & Heq) (j & Hj & Hlt' & Heq').
  destruct (lt_eq_lt_dec i j) as [[Hij|Hij]|Hij].
  - specialize (Heq j ltac:(lia)). lia.
  - subst j. lia.
  - specialize (Heq' i ltac:(lia)). lia.
Qed.

Lemma key_lt_key_num (a b : bytes) :
  bytes32 a = true -> bytes32 b = true ->
  key_lt a b -> key_num a 32 < key_num b 32.
Proof.
  intros Ha Hb Hlt.
  destruct (Z.lt_trichotomy (key_num a 32) (key_num b 32)) as [Hn|[Hn|Hn]].
  - exact Hn.
  - apply key_num_inj in Hn; [|assumption..]. subst b.
    exfalso. exact (key_lt_irrefl a Hlt).
  - exfalso. apply (key_lt_asym a b Hlt). apply key_num_key_lt; [assumption..|lia].
Qed.

Lemma pair_cmp_from_antisym (pa pb : smt_pair_t) (n : nat) :
  0 <= order pa < 2 ^ 31 -> 0 <= order pb < 2 ^ 31 ->
  pair_cmp_from pb pa n = - pair_cmp_from pa pb n.
Proof.
  intros Hoa Hob. induction n as [|n IH]; simpl.
  - rewrite !to_int32_diff by assumption. lia.
  - destruct (Z.eqb_spec (key pa !!! n - key pb !!! n) 0) as [Hd|Hd];
      destruct (Z.eqb_spec (key pb !!! n - key pa !!! n) 0) as [Hd'|Hd']; lia.
Qed.

Lemma pair_rank_lt (a b : smt_pair_t) :
  0 <= order a < 2 ^ 31 -> 0 <= order b < 2 ^ 31 ->
  (pair_rank a < pair_rank b <->
   key_num (key a) 32 < key_num (key b) 32 \/
   (key_num (key a) 32 = key_num (key b) 32 /\ order a < order b)) /\
  (pair_rank a = pair_rank b <->
   key_num (key a) 32 = key_num (key b) 32 /\ order a = order b).
Proof.
  unfold pair_rank, UINT32_MOD.
  generalize (key_num (key a) 32), (key_num (key b) 32). intros x y Hoa Hob. lia.
Qed.

(** X12 (the order of [_smt_pair_cmp]): on pairs of 32-byte keys whose
    orders are below 2^31, the comparison is antisymmetric, it is negative
    exactly when the first key is below the second in the byte-31-first
    order or the keys are equal and the first order is the lower one, and
    it is 0 exactly for equal keys and orders. *)
Theorem pair_cmp_order (a b : smt_pair_t) :
  bytes32 (key a) = true -> bytes32 (key b) = true ->
  0 <= order a < 2 ^ 31 -> 0 <= order b < 2 ^ 31 ->
  _smt_pair_cmp b a = - _smt_pair_cmp a b /\
  (_smt_pair_cmp a b < 0 <->
   key_lt (key a) (key b) \/ (key a = key b /\ order a < order b)) /\
  (_smt_pair_cmp a b = 0 <-> key a = key b /\ order a = order b).
Proof.
  intros Ha Hb Hoa Hob.
  assert (_smt_pair_cmp b a = - _smt_pair_cmp a b) as Hanti
    by (apply pair_cmp_from_antisym; assumption).
  pose proof (pair_cmp_rank a b Ha Hb Hoa Hob) as Hab.
  pose proof (pair_cmp_rank b a Hb Ha Hob Hoa) as Hba.
  destruct (pair_rank_lt a b Hoa Hob) as [Hlt Heq].
  assert (key_num (key a) 32 < key_num (key b) 32 <-> key_lt (key a) (key b)) as Hkl.
  { split; [apply key_num_key_lt | apply key_lt_key_num]; assumption. }
  assert (key_num (key a) 32 = key_num (key b) 32 <-> key a = key b) as Hke.
  { split; [apply key_num_inj; assumption | intros ->; reflexivity]. }
  split; [exact Hanti|]. split.
  - rewrite <- Hkl, <- Hke, <- Hlt. lia.
  - rewrite <- Hke, <- Heq. lia.
Qed.

Lemma pair_cmp_order_witness :
  let a := mk_pair (zero_bytes 32) (replicate 32 1) 2 in
  let b := mk_pair (zero_bytes 32) (replicate 32 2) 1 in
  (0 <= order a < 2 ^ 31 /\ 0 <= order b < 2 ^ 31) /\
  _smt_pair_cmp b a < 0.
Proof.
  intros a b.
  assert (0 <= order a < 2 ^ 31 /\ 0 <= order b < 2 ^ 31) as Hord
    by (cbn [order a b]; lia).
  split; [exact Hord|].
  destruct (pair_cmp_order b a eq_refl eq_refl (proj2 Hord) (proj1 Hord))
    as (_ & Hneg & _).
  apply Hneg. right. split; [reflexivity | cbn [order a b]; lia].
Defined.

(** ** Normalising twice, and sorting by another algorithm *)

Lemma map_kv_imap (g : nat -> smt_pair_t -> smt_pair_t) (l : list smt_pair_t) :
  (forall i p, pair_kv (g i p) = pair_kv p) ->
  map pair_kv (imap g l) = map pair_kv l.
Proof.
  revert g. induction l as [|x l IH]; intros g Hg; [reflexivity|].
  rewrite imap_cons. simpl. rewrite Hg, IH; [reflexivity|].
  intros i p. apply Hg.
Qed.

Lemma map_kv_tagged (s : smt_state_t) :
  0 <= len s <= Z.of_nat (length (pairs s)) ->
  map pair_kv (tagged s) = map pair_kv (live s).
Proof.
  intros Hlen. rewrite (tagged_imap s Hlen). apply map_kv_imap.
  intros i p. reflexivity.
Qed.

Lemma map_key_kv (l : list smt_pair_t) : map key l = map fst (map pair_kv l).
Proof. rewrite map_map. reflexivity. Qed.

(** Pairs in strictly ascending order of keys are in the order of the
    comparison. *)
Lemma key_sorted_cmp_sorted (l : list smt_pair_t) :
  Forall numbered_ok l -> StronglySorted key_lt (map key l) -> Sorted cmp_le l.
Proof.
  intros Hnum Hs. induction l as [|x l IH]; [constructor|].
  apply Forall_cons in Hnum as [[Hkx Hox] Hnum].
  simpl in Hs. apply StronglySorted_inv in Hs as [Hs Hx].
  constructor; [apply IH; assumption|].
  destruct l as [|y l]; constructor.
  apply Forall_inv in Hnum as [Hky Hoy]. apply Forall_inv in Hx.
  unfold cmp_le. apply pair_cmp_rank; [assumption..|].
  apply Z.lt_le_incl. apply (pair_rank_lt x y Hox Hoy). left.
  apply key_lt_key_num; assumption.
Qed.

(** In strictly ascending order of keys every pair is the first of its
    run. *)
Lemma run_heads_fixed (l : list smt_pair_t) :
  StronglySorted key_lt (map key l) -> run_heads l = l.
Proof.
  destruct l as [|x l]; [reflexivity|]. simpl. intros Hs. f_equal.
  revert x Hs. induction l as [|y l IH]; intros x Hs; [reflexivity|].
  simpl in *. apply StronglySorted_inv in Hs as [Hs Hx].
  rewrite decide_False.
  - f_equal. apply IH, Hs.
  - apply Forall_inv in Hx. intros Heq. rewrite Heq in Hx.
    exact (key_lt_irrefl _ Hx).
Qed.

Lemma normalize_sorted_fixed (s : smt_state_t) :
  state_ok s = true -> len s < 2 ^ 31 ->
  StronglySorted key_lt (map key (live s)) ->
  map pair_kv (live (smt_state_normalize s)) = map pair_kv (live s).
Proof.
  intros Hs Hsmall Hsorted. pose proof (state_ok_len s Hs) as Hlen.
  assert (StronglySorted key_lt (map key (tagged s))) as Hst
    by (rewrite map_key_kv, (map_kv_tagged s Hlen), <- map_key_kv; exact Hsorted).
  rewrite (normalize_live s Hs Hsmall).
  rewrite <- (sorted_tagged_unique s Hs Hsmall (tagged s)).
  - rewrite (run_heads_fixed _ Hst). apply map_kv_tagged, Hlen.
  - reflexivity.
  - apply (key_sorted_cmp_sorted _ (tagged_numbered s Hs Hsmall) Hst).
Qed.

(** X13 (normalising a normalised state): on a state of fewer than 2^31
    pairs whose keys are strictly ascending already,
    [smt_state_normalize] changes no key and no value; so normalising
    twice gives the keys and values of normalising once. *)
Theorem normalize_idempotent (s : smt_state_t) :
  state_ok s = true -> len s < 2 ^ 31 ->
  (StronglySorted key_lt (map key (live s)) ->
   map pair_kv (live (smt_state_normalize s)) = map pair_kv (live s)) /\
  map pair_kv (live (smt_state_normalize (smt_state_normalize s)))
  = map pair_kv (live (smt_state_normalize s)).
Proof.
  intros Hs Hsmall. split; [apply normalize_sorted_fixed; assumption|].
  destruct (normalize_shape s Hs) as (Hc & Hp & Hl & Hok).
  apply normalize_sorted_fixed.
  - apply state_ok_iff. apply state_ok_iff in Hs as (Hlen & Hcap & Hfits & _).
    rewrite Hc, Hp. split; [lia|]. split; [exact Hcap|]. split; [exact Hfits | exact Hok].
  - lia.
  - exact (normalize_strictly_sorted s Hs Hsmall).
Qed.

Lemma normalize_idempotent_witness :
  state_ok duplicate_key_state = true /\
  map pair_kv (live (smt_state_normalize (smt_state_normalize duplicate_key_state)))
  = [(zero_bytes 32, replicate 32 2)].
Proof.
  assert (state_ok duplicate_key_state = true) as Hs by reflexivity.
  split; [exact Hs|].
  destruct (normalize_idempotent duplicate_key_state Hs) as [_ Htwice];
    [vm_compute; reflexivity|].
  rewrite Htwice. reflexivity.
Defined.

(** X14 (the algorithm behind [qsort]): on a state of fewer than 2^31
    pairs the comparison leaves one sorted order only, so
    [smt_state_normalize] gives the same state with any function in the
    place of [qsort] that returns the pairs it is given in an order in
    which no pair compares greater than its successor. *)
Theorem normalize_any_sort (sort : list smt_pair_t -> list smt_pair_t)
  (s : smt_state_t) :
  state_ok s = true -> len s < 2 ^ 31 ->
  sort (tagged s) ≡ₚ tagged s -> Sorted cmp_le (sort (tagged s)) ->
  smt_state_normalize_with sort s = smt_state_normalize s.
Proof.
  intros Hs Hsmall Hperm Hsorted.
  unfold smt_state_normalize_with, smt_state_normalize. fold (tagged s).
  rewrite (sorted_tagged_unique s Hs Hsmall (sort (tagged s)) Hperm Hsorted).
  reflexivity.
Qed.

Lemma normalize_any_sort_witness :
  let sort := @merge_sort smt_pair_t cmp_le
                (fun a b => Z_le_dec (_smt_pair_cmp a b) 0) in
  state_ok duplicate_key_state = true /\
  sort (tagged duplicate_key_state) ≡ₚ tagged duplicate_key_state /\
  smt_state_normalize_with sort duplicate_key_state
  = smt_state_normalize duplicate_key_state.
Proof.
  intros sort.
  assert (state_ok duplicate_key_state = true) as Hs by reflexivity.
  assert (sort (tagged duplicate_key_state) ≡ₚ tagged duplicate_key_state) as Hperm
    by apply merge_sort_Permutation.
  split; [exact Hs|]. split; [exact Hperm|].
  apply (normalize_any_sort sort duplicate_key_state Hs); [vm_compute; reflexivity | exact Hperm |].
  assert (sort (tagged duplicate_key_state)
          = [mk_pair (zero_bytes 32) (replicate 32 2) 1;
             mk_pair (zero_bytes 32) (replicate 32 1) 2]) as ->
    by (vm_compute; reflexivity).
  repeat constructor. vm_compute. discriminate.
Defined.

(* ================================================================= *)
(** * Further properties of the bit operations *)

(** X15 (setting, clearing and reading a bit): in a 32-byte key,
    [_smt_set_bit] and [_smt_clear_bit] at an offset below 256 change the
    bit at that offset and no other, as [_smt_get_bit] reads them; setting
    a clear bit and clearing it again, or clearing a set bit and setting it
    again, gives the key back. *)
Theorem bit_set_clear_get (d : bytes) (i j : Z) :
  bytes32 d = true -> 0 <= i < 256 -> 0 <= j < 256 ->
  _smt_get_bit (_smt_set_bit d i) j = (i =? j) || _smt_get_bit d j /\
  _smt_get_bit (_smt_clear_bit d i) j = negb (i =? j) && _smt_get_bit d j /\
  (_smt_get_bit d i = false -> _smt_clear_bit (_smt_set_bit d i) i = d) /\
  (_smt_get_bit d i = true -> _smt_set_bit (_smt_clear_bit d i) i = d).
Proof.
  intros Hd Hi Hj. pose proof (bytes32_length d Hd) as Hlen.
  rewrite !get_bit_key_bit by lia.
  rewrite (key_bit_set_bit d j i Hlen Hj Hi), (key_bit_clear_bit d j i Hlen Hj Hi).
  split; [apply orb_comm|]. split; [apply andb_comm|]. split.
  - intros Hclear. apply key_bits_eq;
      [apply bytes32_clear_bit, bytes32_set_bit, Hd | exact Hd |].
    intros b Hb.
    rewrite key_bit_clear_bit, key_bit_set_bit by
      (rewrite ?length_set_bit; assumption).
    destruct (Z.eqb_spec i b) as [<-|Hne]; simpl.
    + rewrite andb_false_r. symmetry. exact Hclear.
    + rewrite andb_true_r, orb_false_r. reflexivity.
  - intros Hset. apply key_bits_eq;
      [apply bytes32_set_bit, bytes32_clear_bit, Hd | exact Hd |].
    intros b Hb.
    rewrite key_bit_set_bit, key_bit_clear_bit by
      (rewrite ?length_clear_bit; assumption).
    destruct (Z.eqb_spec i b) as [<-|Hne]; simpl.
    + rewrite orb_true_r. symmetry. exact Hset.
    + rewrite andb_true_r, orb_false_r. reflexivity.
Qed.

Lemma bit_set_clear_get_witness :
  let d := zero_bytes 32 in
  bytes32 d = true /\
  _smt_get_bit (_smt_set_bit d 9) 9 = true /\
  _smt_clear_bit (_smt_set_bit d 9) 9 = d.
Proof.
  intros d. split; [reflexivity|].
  destruct (bit_set_clear_get d 9 9 eq_refl) as (Hset & _ & Hround & _); [lia..|].
  split; [rewrite Hset; reflexivity | apply Hround; reflexivity].
Defined.

(** X16 (the bits that [_smt_copy_bits] keeps): in a 32-byte key,
    [_smt_copy_bits] with [first_kept_bit] between 0 and 256 clears every
    bit below [first_kept_bit] and keeps the others; applying it twice is
    applying it once with the larger of the two arguments. *)
Theorem copy_bits_keeps (k : bytes) (n n' j : Z) :
  bytes32 k = true -> 0 <= n <= 256 -> 0 <= n' <= 256 -> 0 <= j < 256 ->
  _smt_get_bit (_smt_copy_bits k n) j = (n <=? j) && _smt_get_bit k j /\
  _smt_copy_bits (_smt_copy_bits k n) n' = _smt_copy_bits k (Z.max n n').
Proof.
  intros Hk Hn Hn' Hj. pose proof (bytes32_length k Hk) as Hlen.
  rewrite !get_bit_key_bit by lia.
  rewrite (key_bit_copy_bits k n j Hlen Hn Hj).
  split; [apply andb_comm|].
  apply key_bits_eq; [repeat apply bytes32_copy_bits; exact Hk
                     | apply bytes32_copy_bits; exact Hk |].
  intros b Hb.
  rewrite !key_bit_copy_bits by (rewrite ?length_copy_bits; (assumption || lia)).
  rewrite <- andb_assoc. f_equal.
  destruct (Z.leb_spec n b), (Z.leb_spec n' b), (Z.leb_spec (Z.max n n') b);
    try reflexivity; lia.
Qed.

Lemma copy_bits_keeps_witness :
  let k := replicate 32 255 in
  bytes32 k = true /\
  _smt_get_bit (_smt_copy_bits k 11) 10 = false /\
  _smt_get_bit (_smt_copy_bits k 11) 11 = true /\
  _smt_copy_bits (_smt_copy_bits k 11) 3 = _smt_copy_bits k 11.
Proof.
  intros k. split; [reflexivity|].
  destruct (copy_bits_keeps k 11 3 10 eq_refl) as [Hlow Htwice]; [lia..|].
  destruct (copy_bits_keeps k 11 3 11 eq_refl) as [Hhigh _]; [lia..|].
  split; [rewrite Hlow; reflexivity|].
  split; [rewrite Hhigh; reflexivity | exact Htwice].
Defined.

(** X17 (parent paths): in 32-byte keys, for heights between 0 and 255,
    the parent path of a parent path is the parent path at the larger
    height, and two keys have the same parent path at a height exactly
    when they agree on every bit above it. *)
Theorem parent_path_same_subtree (a b : bytes) (h h' : Z) :
  bytes32 a = true -> bytes32 b = true -> 0 <= h < 256 -> 0 <= h' < 256 ->
  _smt_parent_path (_smt_parent_path a h) h' = _smt_parent_path a (Z.max h h') /\
  (_smt_parent_path a h = _smt_parent_path b h <->
   forall j, h < j < 256 -> _smt_get_bit a j = _smt_get_bit b j).
Proof.
  intros Ha Hb Hh Hh'.
  pose proof (bytes32_length a Ha) as Hla. pose proof (bytes32_length b Hb) as Hlb.
  split.
  - apply key_bits_eq; [repeat apply bytes32_parent_path; exact Ha
                       | apply bytes32_parent_path; exact Ha |].
    intros j Hj.
    rewrite !key_bit_parent_path by
      (first [assumption | lia | apply bytes32_length, bytes32_parent_path, Ha]).
    rewrite <- andb_assoc. f_equal.
    destruct (Z.ltb_spec h j), (Z.ltb_spec h' j), (Z.ltb_spec (Z.max h h') j);
      try reflexivity; lia.
  - split.
    + intros Heq j Hj. rewrite !get_bit_key_bit by lia.
      assert (key_bit (_smt_parent_path a h) j = key_bit (_smt_parent_path b h) j)
        as Hbit by (rewrite Heq; reflexivity).
      rewrite !key_bit_parent_path in Hbit by (assumption || lia).
      destruct (Z.ltb_spec h j); [|lia]. rewrite !andb_true_r in Hbit. exact Hbit.
    + intros Hbits. apply key_bits_eq; [apply bytes32_parent_path; assumption..|].
      intros j Hj. rewrite !key_bit_parent_path by (assumption || lia).
      destruct (Z.ltb_spec h j) as [Hlt|Hge]; [|rewrite !andb_false_r; reflexivity].
      rewrite !andb_true_r, <- !get_bit_key_bit by lia. apply Hbits. lia.
Qed.

Lemma parent_path_same_subtree_witness :
  let a := zero_bytes 32 in
  let b := _smt_set_bit (zero_bytes 32) 3 in
  (bytes32 a = true /\ bytes32 b = true) /\
  _smt_parent_path a 3 = _smt_parent_path b 3 /\
  _smt_parent_path (_smt_parent_path b 1) 2 = _smt_parent_path b 2.
Proof.
  intros a b. split; [split; reflexivity|].
  destruct (parent_path_same_subtree a b 3 3 eq_refl eq_refl) as [_ Hsame]; [lia..|].
  destruct (parent_path_same_subtree b a 1 2 eq_refl eq_refl) as [Htwice _]; [lia..|].
  split; [|exact Htwice].
  apply Hsame. intros j Hj. unfold b.
  rewrite !get_bit_key_bit by lia.
  rewrite key_bit_set_bit by (reflexivity || lia).
  destruct (Z.eqb_spec 3 j); [lia|]. rewrite orb_false_r. reflexivity.
Defined.

(* ================================================================= *)
(** * Further properties of the proof interpreter *)

(** ** Errors of single opcodes *)

(** X18 (errors of [L]): when [smt_calculate_root] reaches an [L] opcode
    with 32 frames on the stack it returns [ERROR_INVALID_STACK], whether
    or not a leaf is left; with fewer frames and every pair of the state
    read already it returns [ERROR_INVALID_PROOF]. *)
Theorem leaf_opcode_errors (blake2b_256 : bytes -> bytes) (state : smt_state_t)
  (proof : bytes) (n : nat) (m : machine) :
  proof_length proof < UINT32_MOD ->
  run_steps blake2b_256 state proof n machine_init = Ok m ->
  proof !! Z.to_nat (proof_index m) = Some 0x4C ->
  (_SMT_STACK_SIZE <= stack_top m ->
   smt_calculate_root blake2b_256 state proof = Err ERROR_INVALID_STACK) /\
  (stack_top m < _SMT_STACK_SIZE -> len state <= leave_index m ->
   smt_calculate_root blake2b_256 state proof = Err ERROR_INVALID_PROOF).
Proof.
  intros Hfits Hrun Hop. split.
  - intros Hfull. apply (calculate_root_error _ _ _ Hfits n m _ Hrun).
    unfold exec_opcode. rewrite Hop. change (76 =? 76) with true. cbv iota.
    unfold exec_leaf, set_proof_index; simpl.
    destruct (Z.geb_spec (stack_top m) _SMT_STACK_SIZE); [reflexivity | lia].
  - intros Hroom Hused. apply (calculate_root_error _ _ _ Hfits n m _ Hrun).
    unfold exec_opcode. rewrite Hop. change (76 =? 76) with true. cbv iota.
    unfold exec_leaf, set_proof_index; simpl.
    destruct (Z.geb_spec (stack_top m) _SMT_STACK_SIZE); [lia|].
    destruct (Z.geb_spec (leave_index m) (len state)); [reflexivity | lia].
Qed.

Lemma leaf_opcode_errors_witness :
  let k := zero_bytes 32 in
  let many := {| pairs := replicate 40 (mk_pair k single_leaf_value 0);
                 len := 40; capacity := 40 |} in
  smt_calculate_root sum_digest many (replicate 33 0x4C) = Err ERROR_INVALID_STACK /\
  smt_calculate_root sum_digest (single_leaf_state 0) [0x4C; 0x4C]
  = Err ERROR_INVALID_PROOF.
Proof.
  intros k many. split.
  - destruct (leaf_opcode_errors sum_digest many (replicate 33 0x4C) 32
                (machine_after sum_digest many (replicate 33 0x4C) 32))
      as [Hstack _]; [vm_compute; reflexivity..|].
    apply Hstack. vm_compute. discriminate.
  - destruct (leaf_opcode_errors sum_digest (single_leaf_state 0) [0x4C; 0x4C] 1
                (machine_after sum_digest (single_leaf_state 0) [0x4C; 0x4C] 1))
      as [_ Hproof]; [vm_compute; reflexivity..|].
    apply Hproof; vm_compute; [reflexivity | discriminate].
Defined.

(** X19 (the stack check comes first): when [smt_calculate_root] reaches
    a [P] opcode with an empty stack, or an [H] opcode with fewer than two
    frames, it returns [ERROR_INVALID_STACK], whatever bytes follow the
    opcode and also when none does. *)
Theorem shallow_stack_errors (blake2b_256 : bytes -> bytes) (state : smt_state_t)
  (proof : bytes) (n : nat) (m : machine) :
  proof_length proof < UINT32_MOD ->
  run_steps blake2b_256 state proof n machine_init = Ok m ->
  (proof !! Z.to_nat (proof_index m) = Some 0x50 -> stack_top m = 0 ->
   smt_calculate_root blake2b_256 state proof = Err ERROR_INVALID_STACK) /\
  (proof !! Z.to_nat (proof_index m) = Some 0x48 -> stack_top m < 2 ->
   smt_calculate_root blake2b_256 state proof = Err ERROR_INVALID_STACK).
Proof.
  intros Hfits Hrun. split; intros Hop Htop;
    apply (calculate_root_error _ _ _ Hfits n m _ Hrun);
    unfold exec_opcode; rewrite Hop.
  - change (80 =? 76) with false. change (80 =? 80) with true. cbv iota.
    unfold exec_proof, set_proof_index; simpl. rewrite Htop. reflexivity.
  - change (72 =? 76) with false. change (72 =? 80) with false.
    change (72 =? 72) with true. cbv iota.
    unfold exec_merge, set_proof_index; simpl.
    destruct (Z.ltb_spec (stack_top m) 2); [reflexivity | lia].
Qed.

Lemma shallow_stack_errors_witness :
  let st := single_leaf_state 0 in
  smt_calculate_root sum_digest st (op_P 0 (zero_bytes 32)) = Err ERROR_INVALID_STACK /\
  smt_calculate_root sum_digest st [0x4C; 0x48; 0] = Err ERROR_INVALID_STACK.
Proof.
  intros st. split.
  - destruct (shallow_stack_errors sum_digest st (op_P 0 (zero_bytes 32)) 0 machine_init)
      as [Hp _]; [vm_compute; reflexivity..|].
    apply Hp; reflexivity.
  - destruct (shallow_stack_errors sum_digest st [0x4C; 0x48; 0] 1
                (machine_after sum_digest st [0x4C; 0x48; 0] 1))
      as [_ Hh]; [vm_compute; reflexivity..|].
    apply Hh; vm_compute; reflexivity.
Defined.

(** X20 (unknown opcodes): when [smt_calculate_root] reaches a byte other
    than [0x4C], [0x50] and [0x48] in the place of an opcode, it returns
    [ERROR_INVALID_PROOF]. *)
Theorem unknown_opcode (blake2b_256 : bytes -> bytes) (state : smt_state_t)
  (proof : bytes) (n : nat) (m : machine) (opcode : Z) :
  proof_length proof < UINT32_MOD ->
  run_steps blake2b_256 state proof n machine_init = Ok m ->
  proof !! Z.to_nat (proof_index m) = Some opcode ->
  opcode <> 0x4C -> opcode <> 0x50 -> opcode <> 0x48 ->
  smt_calculate_root blake2b_256 state proof = Err ERROR_INVALID_PROOF.
Proof.
  intros Hfits Hrun Hop HL HP HH.
  apply (calculate_root_error _ _ _ Hfits n m _ Hrun).
  unfold exec_opcode. rewrite Hop.
  destruct (Z.eqb_spec opcode 76); [contradiction|].
  destruct (Z.eqb_spec opcode 80); [contradiction|].
  destruct (Z.eqb_spec opcode 72); [contradiction|]. reflexivity.
Qed.

Lemma unknown_opcode_witness :
  smt_calculate_root sum_digest (single_leaf_state 0) [0x4C; 0x4D]
  = Err ERROR_INVALID_PROOF.
Proof.
  apply (unknown_opcode sum_digest (single_leaf_state 0) [0x4C; 0x4D] 1
           (machine_after sum_digest (single_leaf_state 0) [0x4C; 0x4D] 1) 0x4D);
    vm_compute; (reflexivity || discriminate).
Defined.

(** ** The counters of the interpreter *)

Section Cursors.

Variable blake2b_256 : bytes -> bytes.
Variable state : smt_state_t.
Variable proof : bytes.
Hypothesis len_fits : 0 <= len state < UINT32_MOD.

Lemma exec_opcode_cursors (m m' : machine) :
  cursors_ok state m ->
  exec_opcode blake2b_256 state proof m = Ok m' -> cursors_ok state m'.
Proof.
  unfold cursors_ok, _SMT_STACK_SIZE. intros (Htop & Hleaf). unfold exec_opcode.
  destruct (proof !! Z.to_nat (proof_index m)) as [opcode|]; [|done].
  destruct (opcode =? 76); [|destruct (opcode =? 80); [|destruct (opcode =? 72)]].
  - unfold exec_leaf; simpl. unfold _SMT_STACK_SIZE.
    destruct (Z.geb_spec (stack_top m) 32); [done|].
    destruct (Z.geb_spec (leave_index m) (len state)); [done|].
    intros [= <-]; simpl.
    rewrite !to_uint32_small by (unfold UINT32_MOD in *; lia). lia.
  - unfold exec_proof; simpl.
    destruct (stack_top m =? 0); [done|].
    destruct (_ >? _); [done|].
    destruct (proof !! _) as [height|]; [|done].
    destruct (negb _); [done|].
    intros [= <-]; simpl. lia.
  - unfold exec_merge; simpl.
    destruct (Z.ltb_spec (stack_top m) 2); [done|].
    destruct (_ >=? _); [done|].
    destruct (proof !! _) as [height|]; [|done].
    match goal with |- context [if ?c then Err _ else _] => destruct c end; [done|].
    intros [= <-]; simpl.
    rewrite to_uint32_small by (unfold UINT32_MOD; lia). lia.
  - done.
Qed.

Lemma machine_init_cursors : cursors_ok state machine_init.
Proof. unfold cursors_ok, _SMT_STACK_SIZE; simpl. lia. Qed.

Lemma run_steps_cursors (n : nat) (m m' : machine) :
  cursors_ok state m ->
  run_steps blake2b_256 state proof n m = Ok m' -> cursors_ok state m'.
Proof.
  revert m. induction n as [|n IH]; intros m Hm; simpl.
  - intros [= <-]. exact Hm.
  - destruct (exec_opcode blake2b_256 state proof m) as [m1| |] eqn:Hex; [|done..].
    apply IH. exact (exec_opcode_cursors m m1 Hm Hex).
Qed.

Lemma run_loop_cursors (fuel : nat) (m m' : machine) :
  cursors_ok state m ->
  run_loop blake2b_256 state proof fuel m = Ok m' -> cursors_ok state m'.
Proof.
  revert m. induction fuel as [|fuel IH]; intros m Hm; simpl.
  - destruct (proof_index m <? proof_length proof); [done|]. intros [= <-]. exact Hm.
  - destruct (proof_index m <? proof_length proof); [|intros [= <-]; exact Hm].
    destruct (exec_opcode blake2b_256 state proof m) as [m1| |] eqn:Hex; [|done..].
    apply IH. exact (exec_opcode_cursors m m1 Hm Hex).
Qed.

End Cursors.

(** X21 (the counters stay in range): for a state of fewer than 2^32
    pairs and a proof of fewer than 2^32 bytes, at every turn that
    [smt_calculate_root] reaches the stack holds between 0 and 32 frames,
    never more frames than leaves have been read, never more leaves than
    the state has pairs, and the position in the proof is inside the proof
    or at its end. *)
Theorem counters_in_range (blake2b_256 : bytes -> bytes) (state : smt_state_t)
  (proof : bytes) (n : nat) (m : machine) :
  0 <= len state < UINT32_MOD -> proof_length proof < UINT32_MOD ->
  run_steps blake2b_256 state proof n machine_init = Ok m ->
  0 <= stack_top m <= 32 /\
  stack_top m <= leave_index m <= len state /\
  Z.of_nat n <= proof_index m <= proof_length proof.
Proof.
  intros Hlen Hfits Hrun.
  destruct (run_steps_cursors blake2b_256 state proof Hlen n machine_init m
              (machine_init_cursors state Hlen) Hrun) as [Htop Hleaf].
  split; [exact Htop|]. split; [exact Hleaf|].
  destruct (run_loop_steps blake2b_256 state proof Hfits n 0 machine_init m
              ltac:(simpl; lia) Hrun) as (_ & Hlow & Hhigh).
  simpl in Hlow. split; [lia|].
  destruct n as [|n]; [|apply Hhigh; discriminate].
  simpl in Hrun. injection Hrun as <-. simpl. unfold proof_length. lia.
Qed.

Lemma counters_in_range_witness :
  let st := two_leaves_state (zero_bytes 32) single_leaf_value single_leaf_value 0 0 in
  let m := machine_after sum_digest st (two_leaves_proof []) 3 in
  run_steps sum_digest st (two_leaves_proof []) 3 machine_init = Ok m /\
  stack_top m = 1 /\ leave_index m = 2 /\ proof_index m = 4 /\
  (0 <= stack_top m <= 32 /\ stack_top m <= leave_index m <= len st /\
   3 <= proof_index m <= proof_length (two_leaves_proof [])).
Proof.
  intros st m.
  assert (run_steps sum_digest st (two_leaves_proof []) 3 machine_init = Ok m) as Hrun
    by (vm_compute; reflexivity).
  split; [exact Hrun|]. split; [reflexivity|]. split; [reflexivity|].
  split; [reflexivity|].
  apply (counters_in_range sum_digest st (two_leaves_proof []) 3 m);
    [vm_compute; split; [discriminate | reflexivity] | vm_compute; reflexivity | exact Hrun].
Defined.

(** X22 (no root without a pair): [smt_calculate_root] returns 0 only on
    a state that holds a pair, and so does [smt_verify]: on a state of
    length 0 every proof is refused. *)
Theorem root_needs_pair (blake2b_256 : bytes -> bytes) (state : smt_state_t)
  (proof hash : bytes) :
  0 <= len state < UINT32_MOD ->
  (forall root, smt_calculate_root blake2b_256 state proof = Ok root ->
     1 <= len state) /\
  (smt_verify blake2b_256 state proof hash = Ok tt -> 1 <= len state).
Proof.
  intros Hlen.
  assert (forall root, smt_calculate_root blake2b_256 state proof = Ok root ->
            1 <= len state) as Hroot.
  { intros root. unfold smt_calculate_root.
    destruct (run_loop blake2b_256 state proof (length proof) machine_init)
      as [m| |] eqn:Hrun; [|done..].
    destruct (run_loop_cursors blake2b_256 state proof Hlen _ _ m
                (machine_init_cursors state Hlen) Hrun) as [Htop Hleaf].
    unfold finish.
    destruct (Z.eqb_spec (leave_index m) (len state)); [|done].
    destruct (Z.eqb_spec (stack_top m) 1); [|done]. intros _. lia. }
  split; [exact Hroot|].
  unfold smt_verify.
  destruct (smt_calculate_root blake2b_256 state proof) as [root| |]; [|done..].
  intros _. apply (Hroot root). reflexivity.
Qed.

Lemma root_needs_pair_witness :
  let st := single_leaf_state 0 in
  0 <= len st < UINT32_MOD /\
  smt_calculate_root sum_digest st [0x4C]
  = Ok (sum_digest (single_leaf_key ++ single_leaf_value)) /\
  1 <= len st.
Proof.
  intros st.
  assert (0 <= len st < UINT32_MOD) as Hlen by (vm_compute; split; [discriminate | reflexivity]).
  split; [exact Hlen|].
  assert (smt_calculate_root sum_digest st [0x4C]
          = Ok (sum_digest (single_leaf_key ++ single_leaf_value))) as Hroot
    by reflexivity.
  split; [exact Hroot|].
  exact (proj1 (root_needs_pair sum_digest st [0x4C] [] Hlen) _ Hroot).
Defined.

(** ** What the interpreter reads of the state *)

Section SameLeaves.

Variable blake2b_256 : bytes -> bytes.
Variables s1 s2 : smt_state_t.
Variable proof : bytes.
Hypothesis leaves : same_leaves s1 s2.

Lemma exec_opcode_same_leaves (m : machine) :
  0 <= leave_index m ->
  exec_opcode blake2b_256 s1 proof m = exec_opcode blake2b_256 s2 proof m.
Proof.
  intros Hleaf. destruct leaves as [Hlen Hkv]. unfold exec_opcode.
  destruct (proof !! Z.to_nat (proof_index m)) as [opcode|]; [|reflexivity].
  destruct (opcode =? 76); [|reflexivity].
  unfold exec_leaf; simpl. rewrite <- Hlen.
  destruct (stack_top m >=? _SMT_STACK_SIZE); [reflexivity|].
  destruct (Z.geb_spec (leave_index m) (len s1)); [reflexivity|].
  specialize (Hkv (Z.to_nat (leave_index m)) ltac:(lia)).
  injection Hkv as Hk Hv. unfold arr_get. rewrite Hk, Hv. reflexivity.
Qed.

Lemma exec_opcode_leave_index (s : smt_state_t) (m m' : machine) :
  0 <= leave_index m ->
  exec_opcode blake2b_256 s proof m = Ok m' -> 0 <= leave_index m'.
Proof.
  intros Hleaf. unfold exec_opcode.
  destruct (proof !! Z.to_nat (proof_index m)) as [opcode|]; [|done].
  destruct (opcode =? 76); [|destruct (opcode =? 80); [|destruct (opcode =? 72)]].
  - unfold exec_leaf; simpl.
    destruct (stack_top m >=? _SMT_STACK_SIZE); [done|].
    destruct (leave_index m >=? len s); [done|].
    intros [= <-]; simpl. apply to_uint32_nonneg.
  - unfold exec_proof; simpl.
    destruct (stack_top m =? 0); [done|].
    destruct (_ >? _); [done|].
    destruct (proof !! _) as [height|]; [|done].
    destruct (negb _); [done|].
    intros [= <-]; simpl. exact Hleaf.
  - unfold exec_merge; simpl.
    destruct (stack_top m <? 2); [done|].
    destruct (_ >=? _); [done|].
    destruct (proof !! _) as [height|]; [|done].
    match goal with |- context [if ?c then Err _ else _] => destruct c end; [done|].
    intros [= <-]; simpl. exact Hleaf.
  - done.
Qed.

Lemma run_loop_same_leaves (fuel : nat) (m : machine) :
  0 <= leave_index m ->
  run_loop blake2b_256 s1 proof fuel m = run_loop blake2b_256 s2 proof fuel m.
Proof.
  revert m. induction fuel as [|fuel IH]; intros m Hleaf; simpl; [reflexivity|].
  destruct (proof_index m <? proof_length proof); [|reflexivity].
  rewrite <- (exec_opcode_same_leaves m Hleaf).
  destruct (exec_opcode blake2b_256 s1 proof m) as [m1| |] eqn:Hex; [|reflexivity..].
  apply IH. exact (exec_opcode_leave_index s1 m m1 Hleaf Hex).
Qed.

Lemma calculate_root_same_leaves :
  smt_calculate_root blake2b_256 s1 proof = smt_calculate_root blake2b_256 s2 proof.
Proof.
  unfold smt_calculate_root.
  rewrite <- (run_loop_same_leaves (length proof) machine_init ltac:(simpl; lia)).
  destruct (run_loop blake2b_256 s1 proof (length proof) machine_init);
    [|reflexivity..].
  unfold finish. rewrite (proj1 leaves). reflexivity.
Qed.

End SameLeaves.

(** X23 (what is read of the state): [smt_calculate_root] and
    [smt_verify] depend on the state through [len] and the keys and values
    of the first [len] pairs only: not on the [order] of a pair, not on
    [capacity], and not on the slots of the array from [len] on. *)
Theorem root_reads_leaves (blake2b_256 : bytes -> bytes) (s1 s2 : smt_state_t)
  (proof hash : bytes) :
  same_leaves s1 s2 ->
  smt_calculate_root blake2b_256 s1 proof = smt_calculate_root blake2b_256 s2 proof /\
  smt_verify blake2b_256 s1 proof hash = smt_verify blake2b_256 s2 proof hash.
Proof.
  intros Hsame.
  pose proof (calculate_root_same_leaves blake2b_256 s1 s2 proof Hsame) as Hroot.
  split; [exact Hroot|]. unfold smt_verify. rewrite Hroot. reflexivity.
Qed.

Lemma root_reads_leaves_witness :
  let s1 := single_leaf_state 0 in
  let s2 := {| pairs := [mk_pair single_leaf_key single_leaf_value 7;
                         mk_pair (replicate 32 1) (replicate 32 2) 8];
               len := 1; capacity := 2 |} in
  same_leaves s1 s2 /\
  smt_calculate_root sum_digest s2 [0x4C]
  = Ok (sum_digest (single_leaf_key ++ single_leaf_value)).
Proof.
  intros s1 s2.
  assert (same_leaves s1 s2) as Hsame.
  { split; [reflexivity|]. intros i Hi.
    assert (i = 0%nat) as -> by (vm_compute in Hi; lia). reflexivity. }
  split; [exact Hsame|].
  rewrite <- (proj1 (root_reads_leaves sum_digest s1 s2 [0x4C] [] Hsame)).
  reflexivity.
Defined.

(** ** The sibling check in terms of bits *)

Lemma sibling_check_bits (ka kb : bytes) (h : Z) :
  bytes32 ka = true -> bytes32 kb = true -> 0 <= h < 256 ->
  let a_bit := _smt_get_bit ka h in
  let b_bit := _smt_get_bit kb h in
  let expected_sibling :=
    if a_bit then _smt_copy_bits ka h
    else _smt_set_bit (_smt_copy_bits ka h) h in
  (expected_sibling = _smt_copy_bits kb h /\ a_bit <> b_bit) <-> siblings_at ka kb h.
Proof.
  intros Ha Hb Hh a_bit b_bit expected_sibling. unfold siblings_at.
  pose proof (bytes32_length ka Ha) as Hla. pose proof (bytes32_length kb Hb) as Hlb.
  fold a_bit b_bit. subst expected_sibling.
  assert (a_bit = key_bit ka h) as Hak by (apply get_bit_key_bit; lia).
  assert (b_bit = key_bit kb h) as Hbk by (apply get_bit_key_bit; lia).
  split.
  - intros [Hexp Hne].
    assert (forall j, 0 <= j < 256 ->
              key_bit (if a_bit then _smt_copy_bits ka h
                       else _smt_set_bit (_smt_copy_bits ka h) h) j
              = key_bit kb j && (h <=? j)) as Hbits.
    { intros j Hj. rewrite Hexp. apply key_bit_copy_bits; (assumption || lia). }
    destruct a_bit eqn:Ea.
    + exfalso. apply Hne. specialize (Hbits h Hh).
      rewrite key_bit_copy_bits, <- Hak, <- Hbk in Hbits by (assumption || lia).
      destruct (Z.leb_spec h h); [|lia]. rewrite !andb_true_r in Hbits. exact Hbits.
    + split; [reflexivity|]. split; [destruct b_bit; [reflexivity | congruence]|].
      intros j Hj. rewrite !get_bit_key_bit by lia.
      specialize (Hbits j ltac:(lia)).
      rewrite key_bit_set_bit, key_bit_copy_bits in Hbits
        by (rewrite ?length_copy_bits; (assumption || lia)).
      destruct (Z.leb_spec h j); [|lia]. destruct (Z.eqb_spec h j); [lia|].
      rewrite !andb_true_r, orb_false_r in Hbits. exact Hbits.
  - intros (Hza & Hob & Habove). rewrite Hza, Hob. split; [|discriminate].
    apply key_bits_eq;
      [apply bytes32_set_bit, bytes32_copy_bits, Ha | apply bytes32_copy_bits, Hb |].
    intros j Hj.
    rewrite key_bit_set_bit, !key_bit_copy_bits
      by (rewrite ?length_copy_bits; (assumption || lia)).
    destruct (Z.eqb_spec h j) as [<-|Hne].
    + rewrite <- Hbk, Hob. destruct (Z.leb_spec h h); [|lia].
      rewrite orb_true_r. reflexivity.
    + rewrite orb_false_r. destruct (Z.leb_spec h j); [|rewrite !andb_false_r; reflexivity].
      rewrite !andb_true_r, <- !get_bit_key_bit by lia. apply Habove. lia.
Qed.

Lemma merge_check_siblings (blake2b_256 : bytes -> bytes) (state : smt_state_t)
  (proof : bytes) (n : nat) (m : machine) (height : Z) :
  state_ok state = true -> proof_ok proof = true ->
  run_steps blake2b_256 state proof n machine_init = Ok m ->
  proof !! Z.to_nat (proof_index m) = Some 0x48 ->
  2 <= stack_top m ->
  proof !! Z.to_nat (proof_index m + 1) = Some height ->
  let key_a := arr_get (stack_keys m) (stack_top m - 2) in
  let key_b := arr_get (stack_keys m) (stack_top m - 1) in
  ((exists m', exec_opcode blake2b_256 state proof m = Ok m') <->
   siblings_at key_a key_b height) /\
  (~ siblings_at key_a key_b height ->
   smt_calculate_root blake2b_256 state proof = Err ERROR_INVALID_SIBLING).
Proof.
  intros Hst Hproof Hrun Hop Hdepth Hheight key_a key_b.
  pose proof (reached_ok blake2b_256 state proof n m Hst Hrun) as Hm.
  pose proof (proof_ok_byte proof _ height Hproof Hheight) as Hh.
  assert (bytes32 key_a = true /\ bytes32 key_b = true) as [Ha Hb].
  { pose proof Hm as Hm'. apply machine_ok_iff in Hm' as (_ & _ & _ & Ht & _).
    split; apply machine_ok_key; (assumption || lia). }
  pose proof (sibling_check_bits key_a key_b height Ha Hb Hh) as Hbits.
  destruct (merge_check_reached blake2b_256 state proof n m height
              Hst Hproof Hrun Hop Hdepth Hheight) as (Hiff & Hfail & Hpass).
  cbv zeta in Hbits, Hiff, Hfail, Hpass. fold key_a key_b in Hiff, Hfail, Hpass.
  split; [split|].
  - intros [m' Hex]. apply Hbits.
    split.
    + destruct (decide ((if _smt_get_bit key_a height
                         then _smt_copy_bits key_a height
                         else _smt_set_bit (_smt_copy_bits key_a height) height)
                        = _smt_copy_bits key_b height)) as [|Hne]; [assumption|].
      assert (exec_opcode blake2b_256 state proof m = Err ERROR_INVALID_SIBLING)
        as Herr by (apply Hiff; left; exact Hne).
      congruence.
    + intros Heq.
      assert (exec_opcode blake2b_256 state proof m = Err ERROR_INVALID_SIBLING)
        as Herr by (apply Hiff; right; exact Heq).
      congruence.
  - intros Hsib. apply Hpass. apply Hbits in Hsib as [Hexp Hne].
    intros [Hf|Hf]; contradiction.
  - intros Hnot. apply Hfail.
    destruct (decide ((if _smt_get_bit key_a height
                       then _smt_copy_bits key_a height
                       else _smt_set_bit (_smt_copy_bits key_a height) height)
                      = _smt_copy_bits key_b height)) as [Hexp|Hne]; [|left; exact Hne].
    destruct (Bool.bool_dec (_smt_get_bit key_a height) (_smt_get_bit key_b height))
      as [Heq|Hneq]; [right; exact Heq|].
    exfalso. apply Hnot, Hbits. split; assumption.
Qed.

(** X24 (siblings): when [smt_calculate_root] reaches an [H] opcode with
    at least two frames and its height byte, the opcode passes exactly when
    bit [height] is clear in the lower key and set in the upper key and
    the two keys agree on every bit above [height]; the bits below
    [height] play no part.  Otherwise the call returns
    [ERROR_INVALID_SIBLING]. *)
Theorem merge_siblings_bits (blake2b_256 : bytes -> bytes) (state : smt_state_t)
  (proof : bytes) (n : nat) (m : machine) (height : Z) :
  state_ok state = true -> proof_ok proof = true ->
  run_steps blake2b_256 state proof n machine_init = Ok m ->
  proof !! Z.to_nat (proof_index m) = Some 0x48 ->
  2 <= stack_top m ->
  proof !! Z.to_nat (proof_index m + 1) = Some height ->
  let key_a := arr_get (stack_keys m) (stack_top m - 2) in
  let key_b := arr_get (stack_keys m) (stack_top m - 1) in
  ((exists m', exec_opcode blake2b_256 state proof m = Ok m') <->
   siblings_at key_a key_b height) /\
  (~ siblings_at key_a key_b height ->
   smt_calculate_root blake2b_256 state proof = Err ERROR_INVALID_SIBLING).
Proof. apply merge_check_siblings. Qed.

Lemma merge_siblings_bits_witness :
  let st := two_leaves_state (replicate 32 6) single_leaf_value single_leaf_value 0 0 in
  let proof := 0x4C :: 0x4C :: 0x48 :: [3] in
  let m := machine_after sum_digest st proof 2 in
  run_steps sum_digest st proof 2 machine_init = Ok m /\
  siblings_at (arr_get (stack_keys m) 0) (arr_get (stack_keys m) 1) 0 /\
  smt_calculate_root sum_digest st proof = Err ERROR_INVALID_SIBLING.
Proof.
  intros st proof m.
  assert (run_steps sum_digest st proof 2 machine_init = Ok m) as Hrun
    by (vm_compute; reflexivity).
  split; [exact Hrun|]. split.
  - pose (proof0 := 0x4C :: 0x4C :: 0x48 :: [0]).
    assert (run_steps sum_digest st proof0 2 machine_init = Ok m) as Hrun0
      by (vm_compute; reflexivity).
    destruct (merge_siblings_bits sum_digest st proof0 2 m 0) as [Hiff _];
      [reflexivity | reflexivity | exact Hrun0 | reflexivity
      | vm_compute; discriminate | reflexivity |].
    apply Hiff. eexists. vm_compute. reflexivity.
  - destruct (merge_siblings_bits sum_digest st proof 2 m 3) as [_ Hfail];
      [reflexivity | reflexivity | exact Hrun | reflexivity
      | vm_compute; discriminate | reflexivity |].
    apply Hfail. intros (_ & Hset & _). vm_compute in Hset. discriminate.
Defined.

(** ** The opcodes of a proof that passes *)

Section Opcodes.

Variable blake2b_256 : bytes -> bytes.
Variable state : smt_state_t.
Variable proof : bytes.
Hypothesis len_fits : 0 <= len state < UINT32_MOD.

(** What a turn that does not fail does to the counters. *)
Lemma exec_opcode_counters (m m' : machine) (opcode : Z) :
  cursors_ok state m ->
  proof !! Z.to_nat (proof_index m) = Some opcode ->
  exec_opcode blake2b_256 state proof m = Ok m' ->
  (opcode = 0x4C /\ stack_top m' = stack_top m + 1 /\
   leave_index m' = leave_index m + 1) \/
  (opcode = 0x50 /\ stack_top m' = stack_top m /\ leave_index m' = leave_index m) \/
  (opcode = 0x48 /\ stack_top m' = stack_top m - 1 /\
   leave_index m' = leave_index m).
Proof.
  unfold cursors_ok, _SMT_STACK_SIZE. intros (Htop & Hleaf) Hop.
  unfold exec_opcode. rewrite Hop. clear Hop.
  destruct (Z.eqb_spec opcode 76) as [->|];
    [|destruct (Z.eqb_spec opcode 80) as [->|];
      [|destruct (Z.eqb_spec opcode 72) as [->|]]].
  - unfold exec_leaf; simpl. unfold _SMT_STACK_SIZE.
    destruct (Z.geb_spec (stack_top m) 32); [done|].
    destruct (Z.geb_spec (leave_index m) (len state)); [done|].
    intros [= <-]; simpl.
    rewrite !to_uint32_small by (unfold UINT32_MOD in *; lia). left. done.
  - unfold exec_proof; simpl.
    destruct (stack_top m =? 0); [done|].
    destruct (_ >? _); [done|].
    destruct (proof !! _) as [height|]; [|done].
    destruct (negb _); [done|].
    intros [= <-]; simpl. right. left. done.
  - unfold exec_merge; simpl.
    destruct (Z.ltb_spec (stack_top m) 2); [done|].
    destruct (_ >=? _); [done|].
    destruct (proof !! _) as [height|]; [|done].
    match goal with |- context [if ?c then Err _ else _] => destruct c end; [done|].
    intros [= <-]; simpl.
    rewrite to_uint32_small by (unfold UINT32_MOD; lia). right. right.
    split; [reflexivity|]. split; [lia | reflexivity].
  - done.
Qed.

Lemma count_opcode_cons (c op : Z) (ops : list Z) :
  count_opcode c (op :: ops)
  = (if decide (op = c) then 1 else 0) + count_opcode c ops.
Proof.
  unfold count_opcode. rewrite filter_cons.
  destruct (decide (op = c)); simpl length; lia.
Qed.

Lemma run_loop_counters (fuel : nat) (m m' : machine) :
  cursors_ok state m ->
  run_loop blake2b_256 state proof fuel m = Ok m' ->
  let ops := opcodes_run blake2b_256 state proof fuel m in
  Forall (fun op => op = 0x4C \/ op = 0x50 \/ op = 0x48) ops /\
  leave_index m' = leave_index m + count_opcode 0x4C ops /\
  stack_top m' = stack_top m + count_opcode 0x4C ops - count_opcode 0x48 ops.
Proof.
  revert m. induction fuel as [|fuel IH]; intros m Hm; simpl.
  - destruct (proof_index m <? proof_length proof); [done|]. intros [= <-].
    split; [constructor|]. unfold count_opcode; simpl. lia.
  - destruct (proof_index m <? proof_length proof).
    2:{ intros [= <-]. split; [constructor|]. unfold count_opcode; simpl. lia. }
    destruct (exec_opcode blake2b_256 state proof m) as [m1| |] eqn:Hex; [|done..].
    destruct (proof !! Z.to_nat (proof_index m)) as [opcode|] eqn:Hop.
    2:{ unfold exec_opcode in Hex. rewrite Hop in Hex. discriminate. }
    intros Hrun.
    destruct (IH m1 (exec_opcode_cursors blake2b_256 state proof len_fits m m1 Hm Hex)
                Hrun) as (Hall & Hleaf & Htop).
    rewrite !count_opcode_cons.
    destruct (exec_opcode_counters m m1 opcode Hm Hop Hex)
      as [(-> & Ht & Hl)|[(-> & Ht & Hl)|(-> & Ht & Hl)]];
      (split; [constructor; [auto | exact Hall]|]);
      repeat match goal with |- context [decide (?a = ?b)] =>
               destruct (decide (a = b)); try discriminate; try contradiction end;
      lia.
Qed.

End Opcodes.

(** X25 (the opcodes of a proof that passes): when [smt_calculate_root]
    returns 0 on a state of [len] pairs, the opcodes it has executed are
    [L], [P] and [H] only, with exactly [len] times [L] and [len - 1] times
    [H]. *)
Theorem passing_proof_opcodes (blake2b_256 : bytes -> bytes) (state : smt_state_t)
  (proof root : bytes) :
  0 <= len state < UINT32_MOD ->
  smt_calculate_root blake2b_256 state proof = Ok root ->
  let ops := opcodes_run blake2b_256 state proof (length proof) machine_init in
  Forall (fun op => op = 0x4C \/ op = 0x50 \/ op = 0x48) ops /\
  count_opcode 0x4C ops = len state /\
  count_opcode 0x48 ops = len state - 1.
Proof.
  intros Hlen. unfold smt_calculate_root.
  destruct (run_loop blake2b_256 state proof (length proof) machine_init)
    as [m| |] eqn:Hrun; [|done..].
  destruct (run_loop_counters blake2b_256 state proof Hlen _ _ m
              (machine_init_cursors state Hlen) Hrun) as (Hall & Hleaf & Htop).
  unfold finish.
  destruct (Z.eqb_spec (leave_index m) (len state)); [|done].
  destruct (Z.eqb_spec (stack_top m) 1); [|done]. intros _.
  cbn [leave_index stack_top machine_init] in Hleaf, Htop.
  split; [exact Hall|]. lia.
Qed.

Lemma passing_proof_opcodes_witness :
  let st := two_leaves_state (zero_bytes 32) single_leaf_value single_leaf_value 0 0 in
  let proof := two_leaves_proof (op_P 1 (replicate 32 76)) in
  let ops := opcodes_run sum_digest st proof (length proof) machine_init in
  0 <= len st < UINT32_MOD /\
  (exists root, smt_calculate_root sum_digest st proof = Ok root) /\
  ops = [0x4C; 0x4C; 0x48; 0x50] /\
  count_opcode 0x4C ops = 2.
Proof.
  intros st proof ops.
  assert (0 <= len st < UINT32_MOD) as Hlen
    by (vm_compute; split; [discriminate | reflexivity]).
  split; [exact Hlen|].
  assert (exists root, smt_calculate_root sum_digest st proof = Ok root) as [root Hroot]
    by (eexists; vm_compute; reflexivity).
  split; [exists root; exact Hroot|]. split; [vm_compute; reflexivity|].
  exact (proj1 (proj2 (passing_proof_opcodes sum_digest st proof root Hlen Hroot))).
Defined.

(** ** The stack arrays and the reads of the proof *)

(** X26 (uninitialised stack arrays): [smt_calculate_root] does not
    initialise its two stack arrays; whatever the 32 slots of each hold
    when the call starts, the call returns the same code and the same
    root. *)
Theorem stack_arrays_any_content (blake2b_256 : bytes -> bytes)
  (state : smt_state_t) (proof : bytes) (keys0 values0 : list bytes) :
  length keys0 = 32%nat -> length values0 = 32%nat ->
  calculate_root_from blake2b_256 state proof keys0 values0
  = smt_calculate_root blake2b_256 state proof.
Proof. apply calculate_root_any_init. Qed.

Lemma stack_arrays_any_content_witness :
  let keys0 := replicate 32 (replicate 32 255) in
  let values0 := replicate 32 (replicate 32 171) in
  calculate_root_from sum_digest (single_leaf_state 0) [0x4C] keys0 values0
  = Ok (sum_digest (single_leaf_key ++ single_leaf_value)).
Proof.
  intros keys0 values0.
  rewrite (stack_arrays_any_content sum_digest (single_leaf_state 0) [0x4C]
             keys0 values0 eq_refl eq_refl).
  reflexivity.
Defined.

(** X27 (reads of the proof): on a proof shorter than 2^32 - 33 bytes
    [smt_calculate_root] reads no byte outside the proof: on every state it
    returns 0 with a root, or one of the error codes. *)
Theorem proof_reads_in_bounds (blake2b_256 : bytes -> bytes)
  (state : smt_state_t) (proof : bytes) :
  proof_length proof < UINT32_MOD - 33 ->
  (exists root, smt_calculate_root blake2b_256 state proof = Ok root) \/
  (exists e, smt_calculate_root blake2b_256 state proof = Err e).
Proof.
  intros Hfits.
  pose proof (calculate_root_defined blake2b_256 state proof Hfits) as Hdef.
  destruct (smt_calculate_root blake2b_256 state proof) as [root|e|].
  - left. exists root. reflexivity.
  - right. exists e. reflexivity.
  - contradiction.
Qed.

Lemma proof_reads_in_bounds_witness :
  let proof := 0x4C :: op_P 3 (replicate 20 0) in
  proof_length proof < UINT32_MOD - 33 /\
  ((exists root, smt_calculate_root sum_digest (single_leaf_state 0) proof = Ok root) \/
   (exists e, smt_calculate_root sum_digest (single_leaf_state 0) proof = Err e)).
Proof.
  intros proof.
  assert (proof_length proof < UINT32_MOD - 33) as Hfits by (vm_compute; reflexivity).
  split; [exact Hfits|].
  exact (proof_reads_in_bounds sum_digest (single_leaf_state 0) proof Hfits).
Defined.

(** X28 (the length check of [P] at the end of the address range): where
    [proof_index + 33] passes 2^32 the sum wraps, the check
    [proof_index + 33 > proof_length] lets the opcode through although
    fewer than 33 bytes follow it, and the case reads outside the proof. *)
Theorem proof_check_wraps (blake2b_256 : bytes -> bytes) (state : smt_state_t)
  (proof : bytes) (m : machine) :
  proof_length proof < UINT32_MOD ->
  proof !! Z.to_nat (proof_index m) = Some 0x50 ->
  1 <= stack_top m ->
  UINT32_MOD - 34 <= proof_index m ->
  exec_opcode blake2b_256 state proof m = Undef.
Proof. apply exec_proof_wraps. Qed.

Lemma proof_check_wraps_witness :
  let n := 4294967295 in
  let proof := replicate (Z.to_nat n) 0x50 in
  let m := {| stack_keys := replicate 32 (zero_bytes 32);
              stack_values := replicate 32 (zero_bytes 32);
              proof_index := n - 1; leave_index := 1; stack_top := 1 |} in
  proof_length proof < UINT32_MOD /\
  proof !! Z.to_nat (proof_index m) = Some 0x50 /\
  exec_opcode sum_digest (single_leaf_state 0) proof m = Undef.
Proof.
  intros n proof m.
  assert (proof_length proof = n) as Hlen.
  { unfold proof_length. subst proof. rewrite length_replicate. apply Z2Nat.id.
    subst n. lia. }
  assert (proof_length proof < UINT32_MOD) as Hfits
    by (rewrite Hlen; subst n; unfold UINT32_MOD; lia).
  assert (proof !! Z.to_nat (proof_index m) = Some 0x50) as Hop.
  { subst proof. apply lookup_replicate_2. cbn [proof_index m]. subst n. lia. }
  split; [exact Hfits|]. split; [exact Hop|].
  apply (proof_check_wraps sum_digest (single_leaf_state 0) proof m Hfits Hop).
  - cbn [stack_top m]. lia.
  - cbn [proof_index m]. subst n. unfold UINT32_MOD. lia.
Defined.

(** ** Two leaves and one merge *)

(** X29 (two sibling leaves): for two pairs whose keys are siblings at
    [height], the first key being the one with bit [height] clear, the
    proof [L], [L], [H height] gives the merge of the two leaf digests as
    the root, whatever the bits of the keys below [height] are; when the
    keys are no siblings at [height] it gives [ERROR_INVALID_SIBLING]. *)
Theorem sibling_leaves_root (blake2b_256 : bytes -> bytes)
  (p1 p2 : smt_pair_t) (height : Z) :
  pair_ok p1 = true -> pair_ok p2 = true -> 0 <= height < 256 ->
  let proof := [0x4C; 0x4C; 0x48; height] in
  (siblings_at (key p1) (key p2) height ->
   smt_calculate_root blake2b_256 (two_pairs_state p1 p2) proof
   = Ok (_smt_merge blake2b_256 (leaf_digest blake2b_256 p1)
           (leaf_digest blake2b_256 p2))) /\
  (~ siblings_at (key p1) (key p2) height ->
   smt_calculate_root blake2b_256 (two_pairs_state p1 p2) proof
   = Err ERROR_INVALID_SIBLING).
Proof.
  intros Hp1 Hp2 Hh proof.
  set (st := two_pairs_state p1 p2).
  assert (state_ok st = true) as Hst.
  { apply state_ok_iff. simpl. repeat split; try done. repeat constructor; assumption. }
  assert (proof_ok proof = true) as Hproof.
  { apply proof_ok_iff. split; [|vm_compute; reflexivity].
    repeat constructor; unfold is_byte; lia. }
  pose proof Hp1 as Hk1. apply andb_true_iff in Hk1 as [Hk1 _].
  pose proof Hp2 as Hk2. apply andb_true_iff in Hk2 as [Hk2 _].
  pose proof (exec_leaf_eq blake2b_256 st proof machine_init Hst Hproof
                eq_refl eq_refl ltac:(simpl; lia) ltac:(simpl; lia)) as H1.
  cbv zeta in H1.
  match type of H1 with _ = Ok ?x => set (m1 := x) in * end.
  assert (machine_ok m1 = true) as Hm1
    by exact (exec_opcode_ok blake2b_256 st proof Hst machine_init m1
                machine_init_ok H1).
  pose proof (exec_leaf_eq blake2b_256 st proof m1 Hst Hproof
                Hm1 eq_refl ltac:(simpl; lia) ltac:(simpl; lia)) as H2.
  cbv zeta in H2.
  match type of H2 with _ = Ok ?x => set (m2 := x) in * end.
  assert (run_steps blake2b_256 st proof 2 machine_init = Ok m2) as Hrun.
  { cbn [run_steps]. rewrite H1, H2. reflexivity. }
  assert (arr_get (stack_keys m2) (stack_top m2 - 2) = key p1) as Hka by reflexivity.
  assert (arr_get (stack_keys m2) (stack_top m2 - 1) = key p2) as Hkb by reflexivity.
  destruct (merge_check_siblings blake2b_256 st proof 2 m2 height Hst Hproof Hrun
              eq_refl ltac:(simpl; lia) eq_refl) as [Hiff Hfail].
  rewrite Hka, Hkb in Hiff, Hfail.
  split; [|exact Hfail].
  intros Hsib. apply Hiff in Hsib as [m3 H3].
  assert (machine_ok m2 = true) as Hm2
    by exact (exec_opcode_ok blake2b_256 st proof Hst m1 m2 Hm1 H2).
  destruct (merge_success_reached blake2b_256 st proof 2 m2 height Hst Hproof Hrun
              eq_refl ltac:(simpl; lia) eq_refl m3 H3)
    as (_ & _ & Htop & Hvalue & _).
  assert (proof_index m3 = 4 /\ leave_index m3 = 2) as [Hpi Hleaf].
  { pose proof (exec_merge_eq blake2b_256 st proof m2 height Hproof Hm2
                  eq_refl ltac:(simpl; lia) eq_refl) as Heq.
    cbv zeta in Heq. rewrite H3 in Heq.
    destruct (negb _ || _); [discriminate|]. injection Heq as ->.
    split; reflexivity. }
  unfold smt_calculate_root.
  change (length proof) with (3 + 1)%nat.
  assert (run_steps blake2b_256 st proof 3 machine_init = Ok m3) as Hrun3.
  { cbn [run_steps]. rewrite H1, H2, H3. reflexivity. }
  destruct (run_loop_steps blake2b_256 st proof ltac:(vm_compute; reflexivity)
              3 1 machine_init m3 ltac:(simpl; lia) Hrun3) as (-> & _).
  cbn [run_loop]. rewrite Hpi.
  change (4 <? proof_length proof) with false. cbv iota.
  unfold finish. rewrite Hleaf, Htop.
  change (stack_top m2 - 1) with 1 in *.
  change (negb (2 =? len st)) with false. change (negb (1 =? 1)) with false.
  cbv iota. rewrite Htop in Hvalue. change (1 - 1) with 0 in Hvalue.
  rewrite Hvalue. reflexivity.
Qed.

Lemma sibling_leaves_root_witness :
  let p1 := mk_pair (replicate 32 6) single_leaf_value 0 in
  let p2 := mk_pair (_smt_set_bit (replicate 32 6) 0) single_leaf_value 0 in
  (pair_ok p1 = true /\ pair_ok p2 = true) /\
  siblings_at (key p1) (key p2) 0 /\
  smt_calculate_root sum_digest (two_pairs_state p1 p2) [0x4C; 0x4C; 0x48; 0]
  = Ok (_smt_merge sum_digest (leaf_digest sum_digest p1) (leaf_digest sum_digest p2)) /\
  smt_calculate_root sum_digest (two_pairs_state p1 p2) [0x4C; 0x4C; 0x48; 3]
  = Err ERROR_INVALID_SIBLING.
Proof.
  intros p1 p2. split; [split; reflexivity|].
  assert (siblings_at (key p1) (key p2) 0) as Hsib.
  { split; [reflexivity|]. split; [reflexivity|].
    intros j Hj. cbn [key p1 p2]. rewrite !get_bit_key_bit by lia.
    rewrite key_bit_set_bit by (reflexivity || lia).
    destruct (Z.eqb_spec 0 j); [lia|]. rewrite orb_false_r. reflexivity. }
  split; [exact Hsib|]. split.
  - destruct (sibling_leaves_root sum_digest p1 p2 0 eq_refl eq_refl) as [Hroot _];
      [lia|]. exact (Hroot Hsib).
  - destruct (sibling_leaves_root sum_digest p1 p2 3 eq_refl eq_refl) as [_ Hfail];
      [lia|]. apply Hfail. intros (_ & Hset & _). vm_compute in Hset. discriminate.
Defined.

(** ** One leaf and one sibling from the proof *)

Lemma run_loop_end (blake2b_256 : bytes -> bytes) (state : smt_state_t)
  (proof : bytes) (fuel : nat) (m : machine) :
  proof_length proof <= proof_index m ->
  run_loop blake2b_256 state proof fuel m = Ok m.
Proof.
  intros Hend. destruct fuel; simpl;
    destruct (Z.ltb_spec (proof_index m) (proof_length proof)); (lia || reflexivity).
Qed.

(** X30 (one leaf and one sibling): for a state of one pair, the proof [L]
    followed by [P] with a height and a 32-byte sibling gives as the root
    the merge of the leaf digest and the sibling, the sibling on the left
    exactly when bit [height] of the key is set. *)
Theorem leaf_sibling_root (blake2b_256 : bytes -> bytes) (p : smt_pair_t)
  (height : Z) (sibling : bytes) :
  pair_ok p = true -> 0 <= height < 256 -> bytes32 sibling = true ->
  smt_calculate_root blake2b_256 (one_pair_state p) (0x4C :: op_P height sibling)
  = Ok (if _smt_get_bit (key p) height
        then _smt_merge blake2b_256 sibling (leaf_digest blake2b_256 p)
        else _smt_merge blake2b_256 (leaf_digest blake2b_256 p) sibling).
Proof.
  intros Hp Hh Hsib.
  set (st := one_pair_state p). set (proof := 0x4C :: op_P height sibling).
  pose proof (bytes32_length sibling Hsib) as Hlen.
  assert (state_ok st = true) as Hst.
  { apply state_ok_iff. simpl. repeat split; try done. repeat constructor; assumption. }
  assert (proof_length proof = 35) as Hpl.
  { unfold proof_length, proof, op_P. simpl length. lia. }
  assert (proof_ok proof = true) as Hproof.
  { apply proof_ok_iff. split; [|rewrite Hpl; reflexivity].
    apply bytes32_iff in Hsib as [_ Hbytes].
    repeat (constructor; [unfold is_byte; lia|]). exact Hbytes. }
  pose proof (exec_leaf_eq blake2b_256 st proof machine_init Hst Hproof
                eq_refl eq_refl ltac:(simpl; lia) ltac:(simpl; lia)) as H1.
  cbv zeta in H1.
  match type of H1 with _ = Ok ?x => set (m1 := x) in * end.
  assert (machine_ok m1 = true) as Hm1
    by exact (exec_opcode_ok blake2b_256 st proof Hst machine_init m1
                machine_init_ok H1).
  pose proof (exec_proof_eq blake2b_256 st proof m1 Hproof Hm1 height sibling []
                eq_refl ltac:(simpl; lia) ltac:(rewrite app_nil_r; reflexivity) Hlen)
    as H2.
  cbv zeta in H2.
  match type of H2 with _ = Ok ?x => set (m2 := x) in * end.
  assert (run_steps blake2b_256 st proof 2 machine_init = Ok m2) as Hrun.
  { cbn [run_steps]. rewrite H1, H2. reflexivity. }
  unfold smt_calculate_root.
  replace (length proof) with (2 + 33)%nat by (unfold proof_length in Hpl; lia).
  destruct (run_loop_steps blake2b_256 st proof ltac:(rewrite Hpl; reflexivity)
              2 33 machine_init m2 ltac:(simpl; lia) Hrun) as (-> & _).
  rewrite run_loop_end by (rewrite Hpl; simpl; lia).
  reflexivity.
Qed.

Lemma leaf_sibling_root_witness :
  let p := mk_pair (replicate 32 6) single_leaf_value 0 in
  let sibling := replicate 32 9 in
  pair_ok p = true /\ bytes32 sibling = true /\
  smt_calculate_root sum_digest (one_pair_state p) (0x4C :: op_P 1 sibling)
  = Ok (_smt_merge sum_digest sibling (leaf_digest sum_digest p)) /\
  smt_calculate_root sum_digest (one_pair_state p) (0x4C :: op_P 0 sibling)
  = Ok (_smt_merge sum_digest (leaf_digest sum_digest p) sibling).
Proof.
  intros p sibling. split; [reflexivity|]. split; [reflexivity|]. split.
  - rewrite (leaf_sibling_root sum_digest p 1 sibling eq_refl ltac:(lia) eq_refl).
    reflexivity.
  - rewrite (leaf_sibling_root sum_digest p 0 sibling eq_refl ltac:(lia) eq_refl).
    reflexivity.
Defined.

(* ================================================================= *)
(** * Normalisation and the inserts before it *)

(** ** Inserts that a full state refuses *)





Section Accepted.

Variable k : bytes.



End Accepted.

(** ** What normalisation keeps *)

Lemma elem_of_map_kv (l : list smt_pair_t) (k v : bytes) :
  (k, v) ∈ map pair_kv l <-> exists p, p ∈ l /\ key p = k /\ value p = v.
Proof.
  change (map pair_kv l) with (pair_kv <$> l). rewrite list_elem_of_fmap. split.
  - intros (p & Hkv & Hp). injection Hkv as -> ->. exists p. repeat split. exact Hp.
  - intros (p & Hp & <- & <-). exists p. split; [reflexivity | exact Hp].
Qed.





(** ** The pair that wins among equal keys *)

(** C6, as the code has it: in a state of fewer than 2^31 pairs, among
    the numbered pairs with equal keys the pair with the lowest [order],
    which is the pair inserted last, wins: normalisation keeps one pair for
    every key, the pair numbered lowest among the pairs of a key has its
    key and value kept, and every pair kept has the key and the value of
    the pair numbered lowest among the pairs of its key. *)
Theorem normalize_lowest_order (s : smt_state_t) :
  state_ok s = true -> len s < 2 ^ 31 ->
  NoDup (map key (live (smt_state_normalize s))) /\
  (forall q, q ∈ tagged s ->
     (forall p, p ∈ tagged s -> key p = key q -> order q <= order p) ->
     (key q, value q) ∈ map pair_kv (live (smt_state_normalize s))) /\
  lowest_order_retained s.
Proof.
  intros Hs Hsmall.
  split.
  { exact (StronglySorted_NoDup key_lt _ key_lt_irrefl
             (normalize_strictly_sorted s Hs Hsmall)). }
  split; [|intros r Hr; exact (normalize_retained s Hs Hsmall r Hr)].
  intros q Hq Hlow.
  destruct (tagged_elem s Hs q Hq) as (i & p & Hp & _ & Hqp).
  destruct (normalize_keeps_keys s Hs Hsmall p (list_elem_of_lookup_2 _ _ _ Hp))
    as (r & Hr & Hkey).
  assert (key q = key p) as Hkq by (rewrite Hqp; reflexivity).
  destruct (normalize_retained s Hs Hsmall r Hr) as (q0 & Hq0 & Hk0 & Hv0 & Hlow0).
  assert (q0 = q) as ->.
  { apply (tagged_rank_inj s Hs Hsmall); [exact Hq0 | exact Hq |].
    assert (key q0 = key q) as Hk by congruence.
    pose proof (Hlow q0 Hq0 Hk) as H1.
    pose proof (Hlow0 q Hq (eq_sym Hk)) as H2.
    unfold pair_rank. rewrite Hk. lia. }
  apply elem_of_map_kv. exists r. split; [exact Hr|]. split; congruence.
Qed.

Lemma normalize_lowest_order_witness :
  (state_ok mixed_state = true /\ len mixed_state < 2 ^ 31) /\
  tagged mixed_state
  = [mk_pair high_key (replicate 32 4) 3; mk_pair low_key (replicate 32 2) 2;
     mk_pair low_key (replicate 32 3) 1] /\
  (low_key, replicate 32 3) ∈ map pair_kv (live (smt_state_normalize mixed_state)) /\
  ~ (low_key, replicate 32 2) ∈ map pair_kv (live (smt_state_normalize mixed_state)).
Proof.
  assert (state_ok mixed_state = true) as Hs by reflexivity.
  assert (len mixed_state < 2 ^ 31) as Hsmall by reflexivity.
  assert (tagged mixed_state
          = [mk_pair high_key (replicate 32 4) 3; mk_pair low_key (replicate 32 2) 2;
             mk_pair low_key (replicate 32 3) 1]) as Htag by reflexivity.
  destruct (normalize_lowest_order mixed_state Hs Hsmall) as (Hnd & Hwin & Hret).
  split; [split; assumption|]. split; [exact Htag|].
  assert ((low_key, replicate 32 3)
            ∈ map pair_kv (live (smt_state_normalize mixed_state))) as Hkept.
  { apply (Hwin (mk_pair low_key (replicate 32 3) 1)).
    - rewrite Htag. right. right. left.
    - intros p Hp _. rewrite Htag in Hp.
      apply elem_of_cons in Hp as [->|Hp]; [simpl; lia|].
      apply elem_of_cons in Hp as [->|Hp]; [simpl; lia|].
      apply elem_of_cons in Hp as [->|Hp]; [simpl; lia | inversion Hp]. }
  split; [exact Hkept|].
  intros Hother.
  apply elem_of_map_kv in Hkept as (p1 & Hp1 & Hk1 & Hv1).
  apply elem_of_map_kv in Hother as (p2 & Hp2 & Hk2 & Hv2).
  apply list_elem_of_lookup in Hp1 as [i1 Hi1].
  apply list_elem_of_lookup in Hp2 as [i2 Hi2].
  assert (i1 = i2) as ->.
  { apply (NoDup_lookup _ i1 i2 low_key Hnd);
      change (map key ?l) with (key <$> l); rewrite list_lookup_fmap.
    - rewrite Hi1. simpl. rewrite Hk1. reflexivity.
    - rewrite Hi2. simpl. rewrite Hk2. reflexivity. }
  rewrite Hi1 in Hi2. injection Hi2 as ->. rewrite Hv1 in Hv2.
  vm_compute in Hv2. discriminate.
Defined.
